(** * rosbag_to_las: the trajectory-correction and point-transformation core

    A shallow embedding of [bag2las_transform.py]: quaternion interpolation
    ([slerp_quaternions]), rigid transforms ([create_transform_matrix],
    [apply_transform_to_points]), odometry interpolation
    ([interpolate_odometry_data]), the pose graph of [SimpleSLAM] and the
    transform stage of [convert_bag_to_laz]; further the trajectory
    statistics ([calculate_total_distance], [calculate_trajectory_metrics]),
    the reading of the messages and the preparation of the arrays for the
    writer in [convert_bag_to_laz], and the Euler angles of
    [create_pos_file].

    Numbers.  The program computes on NumPy [float64] values.  Every
    definition below is written once, over an interface [Float64] of the
    operations the program uses (arithmetic, comparisons, [sqrt], [sin],
    [cos], [arccos], [exp], [isnan], [isinf]), so that the statements that only
    depend on the control flow hold for every implementation of the
    interface.  Statements that need the laws of arithmetic are proved for
    the instance [R_Float64], in which a float is a real number: rounding,
    overflow and the special values are idealised away there, and the
    comment of each such theorem says so.  Where a special value decides
    what the program does (a division by zero), the instance [X_Float64]
    adds the infinities and NaN to the real numbers.  The library functions the
    program calls (NumPy, SciPy) are modelled by what they compute;
    [np.random.choice] and [scipy.optimize.least_squares] are left as
    parameters. *)

From Stdlib Require Import String.
From Stdlib Require Import List Bool Arith Lia ZArith QArith Qreals Reals Lra Psatz RNsatz.
Import ListNotations.
Close Scope Q_scope.

Set Implicit Arguments.

(** ** The numeric interface *)

Declare Scope float_scope.
Delimit Scope float_scope with fl.

Class Float64 (F : Type) : Type := {
  f_lit : Q -> F;                 (* a decimal literal of the source *)
  f_add : F -> F -> F;
  f_sub : F -> F -> F;
  f_mul : F -> F -> F;
  f_div : F -> F -> F;
  f_neg : F -> F;
  f_abs : F -> F;
  f_sqrt : F -> F;
  f_sin : F -> F;
  f_cos : F -> F;
  f_arccos : F -> F;
  f_exp : F -> F;
  f_lt : F -> F -> bool;          (* Python [<]; [a > b] is [f_lt b a] *)
  f_le : F -> F -> bool;          (* Python [<=]; [a >= b] is [f_le b a] *)
  f_eq : F -> F -> bool;          (* Python [==] *)
  f_isnan : F -> bool;
  f_isinf : F -> bool
}.

Infix "+" := f_add : float_scope.
Infix "-" := f_sub : float_scope.
Infix "*" := f_mul : float_scope.
Infix "/" := f_div : float_scope.
Notation "- x" := (f_neg x) : float_scope.
Infix "<?" := f_lt : float_scope.
Infix "<=?" := f_le : float_scope.
Infix "=?" := f_eq : float_scope.
Notation "x >? y" := (f_lt y x) (only parsing) : float_scope.
Notation "x >=? y" := (f_le y x) (only parsing) : float_scope.

(** Real numbers as an idealised [float64]: no value is NaN or infinite. *)

Definition Rltb (x y : R) : bool := if Rlt_dec x y then true else false.
Definition Rleb (x y : R) : bool := if Rle_dec x y then true else false.
Definition Reqb (x y : R) : bool := if Req_dec_T x y then true else false.

#[export] Instance R_Float64 : Float64 R := {|
  f_lit := Q2R;
  f_add := Rplus;
  f_sub := Rminus;
  f_mul := Rmult;
  f_div := Rdiv;
  f_neg := Ropp;
  f_abs := Rabs;
  f_sqrt := sqrt;
  f_sin := sin;
  f_cos := cos;
  f_arccos := acos;
  f_exp := exp;
  f_lt := Rltb;
  f_le := Rleb;
  f_eq := Reqb;
  f_isnan := fun _ => false;
  f_isinf := fun _ => false
|}.

(** Real numbers with the special values of [float64].  The infinities
    and NaN behave as IEEE 754 prescribes: an operation without a value
    ([0/0], [inf - inf], [0 * inf], the square root of a negative number)
    gives NaN, NaN propagates, and every comparison with NaN is false.
    Rounding and overflow stay idealised, and there is one zero, which
    counts as positive when something is divided by it. *)
Inductive xfloat : Type :=
| Finite (r : R)
| PosInf
| NegInf
| NaN.

Definition infinity (positive : bool) : xfloat :=
  if positive then PosInf else NegInf.

Definition is_zero (a : xfloat) : bool :=
  match a with Finite r => Reqb r 0 | _ => false end.

Definition is_positive (a : xfloat) : bool :=
  match a with Finite r => Rleb 0 r | PosInf => true | _ => false end.

Definition x_neg (a : xfloat) : xfloat :=
  match a with
  | Finite r => Finite (- r)
  | PosInf => NegInf
  | NegInf => PosInf
  | NaN => NaN
  end.

Definition x_abs (a : xfloat) : xfloat :=
  match a with
  | Finite r => Finite (Rabs r)
  | PosInf | NegInf => PosInf
  | NaN => NaN
  end.

Definition x_add (a b : xfloat) : xfloat :=
  match a, b with
  | NaN, _ | _, NaN => NaN
  | Finite r, Finite s => Finite (r + s)
  | PosInf, NegInf | NegInf, PosInf => NaN
  | PosInf, _ | _, PosInf => PosInf
  | NegInf, _ | _, NegInf => NegInf
  end.

Definition x_sub (a b : xfloat) : xfloat :=
  match a, b with
  | Finite r, Finite s => Finite (r - s)
  | _, _ => x_add a (x_neg b)
  end.

Definition x_mul (a b : xfloat) : xfloat :=
  match a, b with
  | NaN, _ | _, NaN => NaN
  | Finite r, Finite s => Finite (r * s)
  | _, _ =>
      if is_zero a || is_zero b then NaN
      else infinity (Bool.eqb (is_positive a) (is_positive b))
  end.

Definition x_div (a b : xfloat) : xfloat :=
  match a, b with
  | NaN, _ | _, NaN => NaN
  | Finite r, Finite s =>
      if Reqb s 0 then
        if Reqb r 0 then NaN else infinity (Rltb 0 r)
      else Finite (r / s)
  | Finite _, _ => Finite 0
  | _, Finite _ => infinity (Bool.eqb (is_positive a) (is_positive b))
  | _, _ => NaN
  end.

Definition x_sqrt (a : xfloat) : xfloat :=
  match a with
  | Finite r => if Rltb r 0 then NaN else Finite (sqrt r)
  | PosInf => PosInf
  | NegInf | NaN => NaN
  end.

Definition x_sin (a : xfloat) : xfloat :=
  match a with Finite r => Finite (sin r) | _ => NaN end.

Definition x_cos (a : xfloat) : xfloat :=
  match a with Finite r => Finite (cos r) | _ => NaN end.

Definition x_arccos (a : xfloat) : xfloat :=
  match a with
  | Finite r => if Rltb 1 (Rabs r) then NaN else Finite (acos r)
  | _ => NaN
  end.

Definition x_exp (a : xfloat) : xfloat :=
  match a with
  | Finite r => Finite (exp r)
  | PosInf => PosInf
  | NegInf => Finite 0
  | NaN => NaN
  end.

Definition x_lt (a b : xfloat) : bool :=
  match a, b with
  | NaN, _ | _, NaN => false
  | Finite r, Finite s => Rltb r s
  | _, NegInf | PosInf, _ => false
  | _, PosInf | NegInf, _ => true
  end.

Definition x_eq (a b : xfloat) : bool :=
  match a, b with
  | Finite r, Finite s => Reqb r s
  | PosInf, PosInf | NegInf, NegInf => true
  | _, _ => false
  end.

Definition x_le (a b : xfloat) : bool :=
  match a, b with
  | NaN, _ | _, NaN => false
  | Finite r, Finite s => Rleb r s
  | NegInf, _ | _, PosInf => true
  | _, _ => false
  end.

#[export] Instance X_Float64 : Float64 xfloat := {|
  f_lit := fun q => Finite (Q2R q);
  f_add := x_add;
  f_sub := x_sub;
  f_mul := x_mul;
  f_div := x_div;
  f_neg := x_neg;
  f_abs := x_abs;
  f_sqrt := x_sqrt;
  f_sin := x_sin;
  f_cos := x_cos;
  f_arccos := x_arccos;
  f_exp := x_exp;
  f_lt := x_lt;
  f_le := x_le;
  f_eq := x_eq;
  f_isnan := fun a => match a with NaN => true | _ => false end;
  f_isinf := fun a => match a with PosInf | NegInf => true | _ => false end
|}.

(** ** NumPy arrays and Python built-ins *)

Section Arrays.
Context {F : Type} `{Float64 F}.
Local Open Scope float_scope.

Definition f0 : F := f_lit 0.
Definition f1 : F := f_lit 1.
Definition f2 : F := f_lit 2.

(** One-dimensional arrays are lists; the element-wise operations of two
    arrays of the same length. *)
Fixpoint map2 (op : F -> F -> F) (u v : list F) : list F :=
  match u, v with
  | a :: u', b :: v' => op a b :: map2 op u' v'
  | _, _ => []
  end.

Definition vadd (u v : list F) : list F := map2 f_add u v.
Definition vsub (u v : list F) : list F := map2 f_sub u v.
Definition vneg (u : list F) : list F := map f_neg u.
(** [u * s], [s * u] and [u / s] for a scalar [s]. *)
Definition vscale (s : F) (u : list F) : list F := map (fun a => s * a) u.
Definition vscale_r (u : list F) (s : F) : list F := map (fun a => a * s) u.
Definition vdiv (u : list F) (s : F) : list F := map (fun a => a / s) u.

Definition vsum (u : list F) : F := fold_left f_add u f0.
(** [np.dot] of two vectors and [np.linalg.norm] of one. *)
Definition np_dot (u v : list F) : F := vsum (map2 f_mul u v).
Definition np_norm (u : list F) : F := f_sqrt (vsum (map (fun a => a * a) u)).

(** Python's [max(a, b)] and [min(a, b)]: the first argument is kept
    unless the second one is strictly better. *)
Definition py_max (a b : F) : F := if a <? b then b else a.
Definition py_min (a b : F) : F := if b <? a then b else a.

(** [np.clip(t, lo, hi)] is [minimum(maximum(t, lo), hi)]. *)
Definition np_clip (t lo hi : F) : F :=
  let m := if t <? lo then lo else t in
  if hi <? m then hi else m.

(** [np.min] and [np.max] of a non-empty array ([None] models the
    [ValueError] NumPy raises on an empty one). *)
Definition np_min (u : list F) : option F :=
  match u with
  | [] => None
  | a :: u' => Some (fold_left (fun m b => if b <? m then b else m) u' a)
  end.
Definition np_max (u : list F) : option F :=
  match u with
  | [] => None
  | a :: u' => Some (fold_left (fun m b => if m <? b then b else m) u' a)
  end.
End Arrays.

(** ** Quaternion math *)

Section Quaternion.
Context {F : Type} `{Float64 F}.
Local Open Scope float_scope.

Definition DOT_THRESHOLD : F := f_lit (9995 # 10000).

(** [slerp_quaternions(q1, q2, t)], lines 22-67. *)
Definition slerp_quaternions (q1 q2 : list F) (t : F) : list F :=
  let q1 := vdiv q1 (np_norm q1) in
  let q2 := vdiv q2 (np_norm q2) in
  let dot := np_dot q1 q2 in
  let '(q2, dot) := if dot <? f0 then (vneg q2, - dot) else (q2, dot) in
  if dot >? DOT_THRESHOLD then
    let result := vadd q1 (vscale t (vsub q2 q1)) in
    vdiv result (np_norm result)
  else
    let theta_0 := f_arccos (f_abs dot) in
    let sin_theta_0 := f_sin theta_0 in
    let theta := theta_0 * t in
    let sin_theta := f_sin theta in
    let s0 := f_cos theta - dot * sin_theta / sin_theta_0 in
    let s1 := sin_theta / sin_theta_0 in
    vadd (vscale s0 q1) (vscale s1 q2).

(** [quaternion_to_rotation_matrix(quaternion)], lines 69-93; the
    quaternion is unpacked into exactly four components. *)
Definition quaternion_to_rotation_matrix (q : F * F * F * F) : list (list F) :=
  let '(x, y, z, w) := q in
  let norm := f_sqrt (x*x + y*y + z*z + w*w) in
  let '(x, y, z, w) :=
    if norm >? f0 then (x/norm, y/norm, z/norm, w/norm) else (x, y, z, w) in
  [ [f1 - f2*(y*y + z*z); f2*(x*y - z*w); f2*(x*z + y*w)];
    [f2*(x*y + z*w); f1 - f2*(x*x + z*z); f2*(y*z - x*w)];
    [f2*(x*z - y*w); f2*(y*z + x*w); f1 - f2*(x*x + y*y)] ].
End Quaternion.

(** ** Outcomes of Python calls *)

(** A call either returns a value or raises; the exceptions the modelled
    code can raise are listed. *)
Inductive py_exn : Type :=
| ValueError      (* shape checks, unpacking, broadcasting *)
| IndexError
| NameError       (* a local variable read before any assignment *)
| TypeError       (* an operation on [None] *)
| LinAlgError.    (* [np.linalg.inv] of a singular matrix *)

Inductive outcome (A : Type) : Type :=
| Returned (a : A)
| Raised (e : py_exn).
Arguments Returned {A} a.
Arguments Raised {A} e.

Definition bind {A B : Type} (m : outcome A) (k : A -> outcome B) : outcome B :=
  match m with
  | Returned a => k a
  | Raised e => Raised e
  end.

Notation "x <- m ;; k" := (bind m (fun x => k))
  (at level 61, m at next level, right associativity).
Notation "' p <- m ;; k" := (bind m (fun x => match x with p => k end))
  (at level 61, p pattern, m at next level, right associativity).

(** [try: m except Exception: handler]. *)
Definition try_except {A : Type} (m : outcome A) (handler : A) : A :=
  match m with
  | Returned a => a
  | Raised _ => handler
  end.

Definition of_option {A : Type} (e : py_exn) (o : option A) : outcome A :=
  match o with
  | Some a => Returned a
  | None => Raised e
  end.

Fixpoint mapM {A B : Type} (f : A -> outcome B) (l : list A) : outcome (list B) :=
  match l with
  | [] => Returned []
  | a :: l' => b <- f a ;; bs <- mapM f l' ;; Returned (b :: bs)
  end.

(** ** Matrices *)

Section Matrices.
Context {F : Type} `{Float64 F}.
Local Open Scope float_scope.

(** A two-dimensional array is the list of its rows. *)
Definition matrix : Type := list (list F).

(** An array together with its [shape]; [np_array rows] is what
    [np.array] builds from a non-empty list of equally long rows. *)
Record ndarray2 : Type := { shape : nat * nat; rows : matrix }.

Definition np_array (m : matrix) : ndarray2 :=
  {| shape := (length m, length (hd [] m)); rows := m |}.

Definition well_shaped (a : ndarray2) : Prop :=
  length (rows a) = fst (shape a) /\
  Forall (fun r => length r = snd (shape a)) (rows a).

Definition np_eye (n : nat) : matrix :=
  map (fun i => map (fun j => if Nat.eqb i j then f1 else f0) (seq 0 n)) (seq 0 n).

(** [m @ v] for a vector and [a @ b] for two matrices. *)
Definition matvec (m : matrix) (v : list F) : list F :=
  map (fun r => np_dot r v) m.

Fixpoint transpose (ncols : nat) (m : matrix) : matrix :=
  match ncols with
  | O => []
  | S k => map (fun r => hd f0 r) m :: transpose k (map (@tl F) m)
  end.

Definition matmul (a b : matrix) : matrix :=
  let bt := transpose (length (hd [] b)) b in
  map (fun r => map (fun c => np_dot r c) bt) a.

(** Unpacking an array into exactly three, respectively four, names. *)
Definition unpack3 (v : list F) : outcome (F * F * F) :=
  match v with
  | [a; b; c] => Returned (a, b, c)
  | _ => Raised ValueError
  end.
Definition unpack4 (v : list F) : outcome (F * F * F * F) :=
  match v with
  | [a; b; c; d] => Returned (a, b, c, d)
  | _ => Raised ValueError
  end.

(** Assigning a vector to a slice of three cells broadcasts a vector of
    length one and rejects every length other than one and three. *)
Definition broadcast3 (v : list F) : outcome (F * F * F) :=
  match v with
  | [a] => Returned (a, a, a)
  | [a; b; c] => Returned (a, b, c)
  | _ => Raised ValueError
  end.

(** The 4x4 matrix that [np.eye(4)] becomes after [m[:3, :3] = r] and
    [m[:3, 3] = t], for a three-row matrix [r]. *)
Definition homogeneous (r : matrix) (t : F * F * F) : matrix :=
  let '(tx, ty, tz) := t in
  [ firstn 3 (nth 0 r []) ++ [tx];
    firstn 3 (nth 1 r []) ++ [ty];
    firstn 3 (nth 2 r []) ++ [tz];
    [f0; f0; f0; f1] ].

(** Determinant by expansion along the first row; [n] is the dimension. *)
Definition drop_nth {A : Type} (j : nat) (l : list A) : list A :=
  firstn j l ++ skipn (S j) l.

Definition minor (i j : nat) (m : matrix) : matrix :=
  map (drop_nth j) (drop_nth i m).

Definition signed (k : nat) (a : F) : F := if Nat.even k then a else - a.

Fixpoint det (n : nat) (m : matrix) : F :=
  match n with
  | O => f1
  | S k =>
      vsum (map (fun j => signed j (nth j (hd [] m) f0 * det k (minor 0 j m)))
                (seq 0 n))
  end.

(** [np.linalg.inv] on an [n]x[n] matrix: the adjugate over the
    determinant; a singular matrix raises [LinAlgError]. *)
Definition np_linalg_inv (n : nat) (m : matrix) : outcome matrix :=
  let d := det n m in
  if d =? f0 then Raised LinAlgError
  else Returned
    (map (fun i => map (fun j => signed (i + j) (det (pred n) (minor j i m)) / d)
                       (seq 0 n)) (seq 0 n)).
End Matrices.
Arguments matrix F : clear implicits.
Arguments ndarray2 F : clear implicits.

(** ** Rigid transform builder *)

Section Transform.
Context {F : Type} `{Float64 F}.
Local Open Scope float_scope.
Local Abbreviation matrix := (matrix F).
Local Abbreviation ndarray2 := (ndarray2 F).

(** The rotation block built from the Euler angles of a sensor offset,
    lines 123-132. *)
Definition R_lidar_of (rx ry rz : F) : matrix :=
  let cos_rx := f_cos rx in let sin_rx := f_sin rx in
  let cos_ry := f_cos ry in let sin_ry := f_sin ry in
  let cos_rz := f_cos rz in let sin_rz := f_sin rz in
  [ [cos_ry*cos_rz; - cos_ry*sin_rz; sin_ry];
    [sin_rx*sin_ry*cos_rz + cos_rx*sin_rz;
     - sin_rx*sin_ry*sin_rz + cos_rx*cos_rz;
     - sin_rx*cos_ry];
    [- cos_rx*sin_ry*cos_rz + sin_rx*sin_rz;
     cos_rx*sin_ry*sin_rz + sin_rx*cos_rz;
     cos_rx*cos_ry] ].

(** The offset matrix of lines 118-139. *)
Definition lidar_offset_matrix (lidar_offset : list F) : outcome matrix :=
  let lidar_trans := firstn 3 lidar_offset in
  R_lidar <-
    (if Nat.ltb 3 (length lidar_offset) then
       '(rx, ry, rz) <- unpack3 (firstn 3 (skipn 3 lidar_offset)) ;;
       Returned (R_lidar_of rx ry rz)
     else Returned (np_eye 3)) ;;
  t <- broadcast3 lidar_trans ;;
  Returned (homogeneous R_lidar t).

(** [create_transform_matrix(position, quaternion, lidar_offset=None)],
    lines 95-144. *)
Definition create_transform_matrix
    (position quaternion : list F) (lidar_offset : option (list F))
    : outcome matrix :=
  q <- unpack4 quaternion ;;
  t <- broadcast3 position ;;
  let transform_matrix := homogeneous (quaternion_to_rotation_matrix q) t in
  match lidar_offset with
  | Some off =>
      m <- lidar_offset_matrix off ;;
      Returned (matmul transform_matrix m)
  | None => Returned transform_matrix
  end.

(** What [apply_transform_to_points] prints. *)
Inductive warning : Type :=
| DeterminantWarning (d : F)
| NonFiniteWarning (nan_count inf_count : nat).

Definition count_if (p : F -> bool) (m : matrix) : nat :=
  length (filter p (concat m)).

(** The homogeneous product of lines 170-179: every point gets a fourth
    coordinate 1, is multiplied by the matrix, and loses the fourth
    coordinate again. *)
Definition transform_points (points t : matrix) : matrix :=
  map (fun p => firstn 3 (matvec t (firstn 3 p ++ [f1]))) points.

(** [apply_transform_to_points(points, transform_matrix)], lines 146-187:
    the printed warnings and the result. *)
Definition apply_transform_to_points (points transform_matrix : ndarray2)
    : list warning * outcome ndarray2 :=
  if negb (Nat.eqb (snd (shape points)) 3) then ([], Raised ValueError)
  else if negb (Nat.eqb (fst (shape transform_matrix)) 4
                && Nat.eqb (snd (shape transform_matrix)) 4)
  then ([], Raised ValueError)
  else
    let d := det 3 (map (firstn 3) (firstn 3 (rows transform_matrix))) in
    let w1 := if f_abs (d - f1) >? f_lit (1 # 1000)
              then [DeterminantWarning d] else [] in
    let transformed_points := transform_points (rows points) (rows transform_matrix) in
    let w2 :=
      if existsb f_isnan (concat transformed_points)
         || existsb f_isinf (concat transformed_points)
      then [NonFiniteWarning (count_if f_isnan transformed_points)
                             (count_if f_isinf transformed_points)]
      else [] in
    (w1 ++ w2,
     Returned {| shape := (fst (shape points), 3); rows := transformed_points |}).
End Transform.

(** ** Trajectory interpolator *)

Section Interpolation.
Context {F : Type} `{Float64 F}.
Local Open Scope float_scope.
Local Abbreviation matrix := (matrix F).
Local Abbreviation ndarray2 := (ndarray2 F).

(** [np.searchsorted(a, key)]: the binary search for the leftmost
    insertion point; every round halves [hi - lo], so [length a] rounds
    are more than enough. *)
Fixpoint binsearch_left (fuel : nat) (a : list F) (key : F) (lo hi : nat) : nat :=
  match fuel with
  | O => lo
  | S k =>
      if Nat.ltb lo hi then
        let mid := (lo + Nat.div2 (hi - lo))%nat in
        if nth mid a f0 <? key then binsearch_left k a key (S mid) hi
        else binsearch_left k a key lo mid
      else lo
  end.

Definition np_searchsorted (a : list F) (key : F) : nat :=
  binsearch_left (S (length a)) a key 0 (length a).

(** [scipy.interpolate.interp1d(x, y, kind='linear', bounds_error=False,
    fill_value='extrapolate')]: the samples are put in the order of [x]
    by a stable sort, and a query is answered on the segment the binary
    search selects, the first and the last segment being prolonged
    outside the samples. *)
Fixpoint insert_sample (s : F * F) (l : list (F * F)) : list (F * F) :=
  match l with
  | [] => [s]
  | h :: l' => if fst h <? fst s then h :: insert_sample s l' else s :: l
  end.

Definition sort_samples (l : list (F * F)) : list (F * F) :=
  fold_right insert_sample [] l.

Definition interp1d (x y : list F) : outcome (F -> F) :=
  if negb (Nat.eqb (length x) (length y)) then Raised ValueError
  else if Nat.ltb (length x) 2 then Raised ValueError
  else
    let s := sort_samples (combine x y) in
    let xs := map fst s in
    let ys := map snd s in
    Returned (fun x_new =>
      let i := Nat.min (Nat.max (np_searchsorted xs x_new) 1) (length xs - 1) in
      let x_lo := nth (i - 1) xs f0 in
      let x_hi := nth i xs f0 in
      let y_lo := nth (i - 1) ys f0 in
      let y_hi := nth i ys f0 in
      let slope := (y_hi - y_lo) / (x_hi - x_lo) in
      slope * (x_new - x_lo) + y_lo).

(** Column [k] of a two-dimensional array. *)
Definition column (k : nat) (m : matrix) : outcome (list F) :=
  mapM (fun r => of_option IndexError (nth_error r k)) m.

(** Assigning a vector to a row of four cells. *)
Definition broadcast4 (v : list F) : outcome (list F) :=
  match v with
  | [a] => Returned [a; a; a; a]
  | [_; _; _; _] => Returned v
  | _ => Raised ValueError
  end.

(** The body of the orientation loop, lines 296-318, for one query time. *)
Definition interpolate_orientation
    (odom_timestamps : list F) (odom_orientations : matrix) (pc_time : F)
    : outcome (list F) :=
  t_first <- of_option IndexError (nth_error odom_timestamps 0) ;;
  if pc_time <=? t_first then
    q <- of_option IndexError (nth_error odom_orientations 0) ;;
    broadcast4 q
  else
    t_last <- of_option IndexError
                (nth_error odom_timestamps (length odom_timestamps - 1)) ;;
    if pc_time >=? t_last then
      q <- of_option IndexError
             (nth_error odom_orientations (length odom_orientations - 1)) ;;
      broadcast4 q
    else
      let idx := np_searchsorted odom_timestamps pc_time in
      let idx := if Nat.eqb idx 0 then 1%nat else idx in
      t1 <- of_option IndexError (nth_error odom_timestamps (idx - 1)) ;;
      t2 <- of_option IndexError (nth_error odom_timestamps idx) ;;
      q1 <- of_option IndexError (nth_error odom_orientations (idx - 1)) ;;
      q2 <- of_option IndexError (nth_error odom_orientations idx) ;;
      let t := if negb (t2 =? t1) then (pc_time - t1) / (t2 - t1) else f0 in
      let t := np_clip t f0 f1 in
      broadcast4 (slerp_quaternions q1 q2 t).

(** [interpolate_odometry_data], lines 238-326.  [Returned None] is the
    pair [(None, None)] of the source. *)
Definition interpolate_odometry_data
    (pc_timestamps odom_timestamps : list F)
    (odom_positions odom_orientations : matrix)
    : outcome (option (matrix * matrix)) :=
  if Nat.ltb (length odom_timestamps) 2 then Returned None
  else
    odom_start <- of_option ValueError (np_min odom_timestamps) ;;
    odom_end <- of_option ValueError (np_max odom_timestamps) ;;
    pc_start <- of_option ValueError (np_min pc_timestamps) ;;
    pc_end <- of_option ValueError (np_max pc_timestamps) ;;
    let overlap_start := py_max odom_start pc_start in
    let overlap_end := py_min odom_end pc_end in
    if overlap_start >=? overlap_end then Returned None
    else
      Returned (try_except
        (xs <- column 0 odom_positions ;;
         interp_x <- interp1d odom_timestamps xs ;;
         ys <- column 1 odom_positions ;;
         interp_y <- interp1d odom_timestamps ys ;;
         zs <- column 2 odom_positions ;;
         interp_z <- interp1d odom_timestamps zs ;;
         let interpolated_positions :=
           map (fun t => [interp_x t; interp_y t; interp_z t]) pc_timestamps in
         interpolated_orientations <-
           mapM (interpolate_orientation odom_timestamps odom_orientations)
                pc_timestamps ;;
         Returned (Some (interpolated_positions, interpolated_orientations)))
        None).
End Interpolation.

(** ** Pose graph and optimizer: [class SimpleSLAM] *)

Section SLAM.
Context {F : Type} `{Float64 F}.
Local Open Scope float_scope.
Local Abbreviation matrix := (matrix F).
Local Abbreviation ndarray2 := (ndarray2 F).

(** A pose is the tuple [(timestamp, position, quaternion)]. *)
Definition pose : Type := F * list F * list F.
Definition pose_time (p : pose) : F := fst (fst p).
Definition pose_position (p : pose) : list F := snd (fst p).
Definition pose_quaternion (p : pose) : list F := snd p.
Definition pose_default : pose := (f0, [], []).

Record SimpleSLAM : Type := {
  loop_closure_distance : F;
  min_time_gap : F;
  poses : list pose;
  odometry_edges : list (nat * nat);
  loop_closure_edges : list (nat * nat * F)
}.

(** [__init__(self, loop_closure_distance=2.0, min_time_gap=10.0)]; an
    argument left out is [None] here. *)
Definition SimpleSLAM_init (loop_closure_distance min_time_gap : option F)
    : SimpleSLAM :=
  {| loop_closure_distance :=
       match loop_closure_distance with Some d => d | None => f_lit 2 end;
     min_time_gap :=
       match min_time_gap with Some g => g | None => f_lit 10 end;
     poses := [];
     odometry_edges := [];
     loop_closure_edges := [] |}.

(** [add_pose], lines 419-428: the new state and the returned id. *)
Definition add_pose (self : SimpleSLAM) (timestamp : F) (position quaternion : list F)
    : SimpleSLAM * nat :=
  let pose_id := length (poses self) in
  ({| loop_closure_distance := loop_closure_distance self;
      min_time_gap := min_time_gap self;
      poses := poses self ++ [(timestamp, position, quaternion)];
      odometry_edges :=
        if Nat.ltb 0 pose_id
        then odometry_edges self ++ [((pose_id - 1)%nat, pose_id)]
        else odometry_edges self;
      loop_closure_edges := loop_closure_edges self |},
   pose_id).

(** [KDTree(positions).query_ball_point(x, r)]: the indices of the
    positions at Euclidean distance at most [r] from [x] (SciPy returns
    them in no documented order; the model lists them by index). *)
Definition query_ball_point (positions : matrix) (x : list F) (r : F) : list nat :=
  filter (fun j => np_norm (vsub x (nth j positions [])) <=? r)
         (seq 0 (length positions)).

(** [np.random.choice(n, k, replace=False)] is left open: any selection
    of indices. *)
Variable np_random_choice : nat -> nat -> list nat.

Definition f_of_nat (n : nat) : F := f_lit (inject_Z (Z.of_nat n)).
Definition np_mean (u : list F) : F := vsum u / f_of_nat (length u).
Definition np_std (u : list F) : F :=
  let m := np_mean u in
  f_sqrt (np_mean (map (fun a => (a - m) * (a - m)) u)).

(** [_calculate_geometric_features], lines 527-536. *)
Definition _calculate_geometric_features (pc : matrix) : list F :=
  if Nat.eqb (length pc) 0 then repeat f0 6
  else
    let cols := transpose (length (hd [] pc)) pc in
    map np_mean cols ++ map np_std cols.

(** [_calculate_point_cloud_similarity], lines 488-525; a cloud that is
    [None] in the source is [None] here.  The only exception the guarded
    block can raise is the broadcasting error of two feature vectors of
    different lengths. *)
Definition _calculate_point_cloud_similarity (pc1 pc2 : option matrix) : F :=
  let max_points := 1000%nat in
  match pc1, pc2 with
  | Some pc1, Some pc2 =>
      if Nat.eqb (length pc1) 0 || Nat.eqb (length pc2) 0 then f_lit 0
      else
        let pc1 :=
          if Nat.ltb max_points (length pc1)
          then map (fun i => nth i pc1 []) (np_random_choice (length pc1) max_points)
          else pc1 in
        let pc2 :=
          if Nat.ltb max_points (length pc2)
          then map (fun i => nth i pc2 []) (np_random_choice (length pc2) max_points)
          else pc2 in
        let stats1 := _calculate_geometric_features pc1 in
        let stats2 := _calculate_geometric_features pc2 in
        if Nat.eqb (length stats1) (length stats2) then
          let feature_diff :=
            map2 f_div (map f_abs (vsub stats1 stats2))
                 (map (fun a => a + f_lit (1 # 1000000))
                      (vadd (map f_abs stats1) (map f_abs stats2))) in
          f_exp (- np_mean feature_diff)
        else f_lit 0
  | _, _ => f_lit 0
  end.

(** One candidate pair of the inner loop, lines 460-482: the edges it
    appends. *)
Definition loop_closure_candidate (self : SimpleSLAM)
    (point_clouds : option (list (option matrix))) (i j : nat)
    : list (nat * nat * F) :=
  let current_time := pose_time (nth i (poses self) pose_default) in
  let current_pos := pose_position (nth i (poses self) pose_default) in
  if Nat.leb j i then []
  else
    let time_gap := f_abs (current_time - pose_time (nth j (poses self) pose_default)) in
    if time_gap <? min_time_gap self then []
    else
      let distance :=
        np_norm (vsub current_pos (pose_position (nth j (poses self) pose_default))) in
      let confidence := py_max (f_lit 0) (f_lit 1 - distance / loop_closure_distance self) in
      let confidence :=
        match point_clouds with
        | Some pcs =>
            if Nat.ltb i (length pcs) && Nat.ltb j (length pcs) then
              confidence * _calculate_point_cloud_similarity
                             (nth i pcs None) (nth j pcs None)
            else confidence
        | None => confidence
        end in
      if confidence >? f_lit (3 # 10) then [(i, j, confidence)] else [].

(** [detect_loop_closures], lines 430-486: the new state and the
    returned list.  The early return leaves [loop_closure_edges] as it
    was. *)
Definition detect_loop_closures (self : SimpleSLAM)
    (point_clouds : option (list (option matrix)))
    : SimpleSLAM * list (nat * nat * F) :=
  let num_poses := length (poses self) in
  if Nat.ltb num_poses 3 then (self, [])
  else
    let positions := map pose_position (poses self) in
    let loop_closures :=
      flat_map (fun i =>
        let current_pos := pose_position (nth i (poses self) pose_default) in
        let nearby_indices :=
          query_ball_point positions current_pos (loop_closure_distance self) in
        flat_map (loop_closure_candidate self point_clouds i) nearby_indices)
        (seq 0 num_poses) in
    ({| loop_closure_distance := loop_closure_distance self;
        min_time_gap := min_time_gap self;
        poses := poses self;
        odometry_edges := odometry_edges self;
        loop_closure_edges := loop_closures |},
     loop_closures).

(** The Python slice [l[a:b]]. *)
Definition slice {A : Type} (l : list A) (a b : nat) : list A :=
  firstn (b - a) (skipn a l).

(** [_pose_graph_residuals(self, params)], lines 598-642. *)
Definition _pose_graph_residuals (self : SimpleSLAM) (params : list F) : list F :=
  let poses_ :=
    map (fun i =>
           let start_idx := (i * 7)%nat in
           (slice params start_idx (start_idx + 3),
            slice params (start_idx + 3) (start_idx + 7)))
        (seq 0 (length (poses self))) in
  let at_ k := nth k poses_ ([], []) in
  let residuals :=
    fold_left (fun residuals '(i, j) =>
      if Nat.ltb i (length poses_) && Nat.ltb j (length poses_) then
        let rel_trans := vsub (fst (at_ j)) (fst (at_ i)) in
        let expected_trans :=
          vsub (pose_position (nth j (poses self) pose_default))
               (pose_position (nth i (poses self) pose_default)) in
        let trans_residual := vsub rel_trans expected_trans in
        let residuals := residuals ++ trans_residual in
        let orient_residual :=
          vsub (firstn 3 (snd (at_ j))) (firstn 3 (snd (at_ i))) in
        residuals ++ vscale_r orient_residual (f_lit (1 # 10))
      else residuals)
      (odometry_edges self) [] in
  fold_left (fun residuals '(i, j, confidence) =>
    if Nat.ltb i (length poses_) && Nat.ltb j (length poses_) then
      let distance_residual := vsub (fst (at_ i)) (fst (at_ j)) in
      residuals ++ vscale_r distance_residual confidence
    else residuals)
    (loop_closure_edges self) residuals.

(** [scipy.optimize.least_squares(fun, x0, max_nfev=..., verbose=0)] is
    left open: it returns some [OptimizeResult] or raises. *)
Record OptimizeResult : Type := {
  res_x : list F;
  res_fun : list F;
  res_success : bool
}.
Variable least_squares :
  (list F -> list F) -> list F -> nat -> outcome OptimizeResult.

(** [optimize_poses(self, max_iterations=50)], lines 538-596: the state
    after the call and the returned list. *)
Definition optimize_poses (self : SimpleSLAM) (max_iterations : option nat)
    : SimpleSLAM * list pose :=
  let max_iterations := match max_iterations with Some n => n | None => 50%nat end in
  if Nat.ltb (length (poses self)) 2 then (self, poses self)
  else
    let initial_params :=
      flat_map (fun p => pose_position p ++ pose_quaternion p) (poses self) in
    (self,
     try_except
       (result <- least_squares (_pose_graph_residuals self) initial_params
                    (max_iterations * length initial_params) ;;
        _ <- (if res_success result
              then (* the report prints [result.fun[0]] *)
                of_option IndexError (nth_error (res_fun result) 0)
              else Returned f0) ;;
        Returned
          (map (fun i =>
                  let start_idx := (i * 7)%nat in
                  let position := slice (res_x result) start_idx (start_idx + 3) in
                  let quaternion :=
                    slice (res_x result) (start_idx + 3) (start_idx + 7) in
                  let quaternion := vdiv quaternion (np_norm quaternion) in
                  (pose_time (nth i (poses self) pose_default), position, quaternion))
               (seq 0 (length (poses self)))))
       (poses self)).

(** [apply_slam_optimization], lines 687-747: the graph it builds
    (lines 705-720) and, in [apply_slam_optimization], the two arrays of
    lines 726-731.  The call of [calculate_trajectory_metrics] that follows
    them (line 734) is not part of this definition; the whole function,
    with the metrics and the [ValueError] they raise on an empty
    trajectory, is [apply_slam_optimization_metrics] below. *)
Definition slam_graph (odom_timestamps : list F)
    (odom_positions odom_orientations : matrix)
    (point_clouds : option (list (option matrix))) (enable_loop_closure : bool)
    : outcome SimpleSLAM :=
  let slam := SimpleSLAM_init (Some (f_lit 3)) (Some (f_lit 15)) in
  slam <-
    fold_left (fun acc i =>
      slam <- acc ;;
      t <- of_option IndexError (nth_error odom_timestamps i) ;;
      p <- of_option IndexError (nth_error odom_positions i) ;;
      q <- of_option IndexError (nth_error odom_orientations i) ;;
      Returned (fst (add_pose slam t p q)))
      (seq 0 (length odom_timestamps)) (Returned slam) ;;
  Returned (if enable_loop_closure
            then fst (detect_loop_closures slam point_clouds)
            else slam).

End SLAM.
Arguments pose F : clear implicits.
Arguments SimpleSLAM F : clear implicits.
Arguments OptimizeResult F : clear implicits.

(** ** Transform stage of [convert_bag_to_laz] *)

Section Pipeline.
Context {F : Type} `{Float64 F}.
Local Open Scope float_scope.
Local Abbreviation matrix := (matrix F).
Local Abbreviation ndarray2 := (ndarray2 F).

(** The strings ["none"], ["global"] and ["local"]. *)
Inductive transform_mode : Type := mode_none | mode_global | mode_local.

Definition is_global_or_local (m : transform_mode) : bool :=
  match m with mode_none => false | _ => true end.

(** The local variables the second pass reads.  [interp] is [None] while
    the names [interp_positions] and [interp_orientations] are unbound,
    and [Some None] when they are bound to [None]. *)
Record prepared : Type := {
  mode : transform_mode;
  interp : option (option (matrix * matrix));
  reference_transform : option matrix
}.

(** Lines 1791-1817.  [odom] is [None] when [odom_timestamps] is. *)
Definition prepare_transformation (transform_mode : transform_mode)
    (odom : option (list F * matrix * matrix)) (message_timestamps : list F)
    : outcome prepared :=
  match odom with
  | Some (odom_timestamps, odom_positions, odom_orientations) =>
      if is_global_or_local transform_mode then
        r <- interpolate_odometry_data message_timestamps odom_timestamps
               odom_positions odom_orientations ;;
        match r with
        | None =>
            Returned {| mode := mode_none; interp := Some None;
                        reference_transform := None |}
        | Some (interp_positions, interp_orientations) =>
            match transform_mode with
            | mode_local =>
                p <- of_option IndexError (nth_error interp_positions 0) ;;
                q <- of_option IndexError (nth_error interp_orientations 0) ;;
                m <- create_transform_matrix p q None ;;
                m <- np_linalg_inv 4 m ;;
                Returned {| mode := transform_mode; interp := Some r;
                            reference_transform := Some m |}
            | _ =>
                Returned {| mode := transform_mode; interp := Some r;
                            reference_transform := None |}
            end
        end
      else
        Returned {| mode := transform_mode; interp := None;
                    reference_transform := None |}
  | None =>
      Returned {| mode := transform_mode; interp := None;
                  reference_transform := None |}
  end.

(** Lines 1836-1847: the matrix for message [msg_idx], if any. *)
Definition message_transform (st : prepared) (msg_idx : nat)
    : outcome (option matrix) :=
  let scan_transform (r : option (matrix * matrix))
                     (k : matrix -> outcome (option matrix)) :=
    match r with
    | None => Returned None
    | Some (interp_positions, interp_orientations) =>
        p <- of_option IndexError (nth_error interp_positions msg_idx) ;;
        q <- of_option IndexError (nth_error interp_orientations msg_idx) ;;
        m <- create_transform_matrix p q None ;;
        k m
    end in
  match mode st with
  | mode_global =>
      r <- of_option NameError (interp st) ;;
      scan_transform r (fun m => Returned (Some m))
  | mode_local =>
      r <- of_option NameError (interp st) ;;
      scan_transform r (fun msg_transform =>
        ref <- of_option TypeError (reference_transform st) ;;
        Returned (Some (matmul ref msg_transform)))
  | mode_none => Returned None
  end.

(** Lines 1833-1917 for one message: what it appends to [x_list],
    [y_list] and [z_list].  The validation of the first message
    ([validate_coordinate_systems]) only prints and is left out. *)
Definition process_message (st : prepared) (message_timestamps : list F)
    (msg_idx : nat) (points_in_message : list (F * F * F))
    : outcome (list F * list F * list F) :=
  _ <- of_option IndexError (nth_error message_timestamps msg_idx) ;;
  transform_matrix <- message_transform st msg_idx ;;
  let msg_points := map (fun '(x, y, z) => [x; y; z]) points_in_message in
  if Nat.ltb 0 (length msg_points) then
    msg_points <-
      match transform_matrix with
      | Some t =>
          a <- snd (apply_transform_to_points (np_array msg_points) (np_array t)) ;;
          Returned (rows a)
      | None => Returned msg_points
      end ;;
    Returned (map (fun r => nth 0 r f0) msg_points,
              map (fun r => nth 1 r f0) msg_points,
              map (fun r => nth 2 r f0) msg_points)
  else Returned ([], [], []).

(** Lines 1791-1917: the coordinates handed to the writer. *)
Definition transform_stage (transform_mode : transform_mode)
    (odom : option (list F * matrix * matrix))
    (message_timestamps : list F) (message_points_data : list (list (F * F * F)))
    : outcome (list F * list F * list F) :=
  st <- prepare_transformation transform_mode odom message_timestamps ;;
  fold_left (fun acc '(msg_idx, points_in_message) =>
    '(x_list, y_list, z_list) <- acc ;;
    '(xs, ys, zs) <- process_message st message_timestamps msg_idx points_in_message ;;
    Returned (x_list ++ xs, y_list ++ ys, z_list ++ zs))
    (combine (seq 0 (length message_points_data)) message_points_data)
    (Returned ([], [], [])).

(** The points of the three coordinate lists. *)
Definition points_of (l : list F * list F * list F) : list (F * F * F) :=
  let '(xs, ys, zs) := l in
  map (fun '(x, (y, z)) => (x, y, z)) (combine xs (combine ys zs)).
End Pipeline.
Arguments prepared F : clear implicits.

(** ** Elementary rotations

    The rotations about the three coordinate axes, as real matrices; the
    statement about the Euler angles of a sensor offset compares the
    program's rotation block with their products. *)

Definition rot_x (a : R) : matrix R :=
  [ [1; 0; 0]; [0; cos a; - sin a]; [0; sin a; cos a] ]%R.
Definition rot_y (a : R) : matrix R :=
  [ [cos a; 0; sin a]; [0; 1; 0]; [- sin a; 0; cos a] ]%R.
Definition rot_z (a : R) : matrix R :=
  [ [cos a; - sin a; 0]; [sin a; cos a; 0]; [0; 0; 1] ]%R.

(** ** Trajectory statistics *)

Section Trajectory.
Context {F : Type} `{Float64 F}.
Local Open Scope float_scope.
Local Abbreviation matrix := (matrix F).

(** [np.diff(positions, axis=0)]: every row minus the row before it. *)
Definition np_diff (positions : matrix) : matrix :=
  map (fun '(b, a) => vsub b a) (combine (tl positions) positions).

(** [calculate_total_distance(positions)], lines 389-394. *)
Definition calculate_total_distance (positions : matrix) : F :=
  if Nat.ltb (length positions) 2 then f_lit 0
  else
    let distances :=
      map (fun d => f_sqrt (vsum (map (fun a => a * a) d))) (np_diff positions) in
    vsum distances.

(** The dictionary [calculate_trajectory_metrics] returns. *)
Record trajectory_metrics : Type := {
  original_length : F;
  optimized_length : F;
  original_drift : F;
  optimized_drift : F;
  average_position_change : F;
  max_position_change : F;
  loop_closures_found : nat
}.

(** The local function [trajectory_length], lines 655-659. *)
Definition trajectory_length (poses : list (pose F)) : F :=
  fold_left (fun length i =>
    length + np_norm (vsub (pose_position (nth i poses pose_default))
                           (pose_position (nth (i - 1) poses pose_default))))
    (seq 1 (length poses - 1)) (f_lit 0).

(** [poses[-1]] of a Python list. *)
Definition last_pose (poses : list (pose F)) : outcome (pose F) :=
  of_option IndexError (nth_error poses (length poses - 1)).

(** [calculate_trajectory_metrics(self, original_poses, optimized_poses)],
    lines 644-685; [Returned None] is the empty dictionary. *)
Definition calculate_trajectory_metrics (self : SimpleSLAM F)
    (original_poses optimized_poses : list (pose F))
    : outcome (option trajectory_metrics) :=
  if negb (Nat.eqb (length original_poses) (length optimized_poses))
  then Returned None
  else
    let orig_length := trajectory_length original_poses in
    let opt_length := trajectory_length optimized_poses in
    '(orig_drift, opt_drift) <-
      (if Nat.ltb 0 (length (loop_closure_edges self)) then
         o_last <- last_pose original_poses ;;
         o_first <- of_option IndexError (nth_error original_poses 0) ;;
         p_last <- last_pose optimized_poses ;;
         p_first <- of_option IndexError (nth_error optimized_poses 0) ;;
         Returned (np_norm (vsub (pose_position o_last) (pose_position o_first)),
                   np_norm (vsub (pose_position p_last) (pose_position p_first)))
       else Returned (f_lit 0, f_lit 0)) ;;
    let pos_changes :=
      map (fun i =>
             np_norm (vsub (pose_position (nth i optimized_poses pose_default))
                           (pose_position (nth i original_poses pose_default))))
          (seq 0 (length original_poses)) in
    let average := np_mean pos_changes in
    maximum <- of_option ValueError (np_max pos_changes) ;;
    Returned (Some {| original_length := orig_length;
                      optimized_length := opt_length;
                      original_drift := orig_drift;
                      optimized_drift := opt_drift;
                      average_position_change := average;
                      max_position_change := maximum;
                      loop_closures_found := length (loop_closure_edges self) |}).

Variable np_random_choice : nat -> nat -> list nat.
Variable least_squares :
  (list F -> list F) -> list F -> nat -> outcome (OptimizeResult F).

(** [apply_slam_optimization], lines 687-747, with the metrics it
    returns as third component. *)
Definition apply_slam_optimization_metrics (odom_timestamps : list F)
    (odom_positions odom_orientations : matrix)
    (point_clouds : option (list (option matrix))) (enable_loop_closure : bool)
    : outcome (matrix * matrix * option trajectory_metrics) :=
  slam <- slam_graph np_random_choice odom_timestamps odom_positions
            odom_orientations point_clouds enable_loop_closure ;;
  original_poses <-
    mapM (fun i =>
            t <- of_option IndexError (nth_error odom_timestamps i) ;;
            p <- of_option IndexError (nth_error odom_positions i) ;;
            q <- of_option IndexError (nth_error odom_orientations i) ;;
            Returned (t, p, q))
         (seq 0 (length odom_timestamps)) ;;
  let '(slam, optimized_poses) := optimize_poses least_squares slam None in
  let opt_positions := map (@pose_position F) optimized_poses in
  let opt_orientations := map (@pose_quaternion F) optimized_poses in
  metrics <- calculate_trajectory_metrics slam original_poses optimized_poses ;;
  Returned (opt_positions, opt_orientations, metrics).
End Trajectory.
Arguments trajectory_metrics F : clear implicits.

(** ** Reading the messages and preparing the arrays for the writer *)

(** The choice of the fields to read, lines 1645-1663; [available_fields]
    lists the field names of the first message. *)
Definition possible_time_fields : list string :=
  ["gps_time"; "time"; "t"; "timestamp"; "time_stamp"; "stamp"]%string.

Definition contains (name : string) (fields : list string) : bool :=
  existsb (String.eqb name) fields.

Record field_plan : Type := {
  fields_to_extract : list string;
  has_intensity : bool;
  has_pointcloud_time : bool;
  pointcloud_time_field : option string;
  use_ros_time : bool;
  has_gps_time : bool
}.

Definition plan_fields (available_fields : list string) (has_header : bool)
    : field_plan :=
  let has_intensity := contains "intensity" available_fields in
  let pointcloud_time_field :=
    find (fun field_name => contains field_name available_fields)
         possible_time_fields in
  let has_pointcloud_time :=
    match pointcloud_time_field with Some _ => true | None => false end in
  let use_ros_time := negb has_pointcloud_time && has_header in
  {| fields_to_extract :=
       ["x"; "y"; "z"]%string
       ++ (if has_intensity then ["intensity"%string] else [])
       ++ (match pointcloud_time_field with Some f => [f] | None => [] end);
     has_intensity := has_intensity;
     has_pointcloud_time := has_pointcloud_time;
     pointcloud_time_field := pointcloud_time_field;
     use_ros_time := use_ros_time;
     has_gps_time := has_pointcloud_time || use_ros_time |}.

(** The indices at which the second pass reads intensity and time in a
    point, lines 1861-1871. *)
Definition intensity_index : nat := 3%nat.
Definition time_index (plan : field_plan) : nat :=
  if has_intensity plan then 4%nat else 3%nat.

(** The point format and what is stored with it, lines 2044-2051,
    2073-2088 and 2222. *)
Definition choose_point_format (has_gps_time has_intensity : bool) : nat :=
  if has_gps_time && has_intensity then 1%nat
  else if has_gps_time then 6%nat
  else if has_intensity then 0%nat
  else 0%nat.

Definition stores_intensity (has_gps_time has_intensity : bool) : bool :=
  has_intensity
  && existsb (Nat.eqb (choose_point_format has_gps_time has_intensity)) [1%nat].

Definition stores_gps_time (has_gps_time has_intensity : bool) : bool :=
  has_gps_time
  && existsb (Nat.eqb (choose_point_format has_gps_time has_intensity))
             [1%nat; 4%nat; 6%nat].

Section Writer.
Context {F : Type} `{Float64 F}.
Local Open Scope float_scope.

(** The first pass, lines 1703-1783: every message contributes its
    timestamp; its points are kept unless reading them raises. *)
Definition first_pass {P : Type} (messages : list (F * outcome (list P)))
    : list F * list (list P) :=
  fold_left (fun '(message_timestamps, message_points_data) '(message_time, read) =>
    let message_timestamps := message_timestamps ++ [message_time] in
    match read with
    | Returned points_in_message =>
        (message_timestamps, message_points_data ++ [points_in_message])
    | Raised _ => (message_timestamps, message_points_data)
    end) messages ([], []).

(** The arrays after the second pass. *)
Record point_arrays : Type := {
  x_array : list F;
  y_array : list F;
  z_array : list F;
  intensity_array : option (list F);
  gps_time_array : option (list F)
}.

(** [a[mask]] for a boolean mask. *)
Definition boolean_index {A : Type} (a : list A) (mask : list bool)
    : outcome (list A) :=
  if Nat.eqb (length a) (length mask)
  then Returned (map fst (filter snd (combine a mask)))
  else Raised IndexError.

Definition is_finite3 (p : F * F * F) : bool :=
  let '(x, y, z) := p in
  negb (f_isnan x || f_isnan y || f_isnan z || f_isinf x || f_isinf y || f_isinf z).

(** Lines 1977-2015, for three coordinate arrays of one length. *)
Definition filter_invalid (a : point_arrays) : outcome point_arrays :=
  let count p u := length (filter p u) in
  let nan_x := count f_isnan (x_array a) in
  let nan_y := count f_isnan (y_array a) in
  let nan_z := count f_isnan (z_array a) in
  let inf_x := count f_isinf (x_array a) in
  let inf_y := count f_isinf (y_array a) in
  let inf_z := count f_isinf (z_array a) in
  let valid_mask :=
    map (fun '(x, (y, z)) => is_finite3 (x, y, z))
        (combine (x_array a) (combine (y_array a) (z_array a))) in
  if Nat.ltb 0 (nan_x + nan_y + nan_z + inf_x + inf_y + inf_z) then
    x <- boolean_index (x_array a) valid_mask ;;
    y <- boolean_index (y_array a) valid_mask ;;
    z <- boolean_index (z_array a) valid_mask ;;
    intensity <-
      match intensity_array a with
      | Some i => i <- boolean_index i valid_mask ;; Returned (Some i)
      | None => Returned None
      end ;;
    gps_time <-
      match gps_time_array a with
      | Some t => t <- boolean_index t valid_mask ;; Returned (Some t)
      | None => Returned None
      end ;;
    Returned {| x_array := x; y_array := y; z_array := z;
                intensity_array := intensity; gps_time_array := gps_time |}
  else Returned a.

(** Lines 2201-2217: times that all exceed 100 are shifted to start at 0. *)
Definition normalize_gps_time (gps_time_array : list F) : list F :=
  if forallb (fun t => t =? f_lit 0) gps_time_array then gps_time_array
  else
    match np_max gps_time_array, np_min gps_time_array with
    | Some max_gps_time, Some min_gps_time =>
        if max_gps_time <? f_lit 1 then gps_time_array
        else if min_gps_time >? f_lit 100
        then map (fun t => t - min_gps_time) gps_time_array
        else gps_time_array
    | _, _ => gps_time_array
    end.
End Writer.
Arguments point_arrays F : clear implicits.

Section SequentialTime.
Context {F : Type} `{Float64 F}.
Local Open Scope float_scope.

(** [np.linspace(start, stop, num)] as NumPy computes it: the multiples of
    the step, shifted by [start], with the last sample set to [stop]. *)
Definition np_linspace (start stop : F) (num : nat) : list F :=
  let div := (num - 1)%nat in
  let delta := stop - start in
  let step := delta / f_of_nat div in
  let y :=
    map (fun i =>
           (if Nat.ltb 0 div then
              if step =? f0 then f_of_nat i / f_of_nat div * delta
              else f_of_nat i * step
            else f_of_nat i * delta) + start)
        (seq 0 num) in
  if Nat.ltb 1 num then firstn (num - 1) y ++ [stop] else y.

(** Lines 2099-2118, taken when the times are ROS header times:
    [messages] is [len(points_per_message)]. *)
Definition sequential_time (gps_time_array : list F) (messages : nat)
    : outcome (list F) :=
  max_time <- of_option ValueError (np_max gps_time_array) ;;
  min_time <- of_option ValueError (np_min gps_time_array) ;;
  let total_duration := max_time - min_time in
  if total_duration >? f0 then
    Returned (np_linspace min_time max_time (length gps_time_array))
  else
    base_time <- of_option IndexError (nth_error gps_time_array 0) ;;
    let duration := f_of_nat messages * f_lit (1 # 10) in
    Returned (np_linspace base_time (base_time + duration) (length gps_time_array)).

(** [np.all(np.diff(t) >= 0)], line 2131. *)
Definition monotonic_increasing (t : list F) : bool :=
  forallb (fun d => d >=? f0) (map2 f_sub (tl t) t).
End SequentialTime.

(** ** Euler angles of the [.pos] file *)

Section Euler.
Context {F : Type} `{Float64 F}.
Local Open Scope float_scope.

(** [np.arctan2], [np.arcsin] and the constant [np.pi] are not part of the
    numeric interface; they are parameters here. *)
Variable np_arctan2 : F -> F -> F.
Variable np_arcsin : F -> F.
Variable np_pi : F.

(** [np.copysign(a, s)]: the magnitude of [a] with the sign of [s]. *)
Definition np_copysign (a s : F) : F := if s <? f0 then - f_abs a else f_abs a.

(** [np.degrees]. *)
Definition np_degrees (a : F) : F := a * (f_lit 180 / np_pi).

(** The local function [quaternion_to_euler] of [create_pos_file], lines
    1279-1300: roll, pitch and yaw in degrees. *)
Definition quaternion_to_euler (q : list F) : outcome (list F) :=
  '(x, y, z, w) <- unpack4 q ;;
  let sinr_cosp := f2 * (w * x + y * z) in
  let cosr_cosp := f1 - f2 * (x * x + y * y) in
  let roll := np_arctan2 sinr_cosp cosr_cosp in
  let sinp := f2 * (w * y - z * x) in
  let pitch :=
    if f_abs sinp >=? f1 then np_copysign (np_pi / f2) sinp
    else np_arcsin sinp in
  let siny_cosp := f2 * (w * z + x * y) in
  let cosy_cosp := f1 - f2 * (y * y + z * z) in
  let yaw := np_arctan2 siny_cosp cosy_cosp in
  Returned (map np_degrees [roll; pitch; yaw]).
End Euler.

(** * Properties *)

(** ** Real arithmetic for the instance [R_Float64] *)

Open Scope R_scope.

(** Exposes the real operations behind the interface. *)
Ltac float_R :=
  unfold f0, f1, f2 in *;
  cbn [f_lit f_add f_sub f_mul f_div f_neg f_abs f_sqrt f_sin f_cos f_arccos
       f_exp f_lt f_le f_eq f_isnan f_isinf R_Float64] in *;
  cbv [Q2R Qnum Qden] in *.

(** Splits an equation between lists of known length into its entries. *)
Ltac list_eq :=
  repeat match goal with
  | |- (_ :: _) = (_ :: _) => f_equal
  end.

Lemma Rltb_true (x y : R) : x < y -> Rltb x y = true.
Proof. intros; unfold Rltb; destruct (Rlt_dec x y); [reflexivity | contradiction]. Qed.

Lemma Rltb_false (x y : R) : ~ x < y -> Rltb x y = false.
Proof. intros; unfold Rltb; destruct (Rlt_dec x y); [contradiction | reflexivity]. Qed.

Lemma Rleb_true (x y : R) : x <= y -> Rleb x y = true.
Proof. intros; unfold Rleb; destruct (Rle_dec x y); [reflexivity | contradiction]. Qed.

Lemma Rleb_false (x y : R) : ~ x <= y -> Rleb x y = false.
Proof. intros; unfold Rleb; destruct (Rle_dec x y); [contradiction | reflexivity]. Qed.

Lemma Reqb_true (x y : R) : x = y -> Reqb x y = true.
Proof. intros; unfold Reqb; destruct (Req_dec_T x y); [reflexivity | contradiction]. Qed.

Lemma Reqb_false (x y : R) : x <> y -> Reqb x y = false.
Proof. intros; unfold Reqb; destruct (Req_dec_T x y); [contradiction | reflexivity]. Qed.

Definition sumsq (x y z w : R) : R := x*x + y*y + z*z + w*w.

Lemma np_norm4 (x y z w : R) : np_norm [x; y; z; w] = sqrt (sumsq x y z w).
Proof.
  unfold np_norm, vsum, sumsq. cbn [map fold_left]. float_R. f_equal. lra.
Qed.

Lemma np_dot4 (a b c d e f g h : R) :
  np_dot [a; b; c; d] [e; f; g; h] = a*e + b*f + c*g + d*h.
Proof. unfold np_dot, vsum. cbn [map2 fold_left]. float_R. lra. Qed.

Lemma sumsq_pos (x y z w : R) :
  [x; y; z; w] <> [0; 0; 0; 0] -> 0 < sumsq x y z w.
Proof.
  intros Hq. unfold sumsq.
  destruct (Req_dec x 0) as [->|Hx]; [|nra].
  destruct (Req_dec y 0) as [->|Hy]; [|nra].
  destruct (Req_dec z 0) as [->|Hz]; [|nra].
  destruct (Req_dec w 0) as [->|Hw]; [|nra].
  now elim Hq.
Qed.

Lemma norm_pos (x y z w : R) :
  [x; y; z; w] <> [0; 0; 0; 0] -> 0 < np_norm [x; y; z; w].
Proof. intros Hq. rewrite np_norm4. apply sqrt_lt_R0, sumsq_pos, Hq. Qed.

Lemma sumsq_normalized (x y z w : R) :
  [x; y; z; w] <> [0; 0; 0; 0] ->
  let n := np_norm [x; y; z; w] in sumsq (x/n) (y/n) (z/n) (w/n) = 1.
Proof.
  intros Hq n. pose proof (norm_pos Hq) as Hn. fold n in Hn.
  assert (Hnn : n * n = sumsq x y z w).
  { unfold n. rewrite np_norm4. apply sqrt_sqrt. left. now apply sumsq_pos. }
  unfold sumsq in *. field_simplify_eq; [|lra]. nra.
Qed.

Lemma np_norm_unit (a b c d : R) : sumsq a b c d = 1 -> np_norm [a; b; c; d] = 1.
Proof. intros U. rewrite np_norm4, U. apply sqrt_1. Qed.

Lemma sumsq_opp (a b c d : R) : sumsq (-a) (-b) (-c) (-d) = sumsq a b c d.
Proof. unfold sumsq. ring. Qed.

(** The sign of the dot product survives the two normalisations. *)
Lemma dot_sign (x1 y1 z1 w1 x2 y2 z2 w2 n1 n2 : R) :
  0 < n1 -> 0 < n2 ->
  Rltb (x1/n1*(x2/n2) + y1/n1*(y2/n2) + z1/n1*(z2/n2) + w1/n1*(w2/n2)) (0 * / 1)
  = Rltb (x1*x2 + y1*y2 + z1*z2 + w1*w2) (0 * / 1).
Proof.
  intros P1 P2.
  replace (x1/n1*(x2/n2) + y1/n1*(y2/n2) + z1/n1*(z2/n2) + w1/n1*(w2/n2))
    with ((x1*x2 + y1*y2 + z1*z2 + w1*w2) * / (n1 * n2)) by (field; lra).
  replace (0 * / 1) with 0 by lra.
  assert (0 < / (n1 * n2)) by (apply Rinv_0_lt_compat; nra).
  unfold Rltb.
  destruct (Rlt_dec _ 0) as [L|L], (Rlt_dec _ 0) as [L'|L'];
    try reflexivity; exfalso; nra.
Qed.

Lemma sin_acos_pos (d : R) : 0 <= d -> d <= 9995 * / 10000 -> 0 < sin (acos d).
Proof.
  intros H0 H1. rewrite sin_acos by lra. apply sqrt_lt_R0. unfold Rsqr. nra.
Qed.

(** ** SLERP endpoints *)

(** Normalises both inputs, names their components and leaves the two
    tests of [slerp_quaternions] to be decided. *)
Ltac slerp_prelude H1 H2 :=
  let U1 := fresh "U" in let U2 := fresh "U" in
  let P1 := fresh "P" in let P2 := fresh "P" in
  pose proof (sumsq_normalized H1) as U1; pose proof (sumsq_normalized H2) as U2;
  pose proof (norm_pos H1) as P1; pose proof (norm_pos H2) as P2;
  cbv zeta in U1, U2;
  unfold slerp_quaternions;
  cbn [vdiv map]; rewrite !np_dot4;
  cbv [DOT_THRESHOLD] in *; float_R;
  match type of H1 with [?x1; ?y1; ?z1; ?w1] <> _ =>
    match type of H2 with [?x2; ?y2; ?z2; ?w2] <> _ =>
      try rewrite <- (dot_sign x1 y1 z1 w1 x2 y2 z2 w2 P1 P2)
    end
  end;
  repeat match goal with
  | |- context [?x / np_norm ?q] =>
      let a := fresh "a" in set (a := x / np_norm q) in *; clearbody a
  end;
  clear P1 P2.

Lemma slerp_at_0 (x1 y1 z1 w1 x2 y2 z2 w2 : R) :
  [x1; y1; z1; w1] <> [0; 0; 0; 0] -> [x2; y2; z2; w2] <> [0; 0; 0; 0] ->
  slerp_quaternions [x1; y1; z1; w1] [x2; y2; z2; w2] 0
  = vdiv [x1; y1; z1; w1] (np_norm [x1; y1; z1; w1]).
Proof.
  intros H1 H2. slerp_prelude H1 H2.
  assert (L0 : forall a c : R, a + 0 * c = a) by (intros; ring).
  unfold Rltb; destruct (Rlt_dec _ (0 * / 1));
  match goal with |- context [Rlt_dec ?t ?d] => destruct (Rlt_dec t d) end;
  cbn [vadd vsub vscale vneg vdiv map map2]; float_R.
  1,3: rewrite !L0, (np_norm_unit U); unfold Rdiv;
       rewrite Rinv_1, !Rmult_1_r; reflexivity.
  all: rewrite Rmult_0_r, sin_0, cos_0; list_eq; unfold Rdiv; ring.
Qed.

Lemma slerp_at_1 (x1 y1 z1 w1 x2 y2 z2 w2 : R) :
  [x1; y1; z1; w1] <> [0; 0; 0; 0] -> [x2; y2; z2; w2] <> [0; 0; 0; 0] ->
  slerp_quaternions [x1; y1; z1; w1] [x2; y2; z2; w2] 1
  = if f_lt (np_dot [x1; y1; z1; w1] [x2; y2; z2; w2]) f0
    then vneg (vdiv [x2; y2; z2; w2] (np_norm [x2; y2; z2; w2]))
    else vdiv [x2; y2; z2; w2] (np_norm [x2; y2; z2; w2]).
Proof.
  intros H1 H2. slerp_prelude H1 H2.
  assert (L1 : forall a c : R, a + 1 * (c - a) = c) by (intros; ring).
  unfold Rltb; destruct (Rlt_dec _ (0 * / 1)) as [E0|E0];
  match goal with
  | |- context [Rlt_dec ?t ?d] => destruct (Rlt_dec t d) as [E1|E1]
  end;
  cbn [vadd vsub vscale vneg vdiv map map2]; float_R.
  1,3: rewrite !L1;
       try rewrite (np_norm_unit (eq_trans (sumsq_opp _ _ _ _) U0));
       try rewrite (np_norm_unit U0);
       unfold Rdiv; rewrite Rinv_1, !Rmult_1_r; reflexivity.
  all: match goal with
       | |- context [Rabs ?d] =>
           assert (D0 : 0 <= d) by lra;
           assert (D1 : d <= 9995 * / 10000) by lra;
           rewrite (Rabs_pos_eq d D0), Rmult_1_r, (cos_acos d) by lra;
           pose proof (sin_acos_pos D0 D1) as S;
           set (s := sin (acos d)) in *; clearbody s
       end; list_eq; field; lra.
Qed.

(** C7.  Over the reals, for nonzero quaternions [q1] and [q2]:
    [slerp(q1, q2, 0)] is [q1 / |q1|], and [slerp(q1, q2, 1)] is [q2 / |q2|],
    negated exactly when [dot(q1, q2) < 0].  The statement covers the
    near-parallel branch and the closed-form branch alike. *)
Theorem slerp_endpoints (x1 y1 z1 w1 x2 y2 z2 w2 : R) :
  let q1 := [x1; y1; z1; w1] in
  let q2 := [x2; y2; z2; w2] in
  q1 <> [0; 0; 0; 0] -> q2 <> [0; 0; 0; 0] ->
  slerp_quaternions q1 q2 0 = vdiv q1 (np_norm q1) /\
  slerp_quaternions q1 q2 1
  = if Rlt_dec (np_dot q1 q2) 0
    then vneg (vdiv q2 (np_norm q2)) else vdiv q2 (np_norm q2).
Proof.
  intros q1 q2 H1 H2. split.
  - apply slerp_at_0; assumption.
  - unfold q1, q2. rewrite slerp_at_1 by assumption. float_R. unfold Rltb.
    replace (0 * / 1) with 0 by lra.
    destruct (Rlt_dec _ 0); reflexivity.
Qed.

Lemma slerp_endpoints_witness :
  slerp_quaternions [0; 0; 0; 2] [0; 3; 0; 0] 0 = vdiv [0; 0; 0; 2] (np_norm [0; 0; 0; 2]) /\
  slerp_quaternions [0; 0; 0; 2] [0; 3; 0; 0] 1
  = if Rlt_dec (np_dot [0; 0; 0; 2] [0; 3; 0; 0]) 0
    then vneg (vdiv [0; 3; 0; 0] (np_norm [0; 3; 0; 0]))
    else vdiv [0; 3; 0; 0] (np_norm [0; 3; 0; 0]).
Proof.
  apply (@slerp_endpoints 0 0 0 2 0 3 0 0); intros E; inversion E; lra.
Defined.

(** ** Rigid transform builder *)

Ltac matrix_eval :=
  cbv [matmul matvec transpose np_dot vsum map2 map fold_left hd tl length
       homogeneous firstn skipn nth app np_eye seq Nat.eqb
       rot_x rot_y rot_z R_lidar_of].

(** The rotation block the program builds from [(rx, ry, rz)] is the
    product [Rx(rx) Ry(ry) Rz(rz)]. *)
Lemma R_lidar_of_xyz (rx ry rz : R) :
  R_lidar_of rx ry rz = matmul (rot_x rx) (matmul (rot_y ry) (rot_z rz)).
Proof. matrix_eval. float_R. list_eq; field. Qed.

Lemma quaternion_to_rotation_matrix_shape (q : R * R * R * R) :
  exists a b c d e f g h i,
    quaternion_to_rotation_matrix q = [ [a; b; c]; [d; e; f]; [g; h; i] ].
Proof.
  destruct q as [[[x y] z] w]. unfold quaternion_to_rotation_matrix.
  destruct (f_lt _ _); repeat eexists.
Qed.

Lemma quaternion_to_rotation_matrix_identity :
  quaternion_to_rotation_matrix (0, 0, 0, 1) = [ [1; 0; 0]; [0; 1; 0]; [0; 0; 1] ].
Proof.
  unfold quaternion_to_rotation_matrix. float_R.
  replace (0 * 0 + 0 * 0 + 0 * 0 + 1 * 1) with 1 by lra. rewrite sqrt_1.
  unfold Rltb. destruct (Rlt_dec _ 1) as [_|N]; [|exfalso; lra].
  list_eq; field.
Qed.

Lemma create_transform_matrix_offset6
    (px py pz x y z w tx ty tz rx ry rz : R) :
  create_transform_matrix [px; py; pz] [x; y; z; w] (Some [tx; ty; tz; rx; ry; rz])
  = Returned
      (matmul (homogeneous (quaternion_to_rotation_matrix (x, y, z, w)) (px, py, pz))
              (homogeneous (matmul (rot_x rx) (matmul (rot_y ry) (rot_z rz)))
                           (tx, ty, tz))).
Proof. rewrite <- R_lidar_of_xyz. reflexivity. Qed.

Lemma matmul_eye_r (r : matrix R) (t : R * R * R) :
  (exists a b c d e f g h i, r = [ [a; b; c]; [d; e; f]; [g; h; i] ]) ->
  matmul (homogeneous r t) (np_eye 4) = homogeneous r t.
Proof.
  intros (a & b & c & d & e & f & g & h & i & ->). destruct t as [[tx ty] tz].
  matrix_eval. float_R. list_eq; field.
Qed.

(** C1, as the program has it.  Over the reals, for every position,
    quaternion and six-element offset [(tx, ty, tz, rx, ry, rz)],
    [create_transform_matrix] returns [T_pose] multiplied on the right by
    the offset transform whose translation is [(tx, ty, tz)] and whose
    rotation block is [Rx(rx) Ry(ry) Rz(rz)]: the rotation about z acts
    first on a point, the one about x last.  Without an offset it returns
    [T_pose], which is [T_pose] times the identity. *)
Theorem create_transform_matrix_composition
    (px py pz x y z w tx ty tz rx ry rz : R) :
  let T_pose :=
    homogeneous (quaternion_to_rotation_matrix (x, y, z, w)) (px, py, pz) in
  let T_offset :=
    homogeneous (matmul (rot_x rx) (matmul (rot_y ry) (rot_z rz))) (tx, ty, tz) in
  create_transform_matrix [px; py; pz] [x; y; z; w] (Some [tx; ty; tz; rx; ry; rz])
    = Returned (matmul T_pose T_offset) /\
  create_transform_matrix [px; py; pz] [x; y; z; w] None = Returned T_pose /\
  matmul T_pose (np_eye 4) = T_pose.
Proof.
  intros T_pose T_offset. split; [|split].
  - apply create_transform_matrix_offset6.
  - reflexivity.
  - apply matmul_eye_r, quaternion_to_rotation_matrix_shape.
Qed.

(** C1 as stated fails: with [rx = ry = pi/2] and [rz = 0] on the identity
    pose, the matrix returned is not [T_pose] times the offset transform
    with rotation block [Rz(rz) Ry(ry) Rx(rx)]; the two differ in row 0,
    column 1. *)
Lemma create_transform_matrix_not_zyx :
  create_transform_matrix [0; 0; 0] [0; 0; 0; 1] (Some [0; 0; 0; PI/2; PI/2; 0])
  <> Returned
       (matmul (homogeneous (quaternion_to_rotation_matrix (0, 0, 0, 1)) (0, 0, 0))
               (homogeneous (matmul (rot_z 0) (matmul (rot_y (PI/2)) (rot_x (PI/2))))
                            (0, 0, 0))).
Proof.
  rewrite create_transform_matrix_offset6, quaternion_to_rotation_matrix_identity.
  intros E.
  apply (f_equal (fun o => match o with
                           | Returned m => nth 1 (nth 0 m []) 0
                           | Raised _ => 0
                           end)) in E.
  revert E. matrix_eval. float_R. rewrite sin_PI2, cos_PI2, sin_0, cos_0. lra.
Qed.

(** ** [apply_transform_to_points] *)

Section ApplyTransform.
Context {F : Type} `{Float64 F}.

Lemma transform_points_length (points t : matrix F) :
  length (transform_points points t) = length points.
Proof. unfold transform_points. apply length_map. Qed.

(** On rows of three coordinates the product is the one of the
    homogeneous point [(x, y, z, 1)]. *)
Lemma transform_points_rows (points t : matrix F) :
  Forall (fun r => length r = 3%nat) points ->
  transform_points points t
  = map (fun p => firstn 3 (matvec t (p ++ [f1]))) points.
Proof.
  intros Hrows. unfold transform_points. apply map_ext_in.
  intros p Hp. rewrite Forall_forall in Hrows. specialize (Hrows p Hp).
  rewrite (@firstn_all2 _ 3 p) by lia. reflexivity.
Qed.

(** What the two checks of lines 165-168 and 182-185 print: the
    determinant warning exactly when the determinant of the rotation
    block is further than [1e-3] from 1, the other one exactly when a
    coordinate of the result is NaN or infinite. *)
Lemma apply_transform_warnings (points transform_matrix : ndarray2 F) :
  snd (shape points) = 3%nat -> shape transform_matrix = (4, 4)%nat ->
  let d := det 3 (map (firstn 3) (firstn 3 (rows transform_matrix))) in
  let out := transform_points (rows points) (rows transform_matrix) in
  forall w, In w (fst (apply_transform_to_points points transform_matrix)) <->
    (w = DeterminantWarning d /\
     f_lt (f_lit (1 # 1000)) (f_abs (f_sub d f1)) = true) \/
    (w = NonFiniteWarning (count_if f_isnan out) (count_if f_isinf out) /\
     exists v, In v (concat out) /\ (f_isnan v = true \/ f_isinf v = true)).
Proof.
  intros Hp Ht d out w. unfold apply_transform_to_points.
  rewrite Hp, Ht. cbn [Nat.eqb negb andb fst snd].
  fold d. fold out. rewrite in_app_iff.
  assert (Hany : existsb f_isnan (concat out) || existsb f_isinf (concat out) = true
                 <-> exists v, In v (concat out) /\
                               (f_isnan v = true \/ f_isinf v = true)).
  { rewrite orb_true_iff, !existsb_exists. split.
    - intros [(v & Hv & E)|(v & Hv & E)]; exists v; auto.
    - intros (v & Hv & [E|E]); [left | right]; exists v; auto. }
  assert (A : forall (b : bool) (x : @warning F),
             In w (if b then [x] else []) <-> w = x /\ b = true).
  { intros [|] x; cbn [In]; split.
    - intros [<-|[]]. split; reflexivity.
    - intros [-> _]. now left.
    - intros [].
    - intros [_ E]. discriminate E. }
  rewrite !A, Hany. reflexivity.
Qed.

Lemma apply_transform_warnings_NoDup (points transform_matrix : ndarray2 F) :
  NoDup (fst (apply_transform_to_points points transform_matrix)).
Proof.
  unfold apply_transform_to_points.
  destruct (negb _); [constructor|]. destruct (negb _); [constructor|].
  cbn [fst]. destruct (f_lt _ _); destruct (_ || _); cbn [app];
    repeat (constructor; [cbn [In]; intros [E|[]]; discriminate E|]);
    repeat (constructor; [intros []|]); constructor.
Qed.

(** C8.  For every implementation of the float interface:
    [apply_transform_to_points] raises [ValueError] exactly when the
    points do not have three columns or the matrix is not 4x4, and then
    prints nothing; on every other input it returns the N x 3 array of
    the homogeneous products, whatever the determinant of the rotation
    block is and whether or not the products contain NaN or infinite
    values.  Those conditions only decide what is printed: the
    determinant warning exactly when the determinant of the upper left
    3x3 block is further than [1e-3] from 1, the warning with the counts
    of NaN and infinite values exactly when the result has such a value,
    and each at most once. *)
Theorem apply_transform_to_points_spec (points transform_matrix : ndarray2 F) :
  well_shaped points ->
  let result := apply_transform_to_points points transform_matrix in
  (snd (shape points) <> 3%nat \/ shape transform_matrix <> (4, 4)%nat
     <-> snd result = Raised ValueError) /\
  (snd result = Raised ValueError -> fst result = []) /\
  (snd (shape points) = 3%nat -> shape transform_matrix = (4, 4)%nat ->
     let d := det 3 (map (firstn 3) (firstn 3 (rows transform_matrix))) in
     let out := map (fun p => firstn 3
                               (matvec (rows transform_matrix) (p ++ [f1])))
                    (rows points) in
     snd result
     = Returned {| shape := (length (rows points), 3%nat); rows := out |} /\
     NoDup (fst result) /\
     forall w, In w (fst result) <->
       (w = DeterminantWarning d /\
        f_lt (f_lit (1 # 1000)) (f_abs (f_sub d f1)) = true) \/
       (w = NonFiniteWarning (count_if f_isnan out) (count_if f_isinf out) /\
        exists v, In v (concat out) /\ (f_isnan v = true \/ f_isinf v = true))).
Proof.
  intros [Hlen Hrows] result.
  assert (Hshape : snd (shape points) = 3%nat -> shape transform_matrix = (4, 4)%nat ->
            snd result
            = Returned {| shape := (length (rows points), 3%nat);
                          rows := transform_points (rows points)
                                    (rows transform_matrix) |}).
  { intros Hp Ht. subst result. unfold apply_transform_to_points.
    rewrite Hp, Ht. cbn [Nat.eqb negb andb fst snd]. now rewrite Hlen. }
  split; [|split].
  - subst result. unfold apply_transform_to_points.
    destruct (shape points) as [n c] eqn:Ep.
    destruct (shape transform_matrix) as [r k] eqn:Et.
    cbn [fst snd] in *.
    destruct (Nat.eqb_spec c 3) as [->|Hc]; cbn [negb snd].
    + destruct (Nat.eqb_spec r 4) as [->|Hr];
        [destruct (Nat.eqb_spec k 4) as [->|Hk]|]; cbn [andb negb snd].
      * split; [intros [N|N]; congruence | discriminate].
      * split; [reflexivity | intros _; right; congruence].
      * split; [reflexivity | intros _; right; congruence].
    + split; [reflexivity | intros _; left; exact Hc].
  - subst result. unfold apply_transform_to_points.
    destruct (negb _); [reflexivity|]. destruct (negb _); [reflexivity|].
    discriminate.
  - intros Hp Ht d out.
    assert (Eout : transform_points (rows points) (rows transform_matrix) = out).
    { apply transform_points_rows. now rewrite <- Hp. }
    split; [|split].
    + rewrite Hshape by assumption. now rewrite Eout.
    + apply apply_transform_warnings_NoDup.
    + intros w. subst result.
      rewrite (apply_transform_warnings points transform_matrix Hp Ht w).
      now rewrite Eout.
Qed.
End ApplyTransform.

Lemma apply_transform_to_points_spec_witness :
  let points := np_array [ [1; 2; 3] ] in
  let t := np_array [ [2; 0; 0; 0]; [0; 2; 0; 0]; [0; 0; 2; 0]; [0; 0; 0; 1] ] in
  let d := det 3 (map (firstn 3) (firstn 3 (rows t))) in
  snd (apply_transform_to_points points t)
  = Returned {| shape := (1%nat, 3%nat);
                rows := map (fun p => firstn 3 (matvec (rows t) (p ++ [f1])))
                            (rows points) |} /\
  In (DeterminantWarning d) (fst (apply_transform_to_points points t)).
Proof.
  intros points t d.
  assert (W : well_shaped points).
  { split; [reflexivity | repeat constructor]. }
  destruct (proj2 (proj2 (apply_transform_to_points_spec t W)) eq_refl eq_refl)
    as (Hr & _ & Hw).
  split; [exact Hr|]. apply Hw. left. split; [reflexivity|].
  cbn. float_R. apply Rltb_true. rewrite Rabs_pos_eq; lra.
Defined.

(** ** Point-cloud similarity on missing or empty clouds *)

(** The cloud is [None] or has no point. *)
Definition no_points {F : Type} (pc : option (matrix F)) : Prop :=
  match pc with
  | None => True
  | Some m => length m = 0%nat
  end.

Lemma similarity_no_points {F : Type} `{Float64 F}
    (choice : nat -> nat -> list nat) (pc1 pc2 : option (matrix F)) :
  no_points pc1 \/ no_points pc2 ->
  _calculate_point_cloud_similarity choice pc1 pc2 = f_lit 0.
Proof.
  unfold _calculate_point_cloud_similarity, no_points.
  destruct pc1 as [m1|], pc2 as [m2|]; try reflexivity.
  intros [E|E]; rewrite E; cbn [Nat.eqb orb]; [reflexivity|].
  now rewrite orb_true_r.
Qed.

(** C10.  For every implementation of the float interface and every
    random selection, the similarity of two clouds one of which is [None]
    or empty is the literal [0.0]; the function has no raising path before
    that return.  Consequently, over the reals, a candidate pair with such
    a cloud gets confidence 0 and is never accepted as a loop closure. *)
Theorem similarity_of_missing_cloud :
  (forall (F : Type) (H : Float64 F) (choice : nat -> nat -> list nat)
          (pc1 pc2 : option (matrix F)),
      no_points pc1 \/ no_points pc2 ->
      _calculate_point_cloud_similarity choice pc1 pc2 = f_lit 0) /\
  (forall (choice : nat -> nat -> list nat) (self : SimpleSLAM R)
          (pcs : list (option (matrix R))) (i j : nat),
      (i < length pcs)%nat -> (j < length pcs)%nat ->
      no_points (nth i pcs None) \/ no_points (nth j pcs None) ->
      loop_closure_candidate choice self (Some pcs) i j = []).
Proof.
  split.
  - intros. now apply similarity_no_points.
  - intros choice self pcs i j Hi Hj Hno.
    unfold loop_closure_candidate.
    destruct (Nat.leb j i); [reflexivity|].
    destruct (f_lt _ (min_time_gap self)); [reflexivity|].
    apply Nat.ltb_lt in Hi, Hj. rewrite Hi, Hj. cbn [andb].
    rewrite similarity_no_points by assumption.
    float_R. rewrite Rltb_false; [reflexivity | lra].
Qed.

Lemma similarity_of_missing_cloud_witness :
  _calculate_point_cloud_similarity (fun _ _ => []) None (Some [ [1; 2; 3] ])
  = f_lit (F := R) 0.
Proof.
  apply (proj1 similarity_of_missing_cloud). left. exact I.
Defined.

(** ** Residuals of the pose graph *)

Section Residuals.
Context {F : Type} `{Float64 F}.
Local Open Scope nat_scope.

(** The residual vector in the words of the specification: the candidate
    pose [k] occupies the seven cells [7k .. 7k+6] of the parameter
    vector, position first. *)
Definition param (params : list F) (n : nat) : F := nth n params f0.

Definition candidate_position (params : list F) (k : nat) : list F :=
  [param params (7 * k); param params (7 * k + 1); param params (7 * k + 2)].

Definition candidate_quaternion_xyz (params : list F) (k : nat) : list F :=
  [param params (7 * k + 3); param params (7 * k + 4); param params (7 * k + 5)].

Definition original_position (self : SimpleSLAM F) (k : nat) : list F :=
  pose_position (nth k (poses self) pose_default).

Definition sequential_residual (self : SimpleSLAM F) (params : list F)
    (e : nat * nat) : list F :=
  let '(i, j) := e in
  vsub (vsub (candidate_position params j) (candidate_position params i))
       (vsub (original_position self j) (original_position self i))
  ++ vscale_r (vsub (candidate_quaternion_xyz params j)
                    (candidate_quaternion_xyz params i))
              (f_lit (1 # 10)).

Definition loop_closure_residual (params : list F) (e : nat * nat * F) : list F :=
  let '(i, j, confidence) := e in
  vscale_r (vsub (candidate_position params i) (candidate_position params j))
           confidence.

Definition residuals_spec (self : SimpleSLAM F) (params : list F) : list F :=
  flat_map (sequential_residual self params) (odometry_edges self)
  ++ flat_map (loop_closure_residual params) (loop_closure_edges self).

(** Every edge joins two poses of the graph. *)
Definition edges_in_range (self : SimpleSLAM F) : Prop :=
  Forall (fun e => fst e < length (poses self) /\ snd e < length (poses self))
         (odometry_edges self) /\
  Forall (fun e => fst (fst e) < length (poses self) /\
                   snd (fst e) < length (poses self))
         (loop_closure_edges self).

Lemma fold_left_append_if {A : Type} (g : A -> bool) (h : A -> list F)
    (l : list A) (init : list F) :
  Forall (fun e => g e = true) l ->
  fold_left (fun acc e => if g e then acc ++ h e else acc) l init
  = init ++ flat_map h l.
Proof.
  intros Hl. revert init. induction Hl as [|e l He _ IH]; intros init; cbn.
  - now rewrite app_nil_r.
  - rewrite He, IH. now rewrite app_assoc.
Qed.

Lemma fold_left_ext_in {A B : Type} (f g : B -> A -> B) (l : list A) (init : B) :
  (forall b a, In a l -> f b a = g b a) ->
  fold_left f l init = fold_left g l init.
Proof.
  revert init. induction l as [|a l IH]; intros init Hfg; cbn; [reflexivity|].
  rewrite Hfg by now left. apply IH. intros; apply Hfg; now right.
Qed.

Lemma slice3 (params : list F) (a : nat) :
  a + 3 <= length params ->
  slice params a (a + 3) = [param params a; param params (a + 1); param params (a + 2)].
Proof.
  intros Hlen. unfold slice, param.
  replace (a + 3 - a) with 3 by lia.
  rewrite <- (firstn_skipn a params) at 2 3 4.
  assert (La : length (firstn a params) = a) by (rewrite length_firstn; lia).
  rewrite !app_nth2 by lia. rewrite La.
  replace (a - a) with 0 by lia. replace (a + 1 - a) with 1 by lia.
  replace (a + 2 - a) with 2 by lia.
  assert (Ls : 3 <= length (skipn a params)) by (rewrite length_skipn; lia).
  destruct (skipn a params) as [|x [|y [|z r]]]; cbn in Ls; try lia.
  reflexivity.
Qed.

Lemma nth_candidate (n : nat) (params : list F) (k : nat) :
  k < n -> length params = 7 * n ->
  nth k (map (fun i => (slice params (i * 7) (i * 7 + 3),
                        slice params (i * 7 + 3) (i * 7 + 7))) (seq 0 n)) ([], [])
  = (candidate_position params k,
     candidate_quaternion_xyz params k ++ [param params (7 * k + 6)]).
Proof.
  intros Hk Hlen.
  set (f := fun i => (slice params (i * 7) (i * 7 + 3),
                      slice params (i * 7 + 3) (i * 7 + 7))).
  rewrite nth_indep with (d' := f 0)
    by (rewrite length_map, length_seq; lia).
  rewrite map_nth, seq_nth by lia. subst f. cbn [Nat.add].
  replace (k * 7) with (7 * k) by lia.
  rewrite slice3 by lia. f_equal.
  unfold slice, candidate_quaternion_xyz, param.
  replace (7 * k + 7 - (7 * k + 3)) with 4 by lia.
  rewrite <- (firstn_skipn (7 * k + 3) params) at 2 3 4 5.
  assert (La : length (firstn (7 * k + 3) params) = 7 * k + 3)
    by (rewrite length_firstn; lia).
  rewrite !app_nth2 by lia. rewrite La.
  replace (7 * k + 3 - (7 * k + 3)) with 0 by lia.
  replace (7 * k + 4 - (7 * k + 3)) with 1 by lia.
  replace (7 * k + 5 - (7 * k + 3)) with 2 by lia.
  replace (7 * k + 6 - (7 * k + 3)) with 3 by lia.
  assert (Ls : 4 <= length (skipn (7 * k + 3) params))
    by (rewrite length_skipn; lia).
  destruct (skipn (7 * k + 3) params) as [|x [|y [|z [|w r]]]]; cbn in Ls; try lia.
  reflexivity.
Qed.

Lemma pose_graph_residuals_in_range (self : SimpleSLAM F) (params : list F) :
  edges_in_range self ->
  length params = 7 * length (poses self) ->
  _pose_graph_residuals self params = residuals_spec self params.
Proof.
  intros [Hodo Hloop] Hlen. unfold _pose_graph_residuals, residuals_spec.
  set (n := length (poses self)) in *.
  set (cand := map _ (seq 0 n)).
  assert (Hc : length cand = n) by (unfold cand; now rewrite length_map, length_seq).
  rewrite Hc.
  rewrite (@fold_left_ext_in _ _ _
             (fun acc e => if Nat.ltb (fst (fst e)) n && Nat.ltb (snd (fst e)) n
                           then acc ++ loop_closure_residual params e else acc)).
  2:{ intros acc [[i j] c] Hin. cbn [fst snd].
      rewrite Forall_forall in Hloop. destruct (Hloop _ Hin) as [Hi Hj].
      cbn [fst snd] in Hi, Hj.
      destruct (Nat.ltb_spec i n), (Nat.ltb_spec j n); try lia. cbn [andb].
      unfold cand. now rewrite !nth_candidate by assumption. }
  rewrite fold_left_append_if.
  2:{ eapply Forall_impl; [|exact Hloop]. intros [[i j] c] [Hi Hj].
      cbn [fst snd] in *.
      destruct (Nat.ltb_spec i n), (Nat.ltb_spec j n); first [reflexivity | lia]. }
  f_equal.
  rewrite (@fold_left_ext_in _ _ _
             (fun acc e => if Nat.ltb (fst e) n && Nat.ltb (snd e) n
                           then acc ++ sequential_residual self params e else acc)).
  2:{ intros acc [i j] Hin. cbn [fst snd].
      rewrite Forall_forall in Hodo. destruct (Hodo _ Hin) as [Hi Hj].
      cbn [fst snd] in Hi, Hj.
      destruct (Nat.ltb_spec i n), (Nat.ltb_spec j n); try lia. cbn [andb].
      unfold cand. rewrite !nth_candidate by assumption. cbn [fst snd].
      rewrite <- app_assoc. reflexivity. }
  rewrite fold_left_append_if; [reflexivity|].
  eapply Forall_impl; [|exact Hodo]. intros [i j] [Hi Hj]. cbn [fst snd] in *.
  destruct (Nat.ltb_spec i n), (Nat.ltb_spec j n); first [reflexivity | lia].
Qed.

(** The states of a [SimpleSLAM] object: what the constructor, [add_pose]
    and [detect_loop_closures] build ([optimize_poses] changes nothing). *)
Variable choice : nat -> nat -> list nat.

Inductive built : SimpleSLAM F -> Prop :=
| built_init (d g : option F) : built (SimpleSLAM_init d g)
| built_add_pose (s : SimpleSLAM F) (t : F) (p q : list F) :
    built s -> built (fst (add_pose s t p q))
| built_detect (s : SimpleSLAM F) (pcs : option (list (option (matrix F)))) :
    built s -> built (fst (detect_loop_closures choice s pcs)).

Lemma detected_in_range (s : SimpleSLAM F)
    (pcs : option (list (option (matrix F)))) (e : nat * nat * F) :
  In e (snd (detect_loop_closures choice s pcs)) ->
  fst (fst e) < snd (fst e) /\ snd (fst e) < length (poses s).
Proof.
  unfold detect_loop_closures.
  destruct (Nat.ltb (length (poses s)) 3); cbn [snd]; [contradiction|].
  intros Hin. apply in_flat_map in Hin. destruct Hin as (i & _ & Hin).
  apply in_flat_map in Hin. destruct Hin as (j & Hj & Hin).
  unfold query_ball_point in Hj. apply filter_In in Hj. destruct Hj as [Hj _].
  apply in_seq in Hj. rewrite length_map in Hj.
  unfold loop_closure_candidate in Hin.
  destruct (Nat.leb_spec j i); [contradiction|].
  destruct (f_lt _ (min_time_gap s)); [contradiction|].
  destruct (f_lt _ _); [|contradiction].
  destruct Hin as [<-|[]]. cbn [fst snd]. lia.
Qed.

Lemma built_edges_in_range (s : SimpleSLAM F) : built s -> edges_in_range s.
Proof.
  induction 1 as [d g | s t p q _ [IHo IHl] | s pcs _ [IHo IHl]].
  - split; constructor.
  - unfold edges_in_range, add_pose. cbn [fst poses odometry_edges loop_closure_edges].
    rewrite length_app. cbn [length]. split.
    + destruct (Nat.ltb_spec 0 (length (poses s))).
      * apply Forall_app. split.
        -- eapply Forall_impl; [|exact IHo]. cbn. lia.
        -- constructor; [cbn; lia | constructor].
      * eapply Forall_impl; [|exact IHo]. cbn. lia.
    + eapply Forall_impl; [|exact IHl]. cbn. lia.
  - pose proof (@detected_in_range s pcs) as Hd. revert Hd.
    unfold edges_in_range, detect_loop_closures.
    destruct (Nat.ltb (length (poses s)) 3);
      cbn [fst snd poses odometry_edges loop_closure_edges]; intros Hd.
    + now split.
    + split; [exact IHo|]. apply Forall_forall. intros e He.
      specialize (Hd e He). lia.
Qed.

(** C2.  For every implementation of the float interface, every state of
    the pose graph and every parameter vector with seven cells per pose,
    the residual vector is, edge by edge: for a sequential edge [(i, j)],
    [(pos_j - pos_i) - (orig_pos_j - orig_pos_i)] followed by the
    difference of the x, y, z components of the quaternions of poses [j]
    and [i] times [0.1]; then, for a loop-closure edge [(i, j, c)],
    [(pos_i - pos_j)] times [c]. *)
Theorem pose_graph_residuals_spec (self : SimpleSLAM F) (params : list F) :
  built self ->
  length params = 7 * length (poses self) ->
  _pose_graph_residuals self params
  = flat_map (sequential_residual self params) (odometry_edges self)
    ++ flat_map (loop_closure_residual params) (loop_closure_edges self).
Proof.
  intros Hb Hlen.
  apply pose_graph_residuals_in_range; [now apply built_edges_in_range | exact Hlen].
Qed.
End Residuals.

Lemma pose_graph_residuals_spec_witness :
  let s0 := SimpleSLAM_init (F := R) None None in
  let s1 := fst (add_pose s0 0%R [0; 0; 0]%R [0; 0; 0; 1]%R) in
  let s2 := fst (add_pose s1 1%R [1; 0; 0]%R [0; 0; 0; 1]%R) in
  let params := [0; 0; 0; 0; 0; 0; 1; 2; 0; 0; 0; 0; 1; 0]%R in
  _pose_graph_residuals s2 params
  = flat_map (sequential_residual s2 params) (odometry_edges s2)
    ++ flat_map (loop_closure_residual params) (loop_closure_edges s2).
Proof.
  intros s0 s1 s2 params.
  apply (@pose_graph_residuals_spec R _ (fun _ _ => []) s2 params).
  - repeat constructor.
  - reflexivity.
Defined.


(** ** Configuration of the optimizer *)

Section Configuration.
Context {F : Type} `{Float64 F}.
Variable choice : nat -> nat -> list nat.
Local Open Scope nat_scope.

(** The two parameters of a graph. *)
Definition configuration (s : SimpleSLAM F) : F * F :=
  (loop_closure_distance s, min_time_gap s).

Lemma add_pose_configuration (s : SimpleSLAM F) (t : F) (p q : list F) :
  configuration (fst (add_pose s t p q)) = configuration s.
Proof. reflexivity. Qed.

Lemma detect_configuration (s : SimpleSLAM F)
    (pcs : option (list (option (matrix F)))) :
  configuration (fst (detect_loop_closures choice s pcs)) = configuration s.
Proof.
  unfold detect_loop_closures.
  destruct (Nat.ltb (length (poses s)) 3); reflexivity.
Qed.

(** The loop of lines 713-714, from any graph. *)
Definition add_step (ts : list F) (ps qs : matrix F)
    (acc : outcome (SimpleSLAM F)) (i : nat) : outcome (SimpleSLAM F) :=
  slam <- acc ;;
  t <- of_option IndexError (nth_error ts i) ;;
  p <- of_option IndexError (nth_error ps i) ;;
  q <- of_option IndexError (nth_error qs i) ;;
  Returned (fst (add_pose slam t p q)).

Definition add_all (ts : list F) (ps qs : matrix F)
    (idx : list nat) (acc : outcome (SimpleSLAM F)) : outcome (SimpleSLAM F) :=
  fold_left (add_step ts ps qs) idx acc.

Lemma slam_graph_add_all (ts : list F) (ps qs : matrix F)
    (pcs : option (list (option (matrix F)))) (flag : bool) :
  slam_graph choice ts ps qs pcs flag
  = (slam <- add_all ts ps qs (seq 0 (length ts))
               (Returned (SimpleSLAM_init (Some (f_lit 3)) (Some (f_lit 15)))) ;;
     Returned (if flag then fst (detect_loop_closures choice slam pcs) else slam)).
Proof. reflexivity. Qed.

Lemma add_all_raised (ts : list F) (ps qs : matrix F) (idx : list nat) (e : py_exn) :
  add_all ts ps qs idx (Raised e) = Raised e.
Proof. induction idx as [|i idx IH]; [reflexivity | exact IH]. Qed.

Lemma add_all_configuration (ts : list F) (ps qs : matrix F) (idx : list nat) :
  forall s0 s, add_all ts ps qs idx (Returned s0) = Returned s ->
               configuration s = configuration s0.
Proof.
  induction idx as [|i idx IH]; intros s0 s E.
  - now injection E as <-.
  - change (add_all ts ps qs idx (add_step ts ps qs (Returned s0) i) = Returned s) in E.
    unfold add_step in E. cbn [bind] in E.
    destruct (nth_error ts i) as [t|]; cbn [of_option bind] in E;
      [|rewrite add_all_raised in E; discriminate].
    destruct (nth_error ps i) as [p|]; cbn [of_option bind] in E;
      [|rewrite add_all_raised in E; discriminate].
    destruct (nth_error qs i) as [q|]; cbn [of_option bind] in E;
      [|rewrite add_all_raised in E; discriminate].
    apply IH in E. now rewrite E, add_pose_configuration.
Qed.

Lemma add_all_returns (ts : list F) (ps qs : matrix F) (idx : list nat) :
  Forall (fun i => i < length ts /\ i < length ps /\ i < length qs) idx ->
  forall s0, exists s, add_all ts ps qs idx (Returned s0) = Returned s.
Proof.
  induction 1 as [|i idx (Ht & Hp & Hq) _ IH]; intros s0.
  - now exists s0.
  - change (exists s, add_all ts ps qs idx (add_step ts ps qs (Returned s0) i)
                      = Returned s).
    unfold add_step. cbn [bind].
    apply nth_error_Some in Ht, Hp, Hq.
    destruct (nth_error ts i) as [t|]; [|congruence].
    destruct (nth_error ps i) as [p|]; [|congruence].
    destruct (nth_error qs i) as [q|]; [|congruence].
    cbn [of_option bind]. apply IH.
Qed.

Lemma slam_graph_configuration (ts : list F) (ps qs : matrix F)
    (pcs : option (list (option (matrix F)))) (flag : bool) (s : SimpleSLAM F) :
  slam_graph choice ts ps qs pcs flag = Returned s ->
  configuration s = (f_lit 3, f_lit 15).
Proof.
  rewrite slam_graph_add_all.
  destruct (add_all ts ps qs _ _) as [s1|e] eqn:E; cbn [bind]; [|discriminate].
  intros [= <-]. apply add_all_configuration in E.
  destruct flag; [rewrite detect_configuration|]; exact E.
Qed.

Lemma slam_graph_returns (ts : list F) (ps qs : matrix F)
    (pcs : option (list (option (matrix F)))) (flag : bool) :
  length ts <= length ps -> length ts <= length qs ->
  exists s, slam_graph choice ts ps qs pcs flag = Returned s.
Proof.
  intros Hp Hq. rewrite slam_graph_add_all.
  destruct (@add_all_returns ts ps qs (seq 0 (length ts))) with
    (s0 := SimpleSLAM_init (Some (f_lit 3)) (Some (f_lit 15))) as [s1 E].
  - apply Forall_forall. intros i Hi. apply in_seq in Hi. lia.
  - rewrite E. cbn [bind]. eauto.
Qed.
End Configuration.

(** C9, as the program has it.  A [SimpleSLAM] built without arguments has
    search radius [2.0] and minimum time gap [10.0]; the graph that
    [apply_slam_optimization] builds, the only one the converter uses, has
    radius [3.0] and time gap [15.0] (and is built whenever there are as
    many positions and orientations as timestamps). *)
Theorem slam_configuration_defaults :
  forall (F : Type) (H : Float64 F) (choice : nat -> nat -> list nat),
    configuration (SimpleSLAM_init (F := F) None None) = (f_lit 2, f_lit 10) /\
    (forall ts ps qs pcs flag (s : SimpleSLAM F),
        slam_graph choice ts ps qs pcs flag = Returned s ->
        configuration s = (f_lit 3, f_lit 15)) /\
    (forall ts (ps qs : matrix F) pcs flag,
        (length ts <= length ps)%nat -> (length ts <= length qs)%nat ->
        exists s, slam_graph choice ts ps qs pcs flag = Returned s).
Proof.
  intros F H choice. split; [reflexivity | split].
  - intros. eapply slam_graph_configuration; eassumption.
  - intros. now apply slam_graph_returns.
Qed.

Lemma slam_configuration_defaults_witness :
  exists s : SimpleSLAM R,
    slam_graph (fun _ _ => []) [0; 1] [ [0; 0; 0]; [1; 0; 0] ]
               [ [0; 0; 0; 1]; [0; 0; 0; 1] ] None true = Returned s /\
    configuration s = (f_lit 3, f_lit 15).
Proof.
  destruct (proj2 (proj2 (@slam_configuration_defaults R _ (fun _ _ => [])))
              [0; 1] [ [0; 0; 0]; [1; 0; 0] ] [ [0; 0; 0; 1]; [0; 0; 0; 1] ]
              None true (le_n 2) (le_n 2)) as [s E].
  exists s. split; [exact E|].
  exact (proj1 (proj2 (@slam_configuration_defaults R _ (fun _ _ => [])))
           _ _ _ _ _ _ E).
Defined.

(** C9 as stated fails for the constructor: its default radius is not
    [3.0] and its default time gap is not [15.0]. *)
Lemma slam_init_defaults_differ :
  loop_closure_distance (SimpleSLAM_init (F := R) None None) <> f_lit 3 /\
  min_time_gap (SimpleSLAM_init (F := R) None None) <> f_lit 15.
Proof.
  cbn [SimpleSLAM_init loop_closure_distance min_time_gap]. float_R.
  split; lra.
Qed.

(** ** Loop-closure detection *)

Section LoopClosures.
Variable choice : nat -> nat -> list nat.

Section Candidates.
Context {F : Type} `{Float64 F}.
Variable self : SimpleSLAM F.
Variable point_clouds : option (list (option (matrix F))).

Definition pose_at (k : nat) : pose F := nth k (poses self) pose_default.

(** The pairs the two loops of [detect_loop_closures] visit, and what
    each appends. *)
Lemma detect_loop_closures_In (e : nat * nat * F) :
  (3 <= length (poses self))%nat ->
  In e (snd (detect_loop_closures choice self point_clouds)) <->
  exists i j,
    (i < length (poses self))%nat /\ (j < length (poses self))%nat /\
    f_le (np_norm (vsub (pose_position (pose_at i)) (pose_position (pose_at j))))
         (loop_closure_distance self) = true /\
    In e (loop_closure_candidate choice self point_clouds i j).
Proof.
  intros Hn. unfold detect_loop_closures.
  destruct (Nat.ltb_spec (length (poses self)) 3); [lia|]. cbn [snd].
  rewrite in_flat_map. split.
  - intros (i & Hi & Hin). apply in_seq in Hi.
    apply in_flat_map in Hin. destruct Hin as (j & Hj & Hin).
    unfold query_ball_point in Hj. apply filter_In in Hj. destruct Hj as [Hj Hd].
    apply in_seq in Hj. rewrite length_map in Hj.
    change (@nil F) with (pose_position (@pose_default F _)) in Hd.
    rewrite map_nth in Hd.
    exists i, j. repeat split; try lia; assumption.
  - intros (i & j & Hi & Hj & Hd & Hin). exists i. split; [apply in_seq; lia|].
    apply in_flat_map. exists j. split; [|exact Hin].
    unfold query_ball_point. apply filter_In. split.
    + apply in_seq. rewrite length_map. lia.
    + change (@nil F) with (pose_position (@pose_default F _)).
      rewrite map_nth. exact Hd.
Qed.
Lemma NoDup_flat_map {A B : Type} (f : A -> list B) (l : list A) :
  NoDup l ->
  (forall a, In a l -> NoDup (f a)) ->
  (forall a b x, In a l -> In b l -> a <> b -> In x (f a) -> ~ In x (f b)) ->
  NoDup (flat_map f l).
Proof.
  induction 1 as [|a l Ha Hl IH]; intros Hf Hdis; cbn [flat_map]; [constructor|].
  apply NoDup_app.
  - apply Hf. now left.
  - apply IH.
    + intros b Hb. apply Hf. now right.
    + intros b c x Hb Hc. apply Hdis; now right.
  - intros x Hx Hx'. apply in_flat_map in Hx'. destruct Hx' as (b & Hb & Hx').
    apply (Hdis a b x); [now left | now right | | assumption | assumption].
    intros ->. contradiction.
Qed.

Lemma loop_closure_candidate_shape (i j : nat) (e : nat * nat * F) :
  In e (loop_closure_candidate choice self point_clouds i j) ->
  fst (fst e) = i /\ snd (fst e) = j.
Proof.
  unfold loop_closure_candidate.
  destruct (Nat.leb j i); [contradiction|].
  destruct (f_lt _ (min_time_gap self)); [contradiction|].
  destruct (f_lt _ _); [|contradiction].
  intros [<-|[]]. split; reflexivity.
Qed.

Lemma loop_closure_candidate_NoDup (i j : nat) :
  NoDup (loop_closure_candidate choice self point_clouds i j).
Proof.
  unfold loop_closure_candidate.
  destruct (Nat.leb j i); [constructor|].
  destruct (f_lt _ (min_time_gap self)); [constructor|].
  destruct (f_lt _ _); repeat constructor. intros [].
Qed.

(** No edge is returned twice. *)
Lemma detect_loop_closures_NoDup :
  NoDup (snd (detect_loop_closures choice self point_clouds)).
Proof.
  unfold detect_loop_closures.
  destruct (Nat.ltb (length (poses self)) 3); cbn [snd]; [constructor|].
  apply NoDup_flat_map.
  - apply seq_NoDup.
  - intros i _. apply NoDup_flat_map.
    + unfold query_ball_point. apply NoDup_filter, seq_NoDup.
    + intros j _. apply loop_closure_candidate_NoDup.
    + intros j j' e _ _ Hjj He He'.
      apply loop_closure_candidate_shape in He, He'. destruct He, He'. congruence.
  - intros i i' e _ _ Hii He He'.
    apply in_flat_map in He, He'.
    destruct He as (j & _ & He), He' as (j' & _ & He').
    apply loop_closure_candidate_shape in He, He'. destruct He, He'. congruence.
Qed.
End Candidates.

(** Over the reals: distance, time gap and confidence of a pair of poses
    in the words of the specification. *)
Definition distance (self : SimpleSLAM R) (i j : nat) : R :=
  np_norm (vsub (pose_position (pose_at self i)) (pose_position (pose_at self j))).

Definition time_gap (self : SimpleSLAM R) (i j : nat) : R :=
  Rabs (pose_time (pose_at self i) - pose_time (pose_at self j)).

Definition confidence (self : SimpleSLAM R)
    (point_clouds : option (list (option (matrix R)))) (i j : nat) : R :=
  let c := Rmax 0 (1 - distance self i j / loop_closure_distance self) in
  match point_clouds with
  | Some pcs =>
      if Nat.ltb i (length pcs) && Nat.ltb j (length pcs)
      then c * _calculate_point_cloud_similarity choice (nth i pcs None) (nth j pcs None)
      else c
  | None => c
  end.

Lemma py_max_Rmax (a b : R) : py_max a b = Rmax a b.
Proof.
  unfold py_max. float_R. unfold Rltb, Rmax.
  destruct (Rlt_dec a b), (Rle_dec a b); try reflexivity; lra.
Qed.

Lemma loop_closure_candidate_In (self : SimpleSLAM R)
    (pcs : option (list (option (matrix R)))) (i j : nat) (e : nat * nat * R) :
  In e (loop_closure_candidate choice self pcs i j) <->
  (i < j)%nat /\ time_gap self i j >= min_time_gap self /\
  confidence self pcs i j > 3 / 10 /\ e = (i, j, confidence self pcs i j).
Proof.
  unfold loop_closure_candidate.
  fold (pose_at self i). fold (pose_at self j).
  rewrite py_max_Rmax. float_R.
  replace (1 * / 1) with 1 by lra. replace (0 * / 1) with 0 by lra.
  fold (distance self i j). fold (time_gap self i j).
  set (c := match pcs with Some _ => _ | None => _ end).
  assert (Ec : c = confidence self pcs i j) by reflexivity.
  clearbody c. rewrite <- Ec.
  destruct (Nat.leb_spec j i) as [Hji|Hji].
  { split; [contradiction | lia]. }
  unfold Rltb.
  destruct (Rlt_dec (time_gap self i j) (min_time_gap self)) as [Hg|Hg].
  { split; [contradiction | lra]. }
  destruct (Rlt_dec (3 * / 10) c) as [Hc|Hc]; cbn [In].
  - split.
    + intros [<-|[]]. repeat split; try lra; assumption.
    + intros (_ & _ & _ & ->). now left.
  - split; [contradiction | lra].
Qed.

Lemma vsum_sub_self (p : list R) (a : R) :
  fold_left f_add (map (fun x => f_mul x x) (vsub p p)) a = a.
Proof.
  revert a. induction p as [|x p IH]; intros a; [reflexivity|].
  cbn [vsub map2 map fold_left]. change (map2 f_sub p p) with (vsub p p).
  rewrite IH. float_R. ring.
Qed.

Lemma distance_same_position (self : SimpleSLAM R) (i j : nat) :
  pose_position (pose_at self i) = pose_position (pose_at self j) ->
  distance self i j = 0.
Proof.
  intros E. unfold distance, np_norm, vsum. rewrite E, vsum_sub_self.
  float_R. replace (0 * / 1) with 0 by lra. apply sqrt_0.
Qed.

(** C3.  Over the reals, with at least three poses and a positive
    search radius [loop_closure_distance], [detect_loop_closures] returns,
    each once, exactly the edges [(i, j, c)] with [j > i], distance of the
    two positions at most [loop_closure_distance], time gap at least
    [min_time_gap] and [c > 0.3], where [c] is
    [max(0, 1 - distance/loop_closure_distance)], times the similarity
    score of the two clouds when the supplied list has a cloud for both
    poses.  Without point clouds, two poses at the same position then give
    the edge with confidence 1 when their time gap is at least
    [min_time_gap] and no edge when it is below.  With fewer than three
    poses the result is empty, for every radius.  The radius has to be
    positive because the confidence divides by it. *)
Theorem detect_loop_closures_spec (self : SimpleSLAM R)
    (point_clouds : option (list (option (matrix R)))) :
  let n := length (poses self) in
  let result := snd (detect_loop_closures choice self point_clouds) in
  ((n < 3)%nat -> result = []) /\
  NoDup result /\
  ((3 <= n)%nat -> 0 < loop_closure_distance self ->
   forall i j c,
     In (i, j, c) result <->
     (i < j < n)%nat /\
     distance self i j <= loop_closure_distance self /\
     time_gap self i j >= min_time_gap self /\
     c = confidence self point_clouds i j /\ c > 3 / 10) /\
  ((3 <= n)%nat -> 0 < loop_closure_distance self -> point_clouds = None ->
   forall i j,
     (i < j < n)%nat ->
     pose_position (pose_at self i) = pose_position (pose_at self j) ->
     (time_gap self i j >= min_time_gap self -> In (i, j, 1) result) /\
     (time_gap self i j < min_time_gap self -> forall c, ~ In (i, j, c) result)).
Proof.
  intros n result.
  assert (Hchar : (3 <= n)%nat -> forall i j c,
     In (i, j, c) result <->
     (i < j < n)%nat /\
     distance self i j <= loop_closure_distance self /\
     time_gap self i j >= min_time_gap self /\
     c = confidence self point_clouds i j /\ c > 3 / 10).
  { intros Hn i j c. unfold result. rewrite detect_loop_closures_In by exact Hn.
    split.
    - intros (i' & j' & Hi & Hj & Hd & Hin).
      apply loop_closure_candidate_In in Hin.
      destruct Hin as (Hij & Hg & Hc & [= -> -> ->]).
      float_R. unfold Rleb in Hd.
      destruct (Rle_dec _ _) as [Hd'|]; [|discriminate].
      repeat split; try assumption; lia.
    - intros (Hij & Hd & Hg & -> & Hc). exists i, j.
      repeat split; try lia.
      + float_R. now apply Rleb_true.
      + apply loop_closure_candidate_In. repeat split; try assumption; lia. }
  split; [|split; [|split]].
  - intros Hn. unfold result, detect_loop_closures.
    destruct (Nat.ltb_spec (length (poses self)) 3); [reflexivity | unfold n in Hn; lia].
  - apply detect_loop_closures_NoDup.
  - intros Hn _. exact (Hchar Hn).
  - intros Hn Hlcd -> i j Hij Hpos.
    pose proof (distance_same_position self i j Hpos) as Hd.
    assert (Hc : confidence self None i j = 1).
    { unfold confidence. rewrite Hd. unfold Rdiv. rewrite Rmult_0_l, Rminus_0_r.
      apply Rmax_right. lra. }
    split.
    + intros Hg. apply Hchar; [exact Hn|]. rewrite Hc, Hd.
      repeat split; try lra; lia.
    + intros Hg c Hin. apply Hchar in Hin; [|exact Hn]. lra.
Qed.
End LoopClosures.

Lemma detect_loop_closures_spec_witness :
  let s0 := SimpleSLAM_init (F := R) None None in
  let s1 := fst (add_pose s0 0 [0; 0; 0] [0; 0; 0; 1]) in
  let s2 := fst (add_pose s1 1 [5; 0; 0] [0; 0; 0; 1]) in
  let s3 := fst (add_pose s2 20 [0; 0; 0] [0; 0; 0; 1]) in
  In (0%nat, 2%nat, 1) (snd (detect_loop_closures (fun _ _ => []) s3 None)).
Proof.
  intros s0 s1 s2 s3.
  refine (proj1 (proj2 (proj2 (proj2
            (@detect_loop_closures_spec (fun _ _ => []) s3 None)))
                  _ _ eq_refl 0%nat 2%nat _ eq_refl) _).
  - cbn. lia.
  - cbn. float_R. lra.
  - cbn. lia.
  - unfold time_gap. cbn. float_R.
    rewrite Rabs_minus_sym, Rabs_pos_eq; lra.
Defined.

(** *** A search radius of zero *)

(** Exposes the operations of [X_Float64] behind the interface. *)
Ltac float_X :=
  unfold f0, f1, f2 in *;
  cbn [f_lit f_add f_sub f_mul f_div f_neg f_abs f_sqrt f_sin f_cos f_arccos
       f_exp f_lt f_le f_eq f_isnan f_isinf X_Float64] in *;
  cbv [Q2R Qnum Qden] in *.

Section ZeroRadius.
Variable choice : nat -> nat -> list nat.

(** A norm is NaN, infinite or a non-negative number. *)
Lemma x_sqrt_range (a : xfloat) :
  x_sqrt a = NaN \/ x_sqrt a = PosInf \/ exists r, x_sqrt a = Finite r /\ 0 <= r.
Proof.
  destruct a as [r| | |]; cbn [x_sqrt]; auto.
  destruct (Rltb r 0); auto. right. right. exists (sqrt r). split; [reflexivity|].
  apply sqrt_pos.
Qed.

(** [d / 0] is NaN for [d = 0] and infinite otherwise, and Python's
    [max(0, x)] keeps its first argument on both [x = nan] and
    [x = -inf]. *)
Lemma zero_radius_confidence (d : xfloat) :
  d = NaN \/ d = PosInf \/ (exists r, d = Finite r /\ 0 <= r) ->
  py_max (f_lit 0) (f_sub (f_lit 1) (f_div d (Finite 0))) = Finite (Q2R 0).
Proof.
  intros [->|[->|(r & -> & Hr)]]; unfold py_max; float_X.
  - reflexivity.
  - cbn [x_div is_positive]. rewrite Rleb_true by lra. reflexivity.
  - cbn [x_div]. rewrite Reqb_true by reflexivity.
    destruct (Reqb r 0) eqn:E; [reflexivity|].
    rewrite Rltb_true; [reflexivity|].
    unfold Reqb in E. destruct (Req_dec_T r 0); [discriminate | lra].
Qed.

Lemma zero_confidence_rejected (s : xfloat) :
  f_lt (f_lit (3 # 10)) (f_mul (Finite (Q2R 0)) s) = false.
Proof.
  destruct s as [r| | |]; float_X; cbn [x_mul x_lt is_zero orb].
  - apply Rltb_false. lra.
  - rewrite Reqb_true by lra. reflexivity.
  - rewrite Reqb_true by lra. reflexivity.
  - reflexivity.
Qed.

(** With a search radius of zero no pair of poses becomes an edge, with
    or without point clouds. *)
Lemma zero_radius_candidate (self : SimpleSLAM xfloat)
    (point_clouds : option (list (option (matrix xfloat)))) (i j : nat) :
  loop_closure_distance self = Finite 0 ->
  loop_closure_candidate choice self point_clouds i j = [].
Proof.
  intros Hr. unfold loop_closure_candidate.
  destruct (Nat.leb j i); [reflexivity|].
  destruct (f_lt _ (min_time_gap self)); [reflexivity|].
  rewrite Hr. unfold np_norm.
  rewrite zero_radius_confidence by apply x_sqrt_range.
  assert (E : f_lt (f_lit (3 # 10)) (Finite (Q2R 0)) = false).
  { float_X. apply Rltb_false. lra. }
  destruct point_clouds as [pcs|]; [|now rewrite E].
  destruct (_ && _); [|now rewrite E].
  now rewrite zero_confidence_rejected.
Qed.

Lemma flat_map_nil {A B : Type} (f : A -> list B) (l : list A) :
  (forall a, f a = []) -> flat_map f l = [].
Proof.
  intros Hf. induction l as [|a l IH]; [reflexivity|].
  cbn [flat_map]. now rewrite Hf, IH.
Qed.

Lemma zero_radius_no_loop_closure (self : SimpleSLAM xfloat)
    (point_clouds : option (list (option (matrix xfloat)))) :
  loop_closure_distance self = Finite 0 ->
  snd (detect_loop_closures choice self point_clouds) = [].
Proof.
  intros Hr. unfold detect_loop_closures.
  destruct (Nat.ltb _ 3); [reflexivity|]. cbn [snd].
  apply flat_map_nil. intros i. apply flat_map_nil. intros j.
  now apply zero_radius_candidate.
Qed.
End ZeroRadius.

(** C3 as stated fails for a search radius of zero.  The three poses
    below are at one position, 20 seconds apart, so every pair is within
    the radius and has a time gap above [min_time_gap]; the claim gives
    each pair an edge with confidence 1.  The program computes the
    confidence [max(0, 1 - 0/0)]: [0/0] is NaN, Python's [max] keeps the
    0, and no edge is returned. *)
Lemma detect_loop_closures_zero_radius :
  let z := Finite 0 in
  let s0 := SimpleSLAM_init (Some z) None in
  let s1 := fst (add_pose s0 (Finite 0) [z; z; z] [z; z; z; Finite 1]) in
  let s2 := fst (add_pose s1 (Finite 20) [z; z; z] [z; z; z; Finite 1]) in
  let s3 := fst (add_pose s2 (Finite 40) [z; z; z] [z; z; z; Finite 1]) in
  let result := snd (detect_loop_closures (fun _ _ => []) s3 None) in
  (3 <= length (poses s3))%nat /\
  pose_position (pose_at s3 0) = pose_position (pose_at s3 1) /\
  f_le (np_norm (vsub (pose_position (pose_at s3 0)) (pose_position (pose_at s3 1))))
       (loop_closure_distance s3) = true /\
  f_lt (f_abs (f_sub (pose_time (pose_at s3 0)) (pose_time (pose_at s3 1))))
       (min_time_gap s3) = false /\
  ~ In (0%nat, 1%nat, f_lit 1) result /\
  result = [].
Proof.
  intros z s0 s1 s2 s3 result.
  assert (E : result = []) by (now apply zero_radius_no_loop_closure).
  split; [cbn; lia|]. split; [reflexivity|]. split; [|split; [|split]].
  - cbn. float_X. cbn.
    replace (0 * / 1 + (0 - 0) * (0 - 0) + (0 - 0) * (0 - 0) + (0 - 0) * (0 - 0))
      with 0 by lra.
    rewrite Rltb_false by lra. rewrite sqrt_0. apply Rleb_true. lra.
  - cbn. float_X. cbn. apply Rltb_false.
    rewrite Rabs_minus_sym, Rabs_pos_eq; lra.
  - rewrite E. intros [].
  - exact E.
Qed.

(** ** Insufficient odometry: the sentinel and the fall-back *)

Section Sentinel.
Context {F : Type} `{Float64 F}.
Local Open Scope nat_scope.

Lemma np_min_In (u : list F) (m : F) : np_min u = Some m -> In m u.
Proof.
  destruct u as [|a u]; [discriminate|]. cbn [np_min]. intros [= <-].
  revert a. induction u as [|b u IH]; intros a; cbn [fold_left]; [now left|].
  destruct (f_lt b a).
  - right. apply IH.
  - destruct (IH a) as [E|Hin]; [left; exact E | right; right; exact Hin].
Qed.

Lemma np_max_In (u : list F) (m : F) : np_max u = Some m -> In m u.
Proof.
  destruct u as [|a u]; [discriminate|]. cbn [np_max]. intros [= <-].
  revert a. induction u as [|b u IH]; intros a; cbn [fold_left]; [now left|].
  destruct (f_lt a b).
  - right. apply IH.
  - destruct (IH a) as [E|Hin]; [left; exact E | right; right; exact Hin].
Qed.

Lemma np_min_nonempty (u : list F) : u <> [] -> exists m, np_min u = Some m.
Proof. destruct u; [congruence | cbn; eauto]. Qed.

Lemma np_max_nonempty (u : list F) : u <> [] -> exists m, np_max u = Some m.
Proof. destruct u; [congruence | cbn; eauto]. Qed.

Lemma interpolate_too_few (pc_ts odom_ts : list F) (ps qs : matrix F) :
  length odom_ts < 2 ->
  interpolate_odometry_data pc_ts odom_ts ps qs = Returned None.
Proof.
  intros Hn. unfold interpolate_odometry_data.
  destruct (Nat.ltb_spec (length odom_ts) 2); [reflexivity | lia].
Qed.

Lemma interpolate_returns (pc_ts odom_ts : list F) (ps qs : matrix F) :
  pc_ts <> [] ->
  exists r, interpolate_odometry_data pc_ts odom_ts ps qs = Returned r.
Proof.
  intros Hpc. unfold interpolate_odometry_data.
  destruct (Nat.ltb_spec (length odom_ts) 2) as [|Hn]; [eauto|].
  assert (Ho : odom_ts <> []) by (destruct odom_ts; cbn in Hn; [lia | congruence]).
  destruct (np_min_nonempty Ho) as [a ->], (np_max_nonempty Ho) as [b ->].
  destruct (np_min_nonempty Hpc) as [c ->], (np_max_nonempty Hpc) as [d ->].
  cbn [of_option bind]. destruct (f_le _ _); eauto.
Qed.

(** Without a transform every message contributes its own coordinates. *)
Definition raw_coordinates (data : list (list (F * F * F)))
    : list F * list F * list F :=
  (map (fun p => fst (fst p)) (concat data),
   map (fun p => snd (fst p)) (concat data),
   map (fun p => snd p) (concat data)).

Lemma process_message_none (st : prepared F) (mts : list F) (k : nat)
    (points : list (F * F * F)) :
  mode st = mode_none -> k < length mts ->
  process_message st mts k points
  = Returned (map (fun p => fst (fst p)) points,
              map (fun p => snd (fst p)) points,
              map (fun p => snd p) points).
Proof.
  intros Hm Hk. unfold process_message, message_transform. rewrite Hm.
  apply nth_error_Some in Hk.
  destruct (nth_error mts k); [|congruence]. cbn [of_option bind].
  rewrite length_map.
  destruct points as [|p points]; [reflexivity|].
  cbn [length Nat.ltb Nat.leb bind]. rewrite !map_map.
  f_equal. f_equal; [f_equal|]; apply map_ext; now intros [[x y] z].
Qed.

Lemma second_pass_none (st : prepared F) (mts : list F)
    (data : list (list (F * F * F))) :
  mode st = mode_none ->
  forall (k : nat) (xs ys zs : list F),
    k + length data <= length mts ->
    fold_left (fun acc '(msg_idx, points_in_message) =>
      '(x_list, y_list, z_list) <- acc ;;
      '(xs, ys, zs) <- process_message st mts msg_idx points_in_message ;;
      Returned (x_list ++ xs, y_list ++ ys, z_list ++ zs))
      (combine (seq k (length data)) data) (Returned (xs, ys, zs))
    = Returned (xs ++ map (fun p => fst (fst p)) (concat data),
                ys ++ map (fun p => snd (fst p)) (concat data),
                zs ++ map (fun p => snd p) (concat data)).
Proof.
  intros Hm. induction data as [|points data IH]; intros k xs ys zs Hk.
  - cbn. now rewrite !app_nil_r.
  - cbn [length seq combine fold_left bind].
    cbn [length] in Hk.
    rewrite process_message_none by (assumption || lia). cbn [bind].
    rewrite IH by lia. cbn [concat]. rewrite !map_app, !app_assoc. reflexivity.
Qed.

Lemma transform_stage_fallback (m : transform_mode) (ts : list F) (ps qs : matrix F)
    (mts : list F) (data : list (list (F * F * F))) :
  interpolate_odometry_data mts ts ps qs = Returned None ->
  length data <= length mts ->
  transform_stage m (Some (ts, ps, qs)) mts data = Returned (raw_coordinates data).
Proof.
  intros Hi Hlen. unfold transform_stage, prepare_transformation.
  destruct m; cbn [is_global_or_local]; try rewrite Hi; cbn [bind];
    now rewrite second_pass_none by (reflexivity || (cbn; lia)).
Qed.
End Sentinel.

(** Over the reals: the two time ranges are disjoint when one lies
    entirely before the other. *)
Lemma interpolate_no_overlap (pc_ts odom_ts : list R) (ps qs : matrix R) :
  pc_ts <> [] ->
  (forall a b, In a pc_ts -> In b odom_ts -> a < b) \/
  (forall a b, In a pc_ts -> In b odom_ts -> b < a) ->
  interpolate_odometry_data pc_ts odom_ts ps qs = Returned None.
Proof.
  intros Hpc Hdis. unfold interpolate_odometry_data.
  destruct (Nat.ltb_spec (length odom_ts) 2) as [|Hn]; [reflexivity|].
  assert (Ho : odom_ts <> []) by (destruct odom_ts; cbn in Hn; [lia | congruence]).
  destruct (np_min_nonempty Ho) as [a Ea], (np_max_nonempty Ho) as [b Eb].
  destruct (np_min_nonempty Hpc) as [c Ec], (np_max_nonempty Hpc) as [d Ed].
  rewrite Ea, Eb, Ec, Ed. cbn [of_option bind].
  apply np_min_In in Ea, Ec. apply np_max_In in Eb, Ed.
  assert (Hle : f_le (py_min b d) (py_max a c) = true).
  { unfold py_min, py_max. float_R. unfold Rltb. apply Rleb_true.
    destruct Hdis as [Hd|Hd].
    - pose proof (Hd c a Ec Ea). pose proof (Hd d b Ed Eb). pose proof (Hd d a Ed Ea).
      destruct (Rlt_dec d b), (Rlt_dec a c); lra.
    - pose proof (Hd c a Ec Ea). pose proof (Hd d b Ed Eb). pose proof (Hd c b Ec Eb).
      destruct (Rlt_dec d b), (Rlt_dec a c); lra. }
  now rewrite Hle.
Qed.

(** C5.  [interpolate_odometry_data] raises on no input that has at
    least one point-cloud timestamp (the converter stops earlier on a log
    without point-cloud messages, lines 1597-1599, so it always passes
    one).  With fewer than two odometry samples,
    for every implementation of the float interface, and, over the reals,
    when all point-cloud times lie before or all lie after the odometry
    times, it returns [(None, None)].  On that answer the transform stage
    of the converter continues in mode [none]: it returns the points as
    they were read, whatever mode was requested. *)
Theorem interpolation_sentinel_and_fallback :
  (forall (F : Type) (H : Float64 F) (pc_ts odom_ts : list F) (ps qs : matrix F),
      (length odom_ts < 2)%nat ->
      interpolate_odometry_data pc_ts odom_ts ps qs = Returned None) /\
  (forall (pc_ts odom_ts : list R) (ps qs : matrix R),
      pc_ts <> [] ->
      (forall a b, In a pc_ts -> In b odom_ts -> a < b) \/
      (forall a b, In a pc_ts -> In b odom_ts -> b < a) ->
      interpolate_odometry_data pc_ts odom_ts ps qs = Returned None) /\
  (forall (F : Type) (H : Float64 F) (pc_ts odom_ts : list F) (ps qs : matrix F),
      pc_ts <> [] ->
      exists r, interpolate_odometry_data pc_ts odom_ts ps qs = Returned r) /\
  (forall (F : Type) (H : Float64 F) (m : transform_mode)
          (odom_ts : list F) (ps qs : matrix F)
          (message_timestamps : list F) (data : list (list (F * F * F))),
      interpolate_odometry_data message_timestamps odom_ts ps qs = Returned None ->
      (length data <= length message_timestamps)%nat ->
      transform_stage m (Some (odom_ts, ps, qs)) message_timestamps data
      = Returned (raw_coordinates data) /\
      transform_stage m (Some (odom_ts, ps, qs)) message_timestamps data
      = transform_stage mode_none (Some (odom_ts, ps, qs)) message_timestamps data).
Proof.
  repeat split.
  - intros. now apply interpolate_too_few.
  - intros. now apply interpolate_no_overlap.
  - intros. now apply interpolate_returns.
  - now apply transform_stage_fallback.
  - rewrite !transform_stage_fallback by assumption. reflexivity.
Qed.

Lemma interpolation_sentinel_and_fallback_witness :
  let data := [ [(1, 2, 3)]; [(4, 5, 6)] ] in
  transform_stage mode_global (Some ([5], [ [0; 0; 0] ], [ [0; 0; 0; 1] ])) [0; 1] data
  = Returned (raw_coordinates data).
Proof.
  intros data.
  refine (proj1 (proj2 (proj2 (proj2 interpolation_sentinel_and_fallback))
                  R _ mode_global [5] _ _ [0; 1] data _ _)).
  - apply (proj1 interpolation_sentinel_and_fallback). cbn. lia.
  - cbn. lia.
Defined.

(** C5 as stated, for every input, fails on an empty array of
    point-cloud timestamps: its time range overlaps no other, yet with two
    odometry samples [np.min(pc_timestamps)] of line 261, which is outside
    the [try] of line 277, raises [ValueError]. *)
Lemma interpolation_raises_without_point_cloud_times :
  let pc_timestamps : list R := [] in
  let odom_timestamps := [0; 1] in
  let result :=
    interpolate_odometry_data pc_timestamps odom_timestamps
      [ [0; 0; 0]; [1; 0; 0] ] [ [0; 0; 0; 1]; [0; 0; 0; 1] ] in
  (forall a b, In a pc_timestamps -> In b odom_timestamps -> a < b) /\
  result = Raised ValueError /\
  result <> Returned None.
Proof.
  intros pc_timestamps odom_timestamps result.
  split; [intros a b []|]. split; [reflexivity | discriminate].
Qed.

(** ** Pose optimisation *)

Section Optimize.
Variable least_squares :
  (list R -> list R) -> list R -> nat -> outcome (OptimizeResult R).
Variable self : SimpleSLAM R.
Variable max_iterations : option nat.

(** The arguments [optimize_poses] passes to the solver. *)
Definition initial_params : list R :=
  flat_map (fun p => pose_position p ++ pose_quaternion p) (poses self).

Definition solver_call : outcome (OptimizeResult R) :=
  least_squares (_pose_graph_residuals self) initial_params
    ((match max_iterations with Some n => n | None => 50%nat end)
     * length initial_params).

(** The solver returned [result] and the report could be printed. *)
Definition solved (result : OptimizeResult R) : Prop :=
  solver_call = Returned result /\
  (res_success result = true -> res_fun result <> []).

(** The solver raised, or the report could not be printed. *)
Definition failed : Prop :=
  (exists e, solver_call = Raised e) \/
  (exists result, solver_call = Returned result /\
                  res_success result = true /\ res_fun result = []).

Definition optimized_pose (result : OptimizeResult R) (i : nat) : pose R :=
  let q := slice (res_x result) (i * 7 + 3) (i * 7 + 7) in
  (pose_time (nth i (poses self) pose_default),
   slice (res_x result) (i * 7) (i * 7 + 3),
   vdiv q (np_norm q)).

Lemma optimize_poses_state :
  fst (optimize_poses least_squares self max_iterations) = self.
Proof.
  unfold optimize_poses. destruct (Nat.ltb _ 2); reflexivity.
Qed.

Lemma optimize_poses_few :
  (length (poses self) < 2)%nat ->
  snd (optimize_poses least_squares self max_iterations) = poses self.
Proof.
  intros Hn. unfold optimize_poses.
  destruct (Nat.ltb_spec (length (poses self)) 2); [reflexivity | lia].
Qed.

Lemma optimize_poses_solved (result : OptimizeResult R) :
  (2 <= length (poses self))%nat -> solved result ->
  snd (optimize_poses least_squares self max_iterations)
  = map (optimized_pose result) (seq 0 (length (poses self))).
Proof.
  intros Hn [Hcall Hfun]. unfold optimize_poses.
  destruct (Nat.ltb_spec (length (poses self)) 2); [lia|]. cbn [snd].
  fold initial_params. unfold solver_call in Hcall. rewrite Hcall. cbn [bind].
  destruct (res_success result).
  - destruct (res_fun result) as [|r0 rs]; [now elim Hfun|]. reflexivity.
  - reflexivity.
Qed.

Lemma optimize_poses_failed :
  (2 <= length (poses self))%nat -> failed ->
  snd (optimize_poses least_squares self max_iterations) = poses self.
Proof.
  intros Hn Hf. unfold optimize_poses.
  destruct (Nat.ltb_spec (length (poses self)) 2); [lia|]. cbn [snd].
  fold initial_params. unfold failed, solver_call in Hf.
  destruct Hf as [[e ->] | (result & -> & Hs & Hfun)]; [reflexivity|].
  cbn [bind]. now rewrite Hs, Hfun.
Qed.

Lemma optimize_poses_cases :
  (2 <= length (poses self))%nat ->
  failed \/ exists result, solved result.
Proof.
  intros _. unfold failed, solved. destruct solver_call as [result|e] eqn:E.
  - destruct (res_success result) eqn:Es.
    + destruct (res_fun result) as [|r0 rs] eqn:Ef.
      * left. right. exists result. auto.
      * right. exists result. split; [reflexivity | rewrite Ef; discriminate].
    + right. exists result. split; [reflexivity | rewrite Es; discriminate].
  - left. left. eauto.
Qed.

Lemma map_nth_seq {A : Type} (l : list A) (d : A) :
  map (fun i => nth i l d) (seq 0 (length l)) = l.
Proof.
  induction l as [|a l IH] using rev_ind; [reflexivity|].
  rewrite length_app. cbn [length]. rewrite Nat.add_1_r, seq_S, map_app.
  cbn [map Nat.add]. rewrite app_nth2, Nat.sub_diag by lia. cbn [nth].
  f_equal. rewrite <- IH at 2. apply map_ext_in. intros i Hi. apply in_seq in Hi.
  apply app_nth1. lia.
Qed.

Lemma normalized_unit (q : list R) :
  length q = 4%nat -> q <> [0; 0; 0; 0] -> np_norm (vdiv q (np_norm q)) = 1.
Proof.
  intros Hlen Hq. destruct q as [|x [|y [|z [|w [|]]]]]; try discriminate.
  cbn [vdiv map]. apply np_norm_unit.
  pose proof (sumsq_normalized Hq) as U. exact U.
Qed.

(** C6, as the program has it.  Over the reals and for every behaviour of
    the least-squares solver: [optimize_poses] leaves the object as it
    was; with fewer than two poses it returns the stored poses; with two
    or more it returns as many poses as are stored, each with its original
    timestamp.  If the solver raises, these are the stored poses, not
    renormalised.  If it returns, every output quaternion is the solver's
    quaternion block divided by its norm, so it has norm 1 whenever the
    block has four components that are not all zero. *)
Theorem optimize_poses_spec :
  let out := optimize_poses least_squares self max_iterations in
  let n := length (poses self) in
  fst out = self /\
  ((n < 2)%nat -> snd out = poses self) /\
  ((2 <= n)%nat ->
   length (snd out) = n /\
   map (@pose_time R) (snd out) = map (@pose_time R) (poses self) /\
   (failed -> snd out = poses self) /\
   (forall result, solved result ->
      forall i, (i < n)%nat ->
        let q := slice (res_x result) (i * 7 + 3) (i * 7 + 7) in
        pose_quaternion (nth i (snd out) pose_default) = vdiv q (np_norm q) /\
        (length (res_x result) = (7 * n)%nat -> q <> [0; 0; 0; 0] ->
         np_norm (pose_quaternion (nth i (snd out) pose_default)) = 1))).
Proof.
  intros out n. subst out. split; [apply optimize_poses_state|].
  split; [apply optimize_poses_few|]. intros Hn.
  assert (Hsolved : forall result, solved result ->
            snd (optimize_poses least_squares self max_iterations)
            = map (optimized_pose result) (seq 0 n))
    by (intros; now apply optimize_poses_solved).
  assert (Hfailed : failed ->
            snd (optimize_poses least_squares self max_iterations) = poses self)
    by (intros; now apply optimize_poses_failed).
  destruct (optimize_poses_cases Hn) as [Hf | [result Hs]].
  - rewrite (Hfailed Hf).
    split; [reflexivity | split; [reflexivity | split; [reflexivity|]]].
    intros result Hs; exfalso;
    (destruct Hs as [Hc Hfun], Hf as [[e He] | (r & Hr & Hsu & Hfu)];
     [congruence|]; rewrite Hr in Hc; injection Hc as <-; now apply Hfun).
  - rewrite (Hsolved _ Hs). split; [|split; [|split]].
    + now rewrite length_map, length_seq.
    + transitivity (map (@pose_time R)
                      (map (fun i => nth i (poses self) pose_default) (seq 0 n))).
      * now rewrite !map_map.
      * unfold n. now rewrite map_nth_seq.
    + intros Hf. exfalso.
      destruct Hs as [Hc Hfun], Hf as [[e He] | (r & Hr & Hsu & Hfu)]; [congruence|].
      rewrite Hr in Hc. injection Hc as <-. now apply Hfun.
    + intros result' Hs' i Hi.
      assert (result' = result) as -> by (destruct Hs, Hs'; congruence).
      assert (E : nth i (map (optimized_pose result) (seq 0 n)) pose_default
                  = optimized_pose result i).
      { rewrite nth_indep with (d' := optimized_pose result 0)
          by (now rewrite length_map, length_seq).
        rewrite map_nth, seq_nth by exact Hi. reflexivity. }
      rewrite E. cbn [optimized_pose pose_quaternion snd]. split; [reflexivity|].
      intros Hlen Hq. apply normalized_unit; [|exact Hq].
      unfold slice. rewrite length_firstn, length_skipn. fold n in Hlen. lia.
Qed.
End Optimize.

(** A solver that is already at a minimum returns its starting point. *)
Definition stationary_solver (f : list R -> list R) (x0 : list R) (max_nfev : nat)
    : outcome (OptimizeResult R) :=
  Returned {| res_x := x0; res_fun := f x0; res_success := true |}.

Definition two_poses (q : list R) : SimpleSLAM R :=
  let s0 := SimpleSLAM_init None None in
  let s1 := fst (add_pose s0 0 [0; 0; 0] q) in
  fst (add_pose s1 1 [1; 0; 0] q).

Lemma two_poses_solved (a b c d : R) :
  let s := two_poses [a; b; c; d] in
  solved stationary_solver s None
    {| res_x := initial_params s;
       res_fun := _pose_graph_residuals s (initial_params s);
       res_success := true |}.
Proof. split; [reflexivity | discriminate]. Qed.

Lemma optimize_poses_spec_witness :
  np_norm (pose_quaternion
             (nth 0 (snd (optimize_poses stationary_solver (two_poses [0; 0; 0; 1]) None))
                  pose_default)) = 1.
Proof.
  refine (proj2 (proj2 (proj2 (proj2 (proj2 (proj2
            (@optimize_poses_spec stationary_solver (two_poses [0; 0; 0; 1]) None))
            (le_n 2)))) _ (two_poses_solved 0 0 0 1) 0%nat _) eq_refl _).
  - cbn. lia.
  - cbn. intros E. inversion E. lra.
Defined.

(** C6 as stated fails on quaternions that are all zero, as an odometry
    source that leaves the orientation unset produces them.  The residuals
    of the two poses below vanish at the starting point, so the solver
    returns it; the first output quaternion is [0/0] in every component
    (NaN in NumPy, 0 in the real model), and its norm is not 1. *)
Lemma optimize_poses_zero_quaternion :
  let s := two_poses [0; 0; 0; 0] in
  (2 <= length (poses s))%nat /\
  Forall (fun r => r = 0) (_pose_graph_residuals s (initial_params s)) /\
  np_norm (pose_quaternion
             (nth 0 (snd (optimize_poses stationary_solver s None)) pose_default)) <> 1.
Proof.
  intros s. split; [cbn; lia | split].
  - cbn. float_R. repeat constructor; lra.
  - unfold s.
    rewrite (@optimize_poses_solved stationary_solver (two_poses [0; 0; 0; 0]) None
               _ (le_n 2) (two_poses_solved 0 0 0 0)).
    cbn [two_poses add_pose SimpleSLAM_init fst poses length seq map nth app
         optimized_pose pose_quaternion snd initial_params flat_map pose_position
         res_x slice Nat.mul Nat.add Nat.sub skipn firstn vdiv].
    float_R. set (z := np_norm [0; 0; 0; 0]). rewrite np_norm4.
    replace (sumsq (0 / z) (0 / z) (0 / z) (0 / z)) with 0
      by (unfold sumsq, Rdiv; ring).
    rewrite sqrt_0. lra.
Qed.

(** ** The three-scan scenario *)

(** Evaluates the program on real constants: unfolds everything but the
    real operations, and settles each comparison of two constants. *)
Ltac R_cbv :=
  cbv -[Rplus Rminus Rmult Rdiv Rinv Ropp IZR Rabs sqrt sin cos acos exp
        Rlt_dec Rle_dec Req_dec_T slerp_quaternions
        quaternion_to_rotation_matrix].

Ltac settle d :=
  first [ destruct d as [?|?]; [ | exfalso; lra ]
        | destruct d as [?|?]; [ exfalso; lra | ] ].

Ltac R_decide :=
  match goal with
  | |- context [Rlt_dec ?a ?b] => settle (Rlt_dec a b)
  | |- context [Rle_dec ?a ?b] => settle (Rle_dec a b)
  | |- context [Req_dec_T ?a ?b] => settle (Req_dec_T a b)
  end.

Ltac R_eval := R_cbv; repeat (R_decide; R_cbv).

Definition scenario_times : list R := [0; 10; 20].
Definition scenario_positions : matrix R := [ [0; 0; 0]; [1; 0; 0]; [2; 0; 0] ].
Definition scenario_orientations : matrix R :=
  [ [0; 0; 0; 1]; [0; 0; 0; 1]; [0; 0; 0; 1] ].
Definition scenario_points : list (list (R * R * R)) :=
  [ [(0, 0, 0)]; [(0, 0, 0)]; [(0, 0, 0)] ].

Lemma interp1d_scenario (a b c : R) :
  exists f, interp1d scenario_times [a; b; c] = Returned f /\
            f 0 = a /\ f 10 = b /\ f 20 = c.
Proof.
  unfold interp1d, scenario_times. cbn [length Nat.eqb negb Nat.ltb Nat.leb].
  eexists. split; [reflexivity|].
  split; [|split]; R_eval; field; lra.
Qed.

Lemma slerp_identity (t : R) :
  slerp_quaternions [0; 0; 0; 1] [0; 0; 0; 1] t = [0; 0; 0; 1].
Proof.
  unfold slerp_quaternions.
  assert (N : np_norm [0; 0; 0; 1] = 1).
  { apply np_norm_unit. unfold sumsq. lra. }
  rewrite N. cbn [vdiv map]. rewrite np_dot4. cbv [DOT_THRESHOLD]. float_R.
  rewrite Rltb_false by lra. rewrite Rltb_true by lra.
  cbn [vadd vsub vscale vdiv map map2]. float_R.
  replace (0 / 1 + t * (0 / 1 - 0 / 1)) with 0 by (field; lra).
  replace (1 / 1 + t * (1 / 1 - 1 / 1)) with 1 by (field; lra).
  rewrite N. list_eq; field.
Qed.

Lemma scenario_range :
  np_min scenario_times = Some 0 /\ np_max scenario_times = Some 20.
Proof. split; R_eval; reflexivity. Qed.

Lemma interpolate_orientation_scenario (t : R) :
  In t scenario_times ->
  interpolate_orientation scenario_times scenario_orientations t
  = Returned [0; 0; 0; 1].
Proof.
  intros [<-|[<-|[<-|[]]]].
  - R_eval. reflexivity.
  - unfold interpolate_orientation, scenario_times, scenario_orientations.
    cbn [nth_error of_option bind length Nat.sub]. float_R.
    rewrite Rleb_false by lra. rewrite Rleb_false by lra.
    assert (S : np_searchsorted [0; 10; 20] 10 = 1%nat) by (R_eval; reflexivity).
    rewrite S. cbn [Nat.eqb Nat.sub nth_error of_option bind].
    rewrite slerp_identity. reflexivity.
  - R_eval. reflexivity.
Qed.

Lemma interpolate_scenario :
  interpolate_odometry_data scenario_times scenario_times
    scenario_positions scenario_orientations
  = Returned (Some (scenario_positions, scenario_orientations)).
Proof.
  unfold interpolate_odometry_data.
  destruct (interp1d_scenario 0 1 2) as (fx & Ex & X0 & X1 & X2).
  destruct (interp1d_scenario 0 0 0) as (fy & Ey & Y0 & Y1 & Y2).
  change (column 0 scenario_positions) with (Returned [0; 1; 2] : outcome (list R)).
  change (column 1 scenario_positions) with (Returned [0; 0; 0] : outcome (list R)).
  change (column 2 scenario_positions) with (Returned [0; 0; 0] : outcome (list R)).
  destruct scenario_range as [-> ->].
  cbn [length Nat.ltb Nat.leb of_option bind scenario_times].
  fold scenario_times.
  assert (O : f_le (py_min 20 20) (py_max 0 0) = false) by (R_eval; reflexivity).
  rewrite O, Ex, Ey. cbn [bind].
  assert (M : mapM (interpolate_orientation scenario_times scenario_orientations)
                   scenario_times = Returned scenario_orientations).
  { unfold scenario_times at 2. cbn [mapM].
    rewrite !interpolate_orientation_scenario by (cbn; auto).
    reflexivity. }
  rewrite M. cbn [bind try_except scenario_times map].
  now rewrite X0, X1, X2, Y0, Y1, Y2.
Qed.

(** The transform of a pose with identity orientation is a translation. *)
Definition translation (a b c : R) : matrix R :=
  [ [1; 0; 0; a]; [0; 1; 0; b]; [0; 0; 1; c]; [0; 0; 0; 1] ].

Lemma create_transform_matrix_translation (a b c : R) :
  create_transform_matrix [a; b; c] [0; 0; 0; 1] None = Returned (translation a b c).
Proof.
  unfold create_transform_matrix. cbn [unpack4 broadcast3 bind].
  rewrite quaternion_to_rotation_matrix_identity.
  unfold translation. matrix_eval. float_R. f_equal. list_eq; field.
Qed.

Lemma inv_translation_origin :
  np_linalg_inv 4 (translation 0 0 0) = Returned (translation 0 0 0).
Proof.
  unfold np_linalg_inv.
  assert (D : det 4 (translation 0 0 0) = 1) by (R_cbv; field).
  rewrite D. float_R. rewrite Reqb_false by lra.
  R_cbv. f_equal. list_eq; field.
Qed.

Lemma matmul_translation (a b c : R) :
  matmul (translation 0 0 0) (translation a b c) = translation a b c.
Proof. unfold translation. matrix_eval. float_R. list_eq; field. Qed.

Lemma apply_translation_origin (a b c : R) :
  snd (apply_transform_to_points (np_array [ [0; 0; 0] ]) (np_array (translation a b c)))
  = Returned {| shape := (1%nat, 3%nat); rows := [ [a; b; c] ] |}.
Proof.
  unfold apply_transform_to_points, np_array, translation.
  cbn [shape rows fst snd length hd Nat.eqb negb andb].
  f_equal. f_equal. unfold transform_points. matrix_eval. float_R.
  list_eq; field.
Qed.

Definition scenario_odometry : option (list R * matrix R * matrix R) :=
  Some (scenario_times, scenario_positions, scenario_orientations).

Ltac stage_eval :=
  cbn [scenario_points scenario_positions scenario_orientations scenario_times
       length seq combine fold_left bind process_message message_transform
       mode interp reference_transform of_option nth_error map Nat.ltb Nat.leb
       rows nth app].

Lemma transform_stage_global :
  transform_stage mode_global scenario_odometry scenario_times scenario_points
  = Returned ([0; 1; 2], [0; 0; 0], [0; 0; 0]).
Proof.
  unfold transform_stage, prepare_transformation, scenario_odometry.
  rewrite interpolate_scenario. cbn [is_global_or_local bind].
  stage_eval.
  rewrite !create_transform_matrix_translation. stage_eval.
  rewrite !apply_translation_origin. stage_eval.
  reflexivity.
Qed.

Lemma transform_stage_local :
  transform_stage mode_local scenario_odometry scenario_times scenario_points
  = Returned ([0; 1; 2], [0; 0; 0], [0; 0; 0]).
Proof.
  unfold transform_stage, prepare_transformation, scenario_odometry.
  rewrite interpolate_scenario. cbn [is_global_or_local bind].
  stage_eval.
  rewrite !create_transform_matrix_translation. stage_eval.
  rewrite inv_translation_origin. stage_eval.
  rewrite !create_transform_matrix_translation. stage_eval.
  rewrite !matmul_translation.
  rewrite !apply_translation_origin. stage_eval.
  reflexivity.
Qed.

(** C4, as the program has it.  Over the reals, for the trajectory of three
    poses at times 0, 10, 20 with positions (0,0,0), (1,0,0), (2,0,0) and
    identity orientations, and one point (0,0,0) per scan at those times:
    in mode [global] the output points are the trajectory positions; in
    mode [local] each scan is expressed in the frame of the first one, so
    the output points are the positions relative to the first pose, which
    are again (0,0,0), (1,0,0), (2,0,0). *)
Theorem three_scan_scenario :
  (l <- transform_stage mode_global scenario_odometry scenario_times scenario_points ;;
   Returned (points_of l))
  = Returned [(0, 0, 0); (1, 0, 0); (2, 0, 0)] /\
  (l <- transform_stage mode_local scenario_odometry scenario_times scenario_points ;;
   Returned (points_of l))
  = Returned [(0, 0, 0); (1, 0, 0); (2, 0, 0)].
Proof.
  rewrite transform_stage_global, transform_stage_local. split; reflexivity.
Qed.

(** C4 as stated fails in mode [local]: the output points are not all
    (0,0,0); the second one is (1,0,0). *)
Lemma local_mode_points_not_all_origin :
  (l <- transform_stage mode_local scenario_odometry scenario_times scenario_points ;;
   Returned (points_of l))
  <> Returned [(0, 0, 0); (0, 0, 0); (0, 0, 0)].
Proof.
  rewrite transform_stage_local. cbn [bind points_of combine map].
  intros E. inversion E. lra.
Qed.

(** * Further properties *)

(** ** Lists *)

Lemma map_fst_combine {A B : Type} (l : list A) (u : list B) :
  length u = length l -> map fst (combine l u) = l.
Proof.
  revert u. induction l as [|a l IH]; intros [|b u] E; try discriminate;
    [reflexivity|]. cbn. f_equal. apply IH. now injection E.
Qed.

Lemma map_snd_combine {A B : Type} (l : list A) (u : list B) :
  length u = length l -> map snd (combine l u) = u.
Proof.
  revert u. induction l as [|a l IH]; intros [|b u] E; try discriminate;
    [reflexivity|]. cbn. f_equal. apply IH. now injection E.
Qed.

Lemma combine_fst_snd {A B : Type} (l : list (A * B)) :
  combine (map fst l) (map snd l) = l.
Proof. induction l as [|[a b] l IH]; [reflexivity|]. cbn. now rewrite IH. Qed.

Lemma filter_fst {A B : Type} (g : A -> bool) (l : list (A * B)) :
  filter g (map fst l) = map fst (filter (fun r => g (fst r)) l).
Proof.
  induction l as [|[a b] l IH]; [reflexivity|]. cbn [map filter fst].
  destruct (g a); cbn [map fst]; now rewrite IH.
Qed.

Lemma filter_all {A : Type} (g : A -> bool) (l : list A) :
  Forall (fun a => g a = true) l -> filter g l = l.
Proof.
  induction 1 as [|a l Ha _ IH]; [reflexivity|]. cbn [filter]. now rewrite Ha, IH.
Qed.

Lemma flat_map_ext_in {A B : Type} (f g : A -> list B) (l : list A) :
  (forall a, In a l -> f a = g a) -> flat_map f l = flat_map g l.
Proof.
  induction l as [|a l IH]; intros Hfg; cbn [flat_map]; [reflexivity|].
  rewrite Hfg by now left. f_equal. apply IH. intros; apply Hfg; now right.
Qed.

Lemma fold_left_map_index {A B C : Type} (f : A -> C -> A) (g : B -> C)
    (l : list B) (a : A) :
  fold_left f (map g l) a = fold_left (fun acc x => f acc (g x)) l a.
Proof. revert a. induction l as [|x l IH]; intros a; [reflexivity | apply IH]. Qed.


Lemma firstn_map_nth {A : Type} (l : list A) (d : A) (n : nat) :
  (n <= length l)%nat -> map (fun i => nth i l d) (seq 0 n) = firstn n l.
Proof.
  intros Hn. rewrite <- (map_nth_seq (firstn n l) d).
  rewrite length_firstn, Nat.min_l by exact Hn.
  apply map_ext_in. intros i Hi. apply in_seq in Hi.
  rewrite <- (firstn_skipn n l) at 1. rewrite app_nth1; [reflexivity|].
  rewrite length_firstn. lia.
Qed.

Lemma mapM_nth {A B : Type} (f : A -> outcome B) (l : list A) (l' : list B)
    (k : nat) (d : A) (d' : B) :
  mapM f l = Returned l' -> (k < length l)%nat ->
  f (nth k l d) = Returned (nth k l' d').
Proof.
  revert l' k. induction l as [|a l IH]; intros l' k E Hk; [cbn in Hk; lia|].
  cbn [mapM] in E. destruct (f a) as [b|] eqn:Ea; cbn [bind] in E; [|discriminate].
  destruct (mapM f l) as [bs|] eqn:El; cbn [bind] in E; [|discriminate].
  injection E as <-. destruct k as [|k]; [exact Ea|].
  cbn [nth]. apply IH; [reflexivity | cbn in Hk; lia].
Qed.

Lemma mapM_shape {A B : Type} (f : A -> outcome B) (P : B -> Prop) (l : list A) :
  (forall a b, f a = Returned b -> P b) ->
  forall r, mapM f l = Returned r -> length r = length l /\ Forall P r.
Proof.
  intros Hf. induction l as [|a l IH]; intros r E; cbn [mapM] in E.
  - injection E as <-. split; [reflexivity | constructor].
  - destruct (f a) as [b|e] eqn:Eb; cbn [bind] in E; [|discriminate].
    destruct (mapM f l) as [bs|e] eqn:Ebs; cbn [bind] in E; [|discriminate].
    injection E as <-. destruct (IH bs eq_refl) as [Hl Hall].
    split; [cbn; lia | constructor; eauto].
Qed.

(** ** Sums, norms, minimum and maximum over the reals *)

Lemma vsum_from (u : list R) (a : R) : fold_left f_add u a = a + vsum u.
Proof.
  unfold vsum. revert a. induction u as [|x u IH]; intros a; cbn [fold_left].
  - float_R. lra.
  - rewrite IH, (IH (f_add f0 x)). float_R. lra.
Qed.

Lemma vsum_cons (x : R) (u : list R) : vsum (x :: u) = x + vsum u.
Proof. unfold vsum at 1. cbn [fold_left]. rewrite vsum_from. float_R. lra. Qed.

Lemma vsum_nil : vsum (@nil R) = 0.
Proof. unfold vsum. cbn [fold_left]. float_R. lra. Qed.

Lemma vsum_nonneg (u : list R) : Forall (fun a => 0 <= a) u -> 0 <= vsum u.
Proof.
  induction 1 as [|x u Hx _ IH]; [rewrite vsum_nil; lra|].
  rewrite vsum_cons. lra.
Qed.

Lemma vsum_zero (u : list R) : Forall (fun a => a = 0) u -> vsum u = 0.
Proof.
  induction 1 as [|x u Hx _ IH]; [apply vsum_nil|].
  rewrite vsum_cons. lra.
Qed.

Lemma f_of_nat_INR (n : nat) : f_of_nat (F := R) n = INR n.
Proof.
  unfold f_of_nat. cbn [f_lit R_Float64]. unfold Q2R, inject_Z. cbn [Qnum Qden].
  rewrite Rinv_1, Rmult_1_r. symmetry. apply INR_IZR_INZ.
Qed.

Lemma np_mean_nonneg (u : list R) : Forall (fun a => 0 <= a) u -> 0 <= np_mean u.
Proof.
  intros Hu. unfold np_mean. cbn [f_div R_Float64]. rewrite f_of_nat_INR.
  pose proof (vsum_nonneg Hu) as Hs. pose proof (pos_INR (length u)) as Hn.
  destruct (Req_dec (INR (length u)) 0) as [->|Hne].
  - unfold Rdiv. rewrite Rinv_0. lra.
  - apply Rmult_le_pos; [exact Hs|]. left. apply Rinv_0_lt_compat. lra.
Qed.

Lemma np_mean_zero (u : list R) : Forall (fun a => a = 0) u -> np_mean u = 0.
Proof.
  intros Hu. unfold np_mean. cbn [f_div R_Float64]. rewrite (vsum_zero Hu).
  unfold Rdiv. apply Rmult_0_l.
Qed.

Lemma np_norm_nonneg (u : list R) : 0 <= np_norm u.
Proof. unfold np_norm. apply sqrt_pos. Qed.

Lemma np_norm_sub_self (p : list R) : np_norm (vsub p p) = 0.
Proof.
  unfold np_norm, vsum. rewrite vsum_sub_self. float_R.
  replace (0 * / 1) with 0 by lra. apply sqrt_0.
Qed.

Lemma np_norm3 (x y z : R) : np_norm [x; y; z] = sqrt (x*x + y*y + z*z).
Proof. unfold np_norm, vsum. cbn [map fold_left]. float_R. f_equal. lra. Qed.

Lemma np_min_lower (u : list R) (m : R) :
  np_min u = Some m -> forall x, In x u -> m <= x.
Proof.
  destruct u as [|a u]; [discriminate|]. cbn [np_min]. intros [= <-].
  assert (G : forall l a0 x, (x = a0 \/ In x l) ->
            fold_left (fun m b => if f_lt b m then b else m) l a0 <= x).
  { induction l as [|b l IH]; intros a0 x Hx; cbn [fold_left].
    - destruct Hx as [->|[]]. lra.
    - change (f_lt b a0) with (Rltb b a0). unfold Rltb.
      destruct (Rlt_dec b a0) as [Hlt|Hge].
      + destruct Hx as [->|[->|Hin]].
        * pose proof (IH b b (or_introl eq_refl)). lra.
        * apply IH. now left.
        * apply IH. now right.
      + destruct Hx as [->|[->|Hin]].
        * apply IH. now left.
        * pose proof (IH a0 a0 (or_introl eq_refl)). lra.
        * apply IH. now right. }
  intros x [->|Hin]; apply G; auto.
Qed.

Lemma np_max_upper (u : list R) (m : R) :
  np_max u = Some m -> forall x, In x u -> x <= m.
Proof.
  destruct u as [|a u]; [discriminate|]. cbn [np_max]. intros [= <-].
  assert (G : forall l a0 x, (x = a0 \/ In x l) ->
            x <= fold_left (fun m b => if f_lt m b then b else m) l a0).
  { induction l as [|b l IH]; intros a0 x Hx; cbn [fold_left].
    - destruct Hx as [->|[]]. lra.
    - change (f_lt a0 b) with (Rltb a0 b). unfold Rltb.
      destruct (Rlt_dec a0 b) as [Hlt|Hge].
      + destruct Hx as [->|[->|Hin]].
        * pose proof (IH b b (or_introl eq_refl)). lra.
        * apply IH. now left.
        * apply IH. now right.
      + destruct Hx as [->|[->|Hin]].
        * apply IH. now left.
        * pose proof (IH a0 a0 (or_introl eq_refl)). lra.
        * apply IH. now right. }
  intros x [->|Hin]; apply G; auto.
Qed.

Lemma np_max_constant (u : list R) (c : R) :
  u <> [] -> Forall (fun a => a = c) u -> np_max u = Some c.
Proof.
  intros Hne Hall. destruct (np_max_nonempty Hne) as [m E]. rewrite E.
  rewrite Forall_forall in Hall. now rewrite (Hall m (np_max_In _ E)).
Qed.

(** ** Rotation matrices *)

(** The matrix of a unit quaternion, written out. *)
Definition unit_rotation (a b c d : R) : matrix R :=
  [ [1 - 2*(b*b + c*c); 2*(a*b - c*d); 2*(a*c + b*d)];
    [2*(a*b + c*d); 1 - 2*(a*a + c*c); 2*(b*c - a*d)];
    [2*(a*c - b*d); 2*(b*c + a*d); 1 - 2*(a*a + b*b)] ].

Lemma quaternion_to_rotation_matrix_nonzero (x y z w : R) :
  [x; y; z; w] <> [0; 0; 0; 0] ->
  let n := np_norm [x; y; z; w] in
  quaternion_to_rotation_matrix (x, y, z, w) = unit_rotation (x/n) (y/n) (z/n) (w/n).
Proof.
  intros Hq n. pose proof (norm_pos Hq) as Hn. fold n in Hn.
  unfold quaternion_to_rotation_matrix. float_R.
  replace (sqrt (x * x + y * y + z * z + w * w)) with n
    by (unfold n; now rewrite np_norm4).
  rewrite Rltb_true by lra. unfold unit_rotation. list_eq; field; lra.
Qed.

Lemma quaternion_to_rotation_matrix_zero :
  quaternion_to_rotation_matrix (0, 0, 0, 0) = unit_rotation 0 0 0 0.
Proof.
  unfold quaternion_to_rotation_matrix. float_R.
  replace (0 * 0 + 0 * 0 + 0 * 0 + 0 * 0) with 0 by lra. rewrite sqrt_0.
  rewrite Rltb_false by lra. unfold unit_rotation. list_eq; field.
Qed.

Ltac det_eval :=
  cbv [det minor drop_nth signed vsum map seq fold_left hd nth firstn skipn app
       Nat.even homogeneous np_linalg_inv Nat.add Nat.pred].

(** A quaternion of norm 1, or all zero: the two cases in which the
    program uses the components as they are. *)
Lemma unit_rotation_orthonormal (a b c d : R) :
  sumsq a b c d = 1 \/ sumsq a b c d = 0 ->
  matmul (transpose 3 (unit_rotation a b c d)) (unit_rotation a b c d) = np_eye 3 /\
  det 3 (unit_rotation a b c d) = 1.
Proof.
  unfold sumsq. intros [U|U].
  - split.
    + unfold unit_rotation. matrix_eval. float_R. rewrite ?Rinv_1. list_eq; nsatz.
    + unfold unit_rotation. det_eval. float_R. rewrite ?Rinv_1. nsatz.
  - assert (a = 0 /\ b = 0 /\ c = 0 /\ d = 0) as (-> & -> & -> & ->)
      by (repeat split; nra).
    split.
    + unfold unit_rotation. matrix_eval. float_R. rewrite ?Rinv_1. list_eq; ring.
    + unfold unit_rotation. det_eval. float_R. rewrite ?Rinv_1. ring.
Qed.

Lemma rotation_matrix_unit (x y z w : R) :
  exists a b c d,
    quaternion_to_rotation_matrix (x, y, z, w) = unit_rotation a b c d /\
    (sumsq a b c d = 1 \/ sumsq a b c d = 0).
Proof.
  destruct (list_eq_dec Req_dec_T [x; y; z; w] [0; 0; 0; 0]) as [E|Hq].
  - injection E as -> -> -> ->. exists 0, 0, 0, 0.
    split; [apply quaternion_to_rotation_matrix_zero | right; unfold sumsq; ring].
  - eexists _, _, _, _. split; [apply (quaternion_to_rotation_matrix_nonzero Hq)|].
    left. exact (sumsq_normalized Hq).
Qed.

Lemma rotation_matrix_det (x y z w : R) :
  det 3 (quaternion_to_rotation_matrix (x, y, z, w)) = 1.
Proof.
  destruct (rotation_matrix_unit x y z w) as (a & b & c & d & -> & U).
  now apply unit_rotation_orthonormal.
Qed.

(** X1.  Over the reals, for every quaternion, unit or not:
    [quaternion_to_rotation_matrix] returns a rotation matrix: its
    transpose is its inverse and its determinant is 1.  (The zero
    quaternion, which cannot be normalised, gives the identity.) *)
Theorem rotation_matrix_orthonormal (x y z w : R) :
  let m := quaternion_to_rotation_matrix (x, y, z, w) in
  matmul (transpose 3 m) m = np_eye 3 /\ det 3 m = 1.
Proof.
  intros m. subst m.
  destruct (rotation_matrix_unit x y z w) as (a & b & c & d & -> & U).
  now apply unit_rotation_orthonormal.
Qed.

Lemma np_norm_scaled (k x y z w : R) :
  np_norm [k * x; k * y; k * z; k * w] = Rabs k * np_norm [x; y; z; w].
Proof.
  rewrite !np_norm4. unfold sumsq.
  replace (k * x * (k * x) + k * y * (k * y) + k * z * (k * z) + k * w * (k * w))
    with (Rsqr k * (x * x + y * y + z * z + w * w)) by (unfold Rsqr; ring).
  rewrite sqrt_mult; [ | apply Rle_0_sqr | nra ].
  now rewrite sqrt_Rsqr_abs.
Qed.

Lemma rotation_matrix_scaled (k x y z w : R) :
  k <> 0 ->
  quaternion_to_rotation_matrix (k * x, k * y, k * z, k * w)
  = quaternion_to_rotation_matrix (x, y, z, w).
Proof.
  intros Hk.
  destruct (list_eq_dec Req_dec_T [x; y; z; w] [0; 0; 0; 0]) as [E|Hq].
  - injection E as -> -> -> ->. now rewrite !Rmult_0_r.
  - assert (Hkq : [k * x; k * y; k * z; k * w] <> [0; 0; 0; 0]).
    { intros E. injection E as Ex Ey Ez Ew. apply Hq.
      apply Rmult_integral in Ex, Ey, Ez, Ew.
      destruct Ex, Ey, Ez, Ew; try contradiction. now subst. }
    rewrite (quaternion_to_rotation_matrix_nonzero Hkq),
            (quaternion_to_rotation_matrix_nonzero Hq).
    cbv zeta. rewrite np_norm_scaled.
    pose proof (norm_pos Hq) as Hn. set (n := np_norm [x; y; z; w]) in *.
    unfold unit_rotation.
    destruct (Rcase_abs k) as [Hneg|Hpos].
    + rewrite (Rabs_left k Hneg). list_eq; field; lra.
    + rewrite (Rabs_right k Hpos). list_eq; field; lra.
Qed.

(** X2.  Over the reals: the rotation matrix does not change when the
    quaternion is multiplied by a non-zero number; in particular [q] and
    [-q] give the same matrix, and a quaternion need not be normalised
    before the call. *)
Theorem rotation_matrix_scale_invariant (k x y z w : R) :
  k <> 0 ->
  quaternion_to_rotation_matrix (k * x, k * y, k * z, k * w)
  = quaternion_to_rotation_matrix (x, y, z, w) /\
  quaternion_to_rotation_matrix (- x, - y, - z, - w)
  = quaternion_to_rotation_matrix (x, y, z, w).
Proof.
  intros Hk. split; [now apply rotation_matrix_scaled|].
  replace (- x) with (-1 * x) by ring. replace (- y) with (-1 * y) by ring.
  replace (- z) with (-1 * z) by ring. replace (- w) with (-1 * w) by ring.
  apply rotation_matrix_scaled. lra.
Qed.

Lemma rotation_matrix_scale_invariant_witness :
  quaternion_to_rotation_matrix (-2 * 1, -2 * 0, -2 * 0, -2 * 1)
  = quaternion_to_rotation_matrix (1, 0, 0, 1).
Proof.
  apply (@rotation_matrix_scale_invariant (-2) 1 0 0 1). lra.
Defined.

(** ** SLERP

    X3.  Over the reals: interpolating between a non-zero quaternion and
    itself gives that quaternion, normalised, for every parameter [t]. *)
Theorem slerp_same_quaternion (x y z w t : R) :
  [x; y; z; w] <> [0; 0; 0; 0] ->
  slerp_quaternions [x; y; z; w] [x; y; z; w] t
  = vdiv [x; y; z; w] (np_norm [x; y; z; w]).
Proof.
  intros Hq. slerp_prelude Hq Hq.
  assert (D : a * a + a0 * a0 + a1 * a1 + a2 * a2 = 1) by exact U.
  rewrite D. rewrite Rltb_false by lra. rewrite Rltb_true by lra.
  cbn [vadd vsub vscale vdiv map map2]. float_R.
  assert (L : forall u : R, u + t * (u - u) = u) by (intros; ring).
  rewrite !L, (np_norm_unit U). list_eq; field.
Qed.

Lemma sumsq_zero (a b c d : R) : [a; b; c; d] = [0; 0; 0; 0] -> sumsq a b c d = 0.
Proof. intros [= -> -> -> ->]. unfold sumsq. ring. Qed.

Lemma lerp_nonzero (a1 a2 a3 a4 b1 b2 b3 b4 t : R) :
  sumsq a1 a2 a3 a4 = 1 -> sumsq b1 b2 b3 b4 = 1 -> 0 <= t <= 1 ->
  0 < a1 * b1 + a2 * b2 + a3 * b3 + a4 * b4 ->
  [a1 + t * (b1 - a1); a2 + t * (b2 - a2); a3 + t * (b3 - a3); a4 + t * (b4 - a4)]
  <> [0; 0; 0; 0].
Proof.
  intros Ua Ub Ht Hd E. apply sumsq_zero in E.
  assert (Id : sumsq (a1 + t * (b1 - a1)) (a2 + t * (b2 - a2))
                     (a3 + t * (b3 - a3)) (a4 + t * (b4 - a4))
               = (1 - t) * (1 - t) * sumsq a1 a2 a3 a4 + t * t * sumsq b1 b2 b3 b4
                 + 2 * (t * (1 - t)) * (a1 * b1 + a2 * b2 + a3 * b3 + a4 * b4))
    by (unfold sumsq; ring).
  rewrite Id, Ua, Ub in E.
  assert (P : 0 <= t * (1 - t) * (a1 * b1 + a2 * b2 + a3 * b3 + a4 * b4))
    by (apply Rmult_le_pos; [apply Rmult_le_pos|]; lra).
  nra.
Qed.

Lemma slerp_combination_unit (a1 a2 a3 a4 b1 b2 b3 b4 d cs sn s : R) :
  sumsq a1 a2 a3 a4 = 1 -> sumsq b1 b2 b3 b4 = 1 ->
  d = a1 * b1 + a2 * b2 + a3 * b3 + a4 * b4 ->
  0 < s -> s * s = 1 - d * d -> sn * sn + cs * cs = 1 ->
  sumsq ((cs - d * sn / s) * a1 + sn / s * b1) ((cs - d * sn / s) * a2 + sn / s * b2)
        ((cs - d * sn / s) * a3 + sn / s * b3) ((cs - d * sn / s) * a4 + sn / s * b4)
  = 1.
Proof.
  intros Ua Ub Hd Hs S2 SC.
  set (p := cs - d * sn / s). set (q := sn / s).
  assert (Id : sumsq (p * a1 + q * b1) (p * a2 + q * b2) (p * a3 + q * b3) (p * a4 + q * b4)
               = p * p * sumsq a1 a2 a3 a4 + q * q * sumsq b1 b2 b3 b4
                 + 2 * p * q * (a1 * b1 + a2 * b2 + a3 * b3 + a4 * b4))
    by (unfold sumsq; ring).
  rewrite Id, Ua, Ub, <- Hd. subst p q.
  assert (Q : sn / s * (sn / s) * (s * s) = sn * sn) by (field; lra).
  set (u := sn / s) in *. replace (d * sn / s) with (d * u) by (subst u; field; lra).
  clearbody u. nsatz.
Qed.

(** X4.  Over the reals: for non-zero quaternions and a parameter between
    0 and 1, [slerp_quaternions] returns a unit quaternion, on the
    near-parallel branch and on the closed-form branch alike. *)
Theorem slerp_unit_norm (x1 y1 z1 w1 x2 y2 z2 w2 t : R) :
  [x1; y1; z1; w1] <> [0; 0; 0; 0] -> [x2; y2; z2; w2] <> [0; 0; 0; 0] ->
  0 <= t <= 1 ->
  np_norm (slerp_quaternions [x1; y1; z1; w1] [x2; y2; z2; w2] t) = 1.
Proof.
  intros H1 H2 Ht. slerp_prelude H1 H2.
  unfold Rltb; destruct (Rlt_dec _ (0 * / 1)) as [E0|E0];
  match goal with
  | |- context [Rlt_dec ?t ?d] => destruct (Rlt_dec t d) as [E1|E1]
  end;
  cbn [vadd vsub vscale vneg map map2]; float_R.
  1: apply normalized_unit; [reflexivity|];
     apply lerp_nonzero; try assumption; [now rewrite sumsq_opp | lra].
  2: apply normalized_unit; [reflexivity|];
     apply lerp_nonzero; try assumption; lra.
  all: apply np_norm_unit;
       match goal with
       | |- context [Rabs ?d] =>
           assert (D0 : 0 <= d) by lra;
           assert (D1 : d <= 9995 * / 10000) by lra;
           rewrite (Rabs_pos_eq d D0);
           pose proof (sin_acos_pos D0 D1) as S;
           assert (S2 : sin (acos d) * sin (acos d) = 1 - d * d)
             by (rewrite sin_acos by lra; rewrite sqrt_sqrt; unfold Rsqr; nra);
           pose proof (sin2_cos2 (acos d * t)) as SC; unfold Rsqr in SC;
           set (s := sin (acos d)) in *; clearbody s;
           set (sn := sin (acos d * t)) in *; set (cs := cos (acos d * t)) in *;
           clearbody sn cs
       end.
  - apply slerp_combination_unit; try assumption;
      [now rewrite sumsq_opp | ring].
  - apply slerp_combination_unit; try assumption; ring.
Qed.

Lemma slerp_unit_norm_witness :
  np_norm (slerp_quaternions [0; 0; 0; 2] [0; 3; 0; 0] (1 / 2)) = 1.
Proof.
  apply (@slerp_unit_norm 0 0 0 2 0 3 0 0 (1 / 2));
    [intros E; inversion E; lra | intros E; inversion E; lra | lra].
Defined.

Lemma slerp_same_quaternion_witness :
  slerp_quaternions [0; 0; 0; 2] [0; 0; 0; 2] 7
  = vdiv [0; 0; 0; 2] (np_norm [0; 0; 0; 2]).
Proof.
  apply (@slerp_same_quaternion 0 0 0 2 7). intros E; inversion E; lra.
Defined.

(** ** Errors of the rigid transform builder *)

Section CreateErrors.
Context {F : Type} `{Float64 F}.
Local Open Scope nat_scope.

(** The argument lengths [create_transform_matrix] rejects. *)
Definition rejected (position quaternion : list F) (lidar_offset : option (list F))
    : Prop :=
  length quaternion <> 4 \/
  (length position <> 1 /\ length position <> 3) \/
  exists l, lidar_offset = Some l /\
            (length l = 0 \/ length l = 2 \/ length l = 4 \/ length l = 5).

Lemma lidar_offset_matrix_outcome (l : list F) :
  (length l = 0 \/ length l = 2 \/ length l = 4 \/ length l = 5 ->
   lidar_offset_matrix l = Raised ValueError) /\
  (~ (length l = 0 \/ length l = 2 \/ length l = 4 \/ length l = 5) ->
   exists m, lidar_offset_matrix l = Returned m).
Proof.
  unfold lidar_offset_matrix.
  destruct l as [|a [|b [|c [|d [|e [|f l]]]]]];
    cbn [length Nat.ltb Nat.leb firstn skipn unpack3 broadcast3 bind];
    (split; [intros Hl | intros Hl]); try reflexivity; try lia; eauto.
Qed.

(** X5.  For every implementation of the float interface:
    [create_transform_matrix] raises [ValueError], and nothing else,
    exactly when the quaternion does not have four components, or the
    position has neither one nor three, or a sensor offset is given with
    0, 2, 4 or 5 components; an offset of one component is broadcast, and
    components after the sixth are ignored. *)
Theorem create_transform_matrix_errors (position quaternion : list F)
    (lidar_offset : option (list F)) :
  (rejected position quaternion lidar_offset ->
   create_transform_matrix position quaternion lidar_offset = Raised ValueError) /\
  (~ rejected position quaternion lidar_offset ->
   exists m,
     create_transform_matrix position quaternion lidar_offset = Returned m).
Proof.
  unfold rejected, create_transform_matrix.
  destruct quaternion as [|x [|y [|z [|w [|v quaternion]]]]];
    cbn [unpack4 bind length];
    try (split; [reflexivity | intros N; exfalso; apply N; left; lia]).
  destruct position as [|px [|py [|pz [|pw position]]]];
    cbn [broadcast3 bind length];
    try (split; [reflexivity | intros N; exfalso; apply N; right; left; lia]).
  all: destruct lidar_offset as [l|];
    [ destruct (lidar_offset_matrix_outcome l) as [Hbad Hgood];
      split;
      [ intros [Hq|[Hp|(l0 & [= <-] & Hl)]]; try lia; now rewrite (Hbad Hl)
      | intros N; destruct Hgood as [m ->]; [|cbn [bind]; eauto];
        intros Hl; apply N; right; right; eauto ]
    | split;
      [ intros [Hq|[Hp|(l0 & E & _)]]; [lia | lia | discriminate]
      | eauto ] ].
Qed.
End CreateErrors.

Lemma create_transform_matrix_errors_witness :
  create_transform_matrix [1; 2; 3] [0; 0; 0; 1] (Some [1; 2]) = Raised ValueError.
Proof.
  apply (@create_transform_matrix_errors R _ [1; 2; 3] [0; 0; 0; 1] (Some [1; 2])).
  right. right. exists [1; 2]. split; [reflexivity|]. right. left. reflexivity.
Defined.

(** ** Sensor offset and composition of transforms *)

(** The lever arm: position plus rotated offset. *)
Definition lever_arm (r : matrix R) (p t : R * R * R) : R * R * R :=
  let '(px, py, pz) := p in
  let '(tx, ty, tz) := t in
  let v := matvec r [tx; ty; tz] in
  (px + nth 0 v 0, py + nth 1 v 0, pz + nth 2 v 0).

(** X6.  Over the reals: with a sensor offset, the pose matrix has the
    translation [position + R t], where [R] is the rotation of the pose
    and [t] the offset translation, and (with Euler angles) the rotation
    [R R_lidar]. *)
Theorem create_transform_matrix_lever_arm
    (px py pz x y z w tx ty tz rx ry rz : R) :
  let r := quaternion_to_rotation_matrix (x, y, z, w) in
  let t' := lever_arm r (px, py, pz) (tx, ty, tz) in
  create_transform_matrix [px; py; pz] [x; y; z; w] (Some [tx; ty; tz])
    = Returned (homogeneous r t') /\
  create_transform_matrix [px; py; pz] [x; y; z; w] (Some [tx; ty; tz; rx; ry; rz])
    = Returned (homogeneous (matmul r (R_lidar_of rx ry rz)) t').
Proof.
  intros r t'. subst r t'.
  destruct (quaternion_to_rotation_matrix_shape (x, y, z, w))
    as (a & b & c & d & e & f & g & h & i & E).
  unfold create_transform_matrix, lidar_offset_matrix.
  cbn [unpack4 unpack3 broadcast3 bind length Nat.ltb Nat.leb firstn skipn].
  rewrite E. unfold lever_arm. split; f_equal.
  - matrix_eval. float_R. rewrite ?Rinv_1. list_eq; ring.
  - matrix_eval. float_R. rewrite ?Rinv_1. list_eq; ring.
Qed.

(** A 4x4 matrix whose last row is [0, 0, 0, 1]. *)
Definition affine (m : matrix R) : Prop :=
  exists a b c d e f g h i tx ty tz,
    m = [ [a; b; c; tx]; [d; e; f; ty]; [g; h; i; tz]; [0; 0; 0; 1] ].

Definition square4 (m : matrix R) : Prop :=
  exists a b c d e f g h i j k l n o p q,
    m = [ [a; b; c; d]; [e; f; g; h]; [i; j; k; l]; [n; o; p; q] ].

Lemma transform_points_compose (points m1 m2 : matrix R) :
  Forall (fun r => length r = 3%nat) points -> affine m1 -> square4 m2 ->
  transform_points (transform_points points m1) m2
  = transform_points points (matmul m2 m1).
Proof.
  intros Hp (a & b & c & d & e & f & g & h & i & tx & ty & tz & ->)
         (a' & b' & c' & d' & e' & f' & g' & h' & i' & j' & k' & l' & n' & o'
          & p' & q' & ->).
  unfold transform_points. rewrite map_map. apply map_ext_in.
  intros p Hin. rewrite Forall_forall in Hp. specialize (Hp p Hin).
  destruct p as [|u [|v [|w0 [|]]]]; try discriminate.
  matrix_eval. float_R. rewrite ?Rinv_1. list_eq; ring.
Qed.

Lemma apply_transform_returns {F : Type} `{Float64 F} (points t : ndarray2 F) :
  snd (shape points) = 3%nat -> shape t = (4, 4)%nat ->
  snd (apply_transform_to_points points t)
  = Returned {| shape := (fst (shape points), 3%nat);
                rows := transform_points (rows points) (rows t) |}.
Proof.
  intros Hc Ht. unfold apply_transform_to_points. rewrite Hc, Ht. reflexivity.
Qed.

(** X7.  Over the reals: applying a rigid transform [m1] and then a
    transform [m2] to an N x 3 array is applying the product [m2 @ m1]
    once. *)
Theorem apply_transform_compose (points : ndarray2 R) (m1 m2 : matrix R) :
  well_shaped points -> snd (shape points) = 3%nat -> affine m1 -> square4 m2 ->
  (r <- snd (apply_transform_to_points points (np_array m1)) ;;
   snd (apply_transform_to_points r (np_array m2)))
  = snd (apply_transform_to_points points (np_array (matmul m2 m1))).
Proof.
  intros [Hlen Hrows] Hc Ha Hs.
  pose proof (transform_points_compose (points := rows points)) as Hcomp.
  rewrite Hc in Hrows. specialize (Hcomp m1 m2 Hrows Ha Hs).
  destruct Ha as (a & b & c & d & e & f & g & h & i & tx & ty & tz & ->).
  destruct Hs as (a' & b' & c' & d' & e' & f' & g' & h' & i' & j' & k' & l' & n' & o'
          & p' & q' & ->).
  rewrite !apply_transform_returns by (assumption || reflexivity).
  cbn [bind]. rewrite apply_transform_returns by reflexivity.
  cbn [shape rows fst np_array]. now rewrite Hcomp.
Qed.

Lemma apply_transform_compose_witness :
  let points := np_array [ [1; 2; 3] ] in
  let m1 := [ [1; 0; 0; 5]; [0; 1; 0; 6]; [0; 0; 1; 7]; [0; 0; 0; 1] ] in
  let m2 := [ [0; 1; 0; 0]; [1; 0; 0; 0]; [0; 0; 1; 0]; [0; 0; 0; 1] ] in
  (r <- snd (apply_transform_to_points points (np_array m1)) ;;
   snd (apply_transform_to_points r (np_array m2)))
  = snd (apply_transform_to_points points (np_array (matmul m2 m1))).
Proof.
  intros points m1 m2. apply apply_transform_compose.
  - split; [reflexivity | repeat constructor].
  - reflexivity.
  - unfold affine, m1. repeat eexists.
  - unfold square4, m2. repeat eexists.
Defined.

(** ** The inverse of a pose matrix *)

Definition det3 (a b c d e f g h i : R) : R :=
  a * (e * i - f * h) - b * (d * i - f * g) + c * (d * h - e * g).

Lemma det_homogeneous (a b c d e f g h i tx ty tz : R) :
  det 4 (homogeneous [ [a; b; c]; [d; e; f]; [g; h; i] ] (tx, ty, tz))
  = det3 a b c d e f g h i.
Proof. det_eval. float_R. rewrite ?Rinv_1. unfold det3. ring. Qed.

Lemma inv_homogeneous (a b c d e f g h i tx ty tz : R) :
  det3 a b c d e f g h i <> 0 ->
  exists m,
    np_linalg_inv 4 (homogeneous [ [a; b; c]; [d; e; f]; [g; h; i] ] (tx, ty, tz))
    = Returned m /\
    matmul m (homogeneous [ [a; b; c]; [d; e; f]; [g; h; i] ] (tx, ty, tz))
    = [ [1; 0; 0; 0]; [0; 1; 0; 0]; [0; 0; 1; 0]; [0; 0; 0; 1] ].
Proof.
  intros Hd. unfold np_linalg_inv. rewrite det_homogeneous. float_R.
  rewrite Reqb_false by lra. eexists. split; [reflexivity|].
  det_eval. matrix_eval. float_R. rewrite ?Rinv_1. unfold det3 in *.
  list_eq; field; exact Hd.
Qed.

Lemma det_3_det3 (a b c d e f g h i : R) :
  det 3 [ [a; b; c]; [d; e; f]; [g; h; i] ] = det3 a b c d e f g h i.
Proof. det_eval. float_R. rewrite ?Rinv_1. unfold det3. ring. Qed.

Definition identity4 : matrix R :=
  [ [1; 0; 0; 0]; [0; 1; 0; 0]; [0; 0; 1; 0]; [0; 0; 0; 1] ].

(** Every pose matrix has an inverse. *)
Lemma pose_transform_invertible (px py pz x y z w : R) :
  exists t m,
    create_transform_matrix [px; py; pz] [x; y; z; w] None = Returned t /\
    np_linalg_inv 4 t = Returned m /\
    matmul m t = identity4.
Proof.
  unfold create_transform_matrix. cbn [unpack4 broadcast3 bind].
  pose proof (rotation_matrix_det x y z w) as Hd.
  destruct (quaternion_to_rotation_matrix_shape (x, y, z, w))
    as (a & b & c & d & e & f & g & h & i & E).
  rewrite E in *. rewrite det_3_det3 in Hd.
  destruct (@inv_homogeneous a b c d e f g h i px py pz) as (m & Hm & Hmul); [lra|].
  exists (homogeneous [ [a; b; c]; [d; e; f]; [g; h; i] ] (px, py, pz)), m.
  repeat split; assumption.
Qed.



(** ** Shape of the interpolated arrays *)

Section InterpolationShape.
Context {F : Type} `{Float64 F}.
Local Open Scope nat_scope.

Lemma broadcast4_length (v r : list F) :
  broadcast4 v = Returned r -> length r = 4.
Proof.
  destruct v as [|a [|b [|c [|d [|e v]]]]]; cbn [broadcast4]; intros E;
    try discriminate; injection E as <-; reflexivity.
Qed.

Lemma interpolate_orientation_length (ts : list F) (qs : matrix F) (t : F) (r : list F) :
  interpolate_orientation ts qs t = Returned r -> length r = 4.
Proof.
  unfold interpolate_orientation.
  destruct (nth_error ts 0) as [t0|]; cbn [of_option bind]; [|discriminate].
  destruct (f_le t t0).
  - destruct (nth_error qs 0); cbn [of_option bind]; [|discriminate].
    apply broadcast4_length.
  - destruct (nth_error ts (length ts - 1)) as [tl|]; cbn [of_option bind];
      [|discriminate].
    destruct (f_le tl t).
    + destruct (nth_error qs (length qs - 1)); cbn [of_option bind]; [|discriminate].
      apply broadcast4_length.
    + repeat match goal with
        | |- context [of_option IndexError (nth_error ?l ?i)] =>
            destruct (nth_error l i); cbn [of_option bind]; [|discriminate]
        end.
      apply broadcast4_length.
Qed.

Lemma interpolate_lengths (pc_ts odom_ts : list F) (ps qs ps' qs' : matrix F) :
  interpolate_odometry_data pc_ts odom_ts ps qs = Returned (Some (ps', qs')) ->
  length ps' = length pc_ts /\ length qs' = length pc_ts /\
  Forall (fun r => length r = 3) ps' /\ Forall (fun r => length r = 4) qs'.
Proof.
  unfold interpolate_odometry_data.
  destruct (Nat.ltb (length odom_ts) 2); [discriminate|].
  destruct (np_min odom_ts); cbn [of_option bind]; [|discriminate].
  destruct (np_max odom_ts); cbn [of_option bind]; [|discriminate].
  destruct (np_min pc_ts); cbn [of_option bind]; [|discriminate].
  destruct (np_max pc_ts); cbn [of_option bind]; [|discriminate].
  destruct (f_le _ _); [discriminate|].
  destruct (column 0 ps); cbn [bind try_except]; [|discriminate].
  destruct (interp1d odom_ts _) as [fx|]; cbn [bind try_except]; [|discriminate].
  destruct (column 1 ps); cbn [bind try_except]; [|discriminate].
  destruct (interp1d odom_ts _) as [fy|]; cbn [bind try_except]; [|discriminate].
  destruct (column 2 ps); cbn [bind try_except]; [|discriminate].
  destruct (interp1d odom_ts _) as [fz|]; cbn [bind try_except]; [|discriminate].
  destruct (mapM _ pc_ts) as [os|] eqn:Em; cbn [bind try_except]; [|discriminate].
  intros [= <- <-].
  destruct (mapM_shape _ (fun r => length r = 4) pc_ts
              (@interpolate_orientation_length odom_ts qs) Em) as [Hl Hall].
  rewrite length_map. repeat split; try assumption.
  apply Forall_forall. intros r Hr. apply in_map_iff in Hr.
  destruct Hr as (t & <- & _). reflexivity.
Qed.

Lemma interp1d_returns (x y : list F) (f : F -> F) :
  interp1d x y = Returned f -> length x = length y /\ 2 <= length x.
Proof.
  unfold interp1d. destruct (Nat.eqb_spec (length x) (length y)) as [E|];
    cbn [negb]; [|discriminate].
  destruct (Nat.ltb_spec (length x) 2); [discriminate|]. intros _. split; assumption.
Qed.

Lemma column_length (k : nat) (m : matrix F) (c : list F) :
  column k m = Returned c -> length c = length m.
Proof.
  intros E. now destruct (mapM_shape _ (fun _ => True) m (fun _ _ _ => I) E).
Qed.

(** X8.  For every implementation of the float interface: when
    [interpolate_odometry_data] returns arrays, there is one position of
    three components and one quaternion of four components for every
    point-cloud timestamp; and this happens only when there is at least
    one point-cloud timestamp and there are at least two odometry
    timestamps, with a position for each. *)
Theorem interpolate_shape (pc_ts odom_ts : list F) (ps qs ps' qs' : matrix F) :
  interpolate_odometry_data pc_ts odom_ts ps qs = Returned (Some (ps', qs')) ->
  (pc_ts <> [] /\ 2 <= length odom_ts /\ length ps = length odom_ts) /\
  length ps' = length pc_ts /\ length qs' = length pc_ts /\
  Forall (fun r => length r = 3) ps' /\ Forall (fun r => length r = 4) qs'.
Proof.
  intros E. split; [|exact (interpolate_lengths _ _ _ _ E)].
  unfold interpolate_odometry_data in E.
  destruct (Nat.ltb_spec (length odom_ts) 2) as [|Hn]; [discriminate|].
  destruct (np_min odom_ts); cbn [of_option bind] in E; [|discriminate].
  destruct (np_max odom_ts); cbn [of_option bind] in E; [|discriminate].
  destruct (np_min pc_ts) eqn:Epc; cbn [of_option bind] in E; [|discriminate].
  split; [intros ->; discriminate|]. split; [exact Hn|].
  destruct (np_max pc_ts); cbn [of_option bind] in E; [|discriminate].
  destruct (f_le _ _); [discriminate|].
  destruct (column 0 ps) as [xs|] eqn:Ec; cbn [bind try_except] in E;
    [|discriminate].
  destruct (interp1d odom_ts xs) as [fx|] eqn:Ex; cbn [bind try_except] in E;
    [|discriminate].
  apply column_length in Ec. apply interp1d_returns in Ex. destruct Ex as [Ex _].
  congruence.
Qed.
End InterpolationShape.

Lemma interpolate_shape_witness :
  (scenario_times <> [] /\ (2 <= length scenario_times)%nat /\
   length scenario_positions = length scenario_times) /\
  length scenario_positions = length scenario_times /\
  length scenario_orientations = length scenario_times /\
  Forall (fun r => length r = 3%nat) scenario_positions /\
  Forall (fun r => length r = 4%nat) scenario_orientations.
Proof.
  apply (@interpolate_shape R _ scenario_times scenario_times scenario_positions
           scenario_orientations scenario_positions scenario_orientations).
  exact interpolate_scenario.
Defined.

(** ** The transform stage *)

Section StageShape.
Context {F : Type} `{Float64 F}.
Local Open Scope nat_scope.

(** The second pass from an accumulator, lines 1833-1917. *)
Definition second_pass (st : prepared F) (mts : list F)
    (work : list (nat * list (F * F * F)))
    (acc : outcome (list F * list F * list F)) : outcome (list F * list F * list F) :=
  fold_left (fun acc '(msg_idx, points_in_message) =>
    '(x_list, y_list, z_list) <- acc ;;
    '(xs, ys, zs) <- process_message st mts msg_idx points_in_message ;;
    Returned (x_list ++ xs, y_list ++ ys, z_list ++ zs)) work acc.

Lemma transform_stage_second_pass (m : transform_mode)
    (odom : option (list F * matrix F * matrix F)) (mts : list F)
    (data : list (list (F * F * F))) :
  transform_stage m odom mts data
  = (st <- prepare_transformation m odom mts ;;
     second_pass st mts (combine (seq 0 (length data)) data) (Returned ([], [], []))).
Proof. reflexivity. Qed.

Lemma second_pass_raised (st : prepared F) (mts : list F)
    (work : list (nat * list (F * F * F))) (e : py_exn) :
  second_pass st mts work (Raised e) = Raised e.
Proof. induction work as [|[k pts] work IH]; [reflexivity | exact IH]. Qed.

Lemma second_pass_cons (st : prepared F) (mts : list F) (k : nat)
    (pts : list (F * F * F)) (work : list (nat * list (F * F * F)))
    (xs ys zs : list F) :
  second_pass st mts ((k, pts) :: work) (Returned (xs, ys, zs))
  = second_pass st mts work
      ('(xs', ys', zs') <- process_message st mts k pts ;;
       Returned (xs ++ xs', ys ++ ys', zs ++ zs')).
Proof. reflexivity. Qed.

Lemma apply_transform_rows (points t a : ndarray2 F) :
  snd (apply_transform_to_points points t) = Returned a ->
  length (rows a) = length (rows points).
Proof.
  unfold apply_transform_to_points.
  destruct (negb _); [discriminate|]. destruct (negb _); [discriminate|].
  cbn [snd]. intros [= <-]. cbn [rows]. apply transform_points_length.
Qed.

Lemma process_message_lengths (st : prepared F) (mts : list F) (k : nat)
    (pts : list (F * F * F)) (xs ys zs : list F) :
  process_message st mts k pts = Returned (xs, ys, zs) ->
  length xs = length pts /\ length ys = length pts /\ length zs = length pts.
Proof.
  unfold process_message.
  destruct (nth_error mts k); cbn [of_option bind]; [|discriminate].
  destruct (message_transform st k) as [t|]; cbn [bind]; [|discriminate].
  rewrite length_map.
  destruct pts as [|p pts]; cbn [length Nat.ltb Nat.leb].
  - intros [= <- <- <-]. auto.
  - destruct t as [t|]; cbn [bind].
    + destruct (snd (apply_transform_to_points _ _)) as [a|] eqn:Ea; cbn [bind];
        [|discriminate].
      intros [= <- <- <-]. rewrite !length_map.
      apply apply_transform_rows in Ea. rewrite Ea. cbn [rows np_array length map].
      rewrite length_map. auto.
    + intros [= <- <- <-]. cbn [length]. rewrite ?length_map. auto.
Qed.

Lemma second_pass_lengths (st : prepared F) (mts : list F)
    (work : list (nat * list (F * F * F))) :
  forall xs ys zs xs' ys' zs',
    second_pass st mts work (Returned (xs, ys, zs)) = Returned (xs', ys', zs') ->
    length xs' = length xs + length (concat (map snd work)) /\
    length ys' = length ys + length (concat (map snd work)) /\
    length zs' = length zs + length (concat (map snd work)).
Proof.
  induction work as [|[k pts] work IH]; intros xs ys zs xs' ys' zs' E.
  - injection E as <- <- <-. cbn. lia.
  - rewrite second_pass_cons in E.
    destruct (process_message st mts k pts) as [[[a b] c]|] eqn:Ep; cbn [bind] in E;
      [|rewrite second_pass_raised in E; discriminate].
    apply IH in E. apply process_message_lengths in Ep.
    cbn [map snd concat]. rewrite !length_app in *. lia.
Qed.

Lemma map_snd_combine_seq {A : Type} (l : list A) (k : nat) :
  map snd (combine (seq k (length l)) l) = l.
Proof.
  revert k. induction l as [|a l IH]; intros k; [reflexivity|].
  cbn. now rewrite IH.
Qed.

(** X9.  For every implementation of the float interface: when the
    transform stage returns, each of the three coordinate lists has one
    entry for every point of every message; no point is dropped or
    duplicated by the transformation. *)
Theorem transform_stage_keeps_count (m : transform_mode)
    (odom : option (list F * matrix F * matrix F)) (mts : list F)
    (data : list (list (F * F * F))) (xs ys zs : list F) :
  transform_stage m odom mts data = Returned (xs, ys, zs) ->
  length xs = length (concat data) /\ length ys = length (concat data) /\
  length zs = length (concat data).
Proof.
  rewrite transform_stage_second_pass.
  destruct (prepare_transformation m odom mts) as [st|]; cbn [bind]; [|discriminate].
  intros E. apply second_pass_lengths in E.
  now rewrite map_snd_combine_seq in E.
Qed.

(** X10.  For every implementation of the float interface: when the mode
    is ["global"] or ["local"] but no odometry was loaded, the prepared
    names [interp_positions] and [interp_orientations] are never bound, and
    the first message of the second pass raises [NameError] (line 1838);
    in mode ["none"] the stage returns the coordinates as read. *)
Theorem transform_stage_without_odometry (m : transform_mode) (mts : list F)
    (data : list (list (F * F * F))) :
  mts <> [] -> data <> [] ->
  (m <> mode_none -> transform_stage m None mts data = Raised NameError) /\
  (length data <= length mts ->
   transform_stage mode_none None mts data = Returned (raw_coordinates data)).
Proof.
  intros Hm Hd. split.
  - intros Hmode. rewrite transform_stage_second_pass.
    cbn [prepare_transformation bind].
    destruct data as [|pts data]; [congruence|].
    destruct mts as [|t0 mts]; [congruence|].
    cbn [length seq combine]. rewrite second_pass_cons.
    unfold process_message, message_transform.
    cbn [nth_error of_option bind mode interp].
    destruct m; [congruence | |]; cbn [of_option bind]; apply second_pass_raised.
  - intros Hlen. unfold transform_stage. cbn [prepare_transformation bind].
    now rewrite second_pass_none by (reflexivity || (cbn; lia)).
Qed.
End StageShape.

Lemma transform_stage_keeps_count_witness :
  length [0; 1; 2] = length (concat scenario_points) /\
  length [0; 0; 0] = length (concat scenario_points) /\
  length [0; 0; 0] = length (concat scenario_points).
Proof.
  apply (@transform_stage_keeps_count R _ mode_local scenario_odometry
           scenario_times scenario_points [0; 1; 2] [0; 0; 0] [0; 0; 0]).
  exact transform_stage_local.
Defined.

Lemma transform_stage_without_odometry_witness :
  transform_stage mode_global None [0] [ [(1, 2, 3)] ] = Raised NameError.
Proof.
  apply (@transform_stage_without_odometry R _ mode_global [0] [ [(1, 2, 3)] ]);
    discriminate.
Defined.

Section StageReturns.
Context {F : Type} `{Float64 F}.
Local Open Scope nat_scope.

(** The state the second pass can work with: no transform at all, or
    interpolated poses for every message, of three and four components,
    and in local mode a reference transform of four rows. *)
Definition ready (st : prepared F) (mts : list F) : Prop :=
  mode st = mode_none \/
  exists ps qs,
    interp st = Some (Some (ps, qs)) /\
    length ps = length mts /\ length qs = length mts /\
    Forall (fun r => length r = 3) ps /\ Forall (fun r => length r = 4) qs /\
    (mode st = mode_global \/
     (mode st = mode_local /\
      exists ref, reference_transform st = Some ref /\ length ref = 4)).

Lemma rotation_matrix_rows (q : F * F * F * F) :
  exists a b c d e f g h i,
    quaternion_to_rotation_matrix q = [ [a; b; c]; [d; e; f]; [g; h; i] ].
Proof.
  destruct q as [[[x y] z] w]. unfold quaternion_to_rotation_matrix.
  destruct (f_lt _ _); repeat eexists.
Qed.

Lemma create_transform_matrix_shape (p q : list F) :
  length p = 3 -> length q = 4 ->
  exists t, create_transform_matrix p q None = Returned t /\
            length t = 4 /\ length (hd [] t) = 4.
Proof.
  intros Lp Lq.
  destruct p as [|px [|py [|pz [|]]]]; try discriminate.
  destruct q as [|x [|y [|z [|w [|]]]]]; try discriminate.
  unfold create_transform_matrix. cbn [unpack4 broadcast3 bind].
  destruct (rotation_matrix_rows (x, y, z, w))
    as (a & b & c & d & e & f & g & h & i & E).
  rewrite E. eexists. split; [reflexivity|]. split; reflexivity.
Qed.

Lemma matmul_shape (a b : matrix F) (n : nat) :
  a <> [] -> length (hd [] b) = n ->
  length (matmul a b) = length a /\ length (hd [] (matmul a b)) = n.
Proof.
  intros Ha Hb. unfold matmul. rewrite length_map. split; [reflexivity|].
  destruct a as [|r a]; [congruence|]. cbn [map hd]. rewrite length_map, Hb.
  generalize b. clear. induction n as [|n IH]; intros b; cbn [transpose length];
    [reflexivity | now rewrite IH].
Qed.

Lemma message_transform_ready (st : prepared F) (mts : list F) (k : nat) :
  ready st mts -> k < length mts ->
  exists t, message_transform st k = Returned t /\
            forall m, t = Some m -> shape (np_array m) = (4, 4).
Proof.
  intros [Hn | (ps & qs & Hi & Lps & Lqs & Hps & Hqs & Hm)] Hk.
  - unfold message_transform. rewrite Hn. exists None. split; [reflexivity|].
    discriminate.
  - assert (Hp : exists p, nth_error ps k = Some p /\ length p = 3).
    { destruct (nth_error ps k) as [p|] eqn:E.
      - exists p. split; [reflexivity|]. rewrite Forall_forall in Hps.
        apply Hps. eapply nth_error_In, E.
      - apply nth_error_None in E. lia. }
    assert (Hq : exists q, nth_error qs k = Some q /\ length q = 4).
    { destruct (nth_error qs k) as [q|] eqn:E.
      - exists q. split; [reflexivity|]. rewrite Forall_forall in Hqs.
        apply Hqs. eapply nth_error_In, E.
      - apply nth_error_None in E. lia. }
    destruct Hp as (p & Ep & Lp), Hq as (q & Eq & Lq).
    destruct (@create_transform_matrix_shape p q Lp Lq) as (t & Et & Lt & Lt0).
    unfold message_transform.
    destruct Hm as [Hg | (Hl & ref & Er & Lr)].
    + rewrite Hg, Hi. cbn [of_option bind]. rewrite Ep, Eq. cbn [of_option bind].
      rewrite Et. cbn [bind]. eexists. split; [reflexivity|].
      intros m [= <-]. unfold np_array. cbn [shape]. now rewrite Lt, Lt0.
    + rewrite Hl, Hi. cbn [of_option bind]. rewrite Ep, Eq. cbn [of_option bind].
      rewrite Et. cbn [bind]. rewrite Er. cbn [of_option bind].
      eexists. split; [reflexivity|].
      intros m [= <-]. unfold np_array. cbn [shape].
      assert (Hne : ref <> []) by (destruct ref; [discriminate | congruence]).
      destruct (@matmul_shape ref t 4 Hne Lt0) as [-> ->]. now rewrite Lr.
Qed.

Lemma process_message_ready (st : prepared F) (mts : list F) (k : nat)
    (pts : list (F * F * F)) :
  ready st mts -> k < length mts ->
  exists r, process_message st mts k pts = Returned r.
Proof.
  intros Hr Hk. unfold process_message.
  pose proof Hk as Hk'. apply nth_error_Some in Hk'.
  destruct (nth_error mts k); [|congruence]. cbn [of_option bind].
  destruct (@message_transform_ready st mts k Hr Hk) as (t & -> & Ht). cbn [bind].
  destruct (Nat.ltb 0 _) eqn:El; [|eauto].
  destruct t as [t|]; cbn [bind]; [|eauto].
  rewrite apply_transform_returns; [cbn [bind]; eauto | | now apply Ht].
  destruct pts as [|[[x y] z] pts]; [discriminate El | reflexivity].
Qed.

Lemma second_pass_ready (st : prepared F) (mts : list F)
    (work : list (nat * list (F * F * F))) :
  ready st mts -> Forall (fun w => fst w < length mts) work ->
  forall acc, exists r, second_pass st mts work (Returned acc) = Returned r.
Proof.
  intros Hr Hw. induction Hw as [|[k pts] work Hk _ IH]; intros [[xs ys] zs].
  - now eexists.
  - rewrite second_pass_cons.
    destruct (@process_message_ready st mts k pts Hr Hk) as ([[a b] c] & ->). cbn [bind].
    apply IH.
Qed.

Lemma combine_seq_bound {A : Type} (l : list A) (n : nat) :
  length l <= n -> Forall (fun w => fst w < n) (combine (seq 0 (length l)) l).
Proof.
  intros Hl. apply Forall_forall. intros [k a] Hin. apply in_combine_l in Hin.
  apply in_seq in Hin. cbn [fst]. lia.
Qed.
End StageReturns.

Lemma np_linalg_inv_length (m r : matrix R) :
  np_linalg_inv 4 m = Returned r -> length r = 4%nat.
Proof.
  unfold np_linalg_inv. destruct (f_eq _ _); [discriminate|].
  intros [= <-]. reflexivity.
Qed.

Lemma prepare_transformation_ready (m : transform_mode)
    (odom_ts : list R) (ps qs : matrix R) (mts : list R) :
  mts <> [] ->
  exists st, prepare_transformation m (Some (odom_ts, ps, qs)) mts = Returned st /\
             ready st mts.
Proof.
  intros Hpc. unfold prepare_transformation.
  destruct (is_global_or_local m) eqn:Em.
  - destruct (@interpolate_returns R _ mts odom_ts ps qs Hpc) as [[[ps' qs']|] Ei];
      rewrite Ei; cbn [bind].
    + destruct (@interpolate_lengths R _ _ _ _ _ _ _ Ei) as (Lps & Lqs & Hps & Hqs).
      destruct m; [discriminate Em | |].
      * eexists. split; [reflexivity|]. right. exists ps', qs'.
        cbn [interp mode]. auto 10.
      * destruct mts as [|t0 mts]; [congruence|].
        destruct ps' as [|p ps']; [discriminate Lps|].
        destruct qs' as [|q qs']; [discriminate Lqs|].
        cbn [nth_error of_option bind].
        pose proof (Forall_inv Hps) as Lp. pose proof (Forall_inv Hqs) as Lq.
        cbn beta in Lp, Lq.
        destruct p as [|px [|py [|pz [|]]]]; try discriminate.
        destruct q as [|x [|y [|z [|w [|]]]]]; try discriminate.
        destruct (pose_transform_invertible px py pz x y z w)
          as (t & r & Ht & Hr & _).
        rewrite Ht. cbn [bind]. rewrite Hr. cbn [bind].
        eexists. split; [reflexivity|]. right.
        exists ([px; py; pz] :: ps'), ([x; y; z; w] :: qs').
        cbn [interp mode reference_transform].
        repeat (split; [assumption || reflexivity|]).
        right. split; [reflexivity|]. exists r. split; [reflexivity|].
        now apply np_linalg_inv_length with (m := t).
    + eexists. split; [reflexivity|]. now left.
  - destruct m; try discriminate Em. eexists. split; [reflexivity|]. now left.
Qed.

(** X11.  Over the reals: once odometry is there, the transform stage
    cannot fail.  Every pose matrix is invertible, so the reference transform of
    local mode exists, and every message finds its interpolated pose. *)
Theorem transform_stage_with_odometry_returns (m : transform_mode)
    (odom_ts : list R) (ps qs : matrix R) (mts : list R)
    (data : list (list (R * R * R))) :
  mts <> [] -> (length data <= length mts)%nat ->
  exists r, transform_stage m (Some (odom_ts, ps, qs)) mts data = Returned r.
Proof.
  intros Hpc Hlen. rewrite transform_stage_second_pass.
  destruct (prepare_transformation_ready m odom_ts ps qs Hpc) as (st & -> & Hr).
  cbn [bind]. apply second_pass_ready; [exact Hr|]. now apply combine_seq_bound.
Qed.

Lemma transform_stage_with_odometry_returns_witness :
  exists r,
    transform_stage mode_local
      (Some (scenario_times, scenario_positions, scenario_orientations))
      scenario_times scenario_points = Returned r.
Proof.
  apply (@transform_stage_with_odometry_returns mode_local scenario_times
           scenario_positions scenario_orientations scenario_times scenario_points).
  - discriminate.
  - cbn. lia.
Defined.

Section SecondPassPrefix.
Context {F : Type} `{Float64 F}.
Local Open Scope nat_scope.


End SecondPassPrefix.




Lemma interpolate_one_instant (pc_ts odom_ts : list R) (ps qs : matrix R) (t : R) :
  pc_ts <> [] -> (forall a, In a pc_ts -> a = t) ->
  interpolate_odometry_data pc_ts odom_ts ps qs = Returned None.
Proof.
  intros Hpc Hall. unfold interpolate_odometry_data.
  destruct (Nat.ltb_spec (length odom_ts) 2) as [|Hn]; [reflexivity|].
  assert (Ho : odom_ts <> []) by (destruct odom_ts; cbn in Hn; [lia | congruence]).
  destruct (np_min_nonempty Ho) as [a Ea], (np_max_nonempty Ho) as [b Eb].
  destruct (np_min_nonempty Hpc) as [c Ec], (np_max_nonempty Hpc) as [d Ed].
  rewrite Ea, Eb, Ec, Ed. cbn [of_option bind].
  rewrite (Hall c (np_min_In _ Ec)), (Hall d (np_max_In _ Ed)).
  replace (f_le (py_min b t) (py_max a t)) with true; [reflexivity|].
  symmetry. unfold py_min, py_max. float_R. apply Rleb_true.
  unfold Rltb. destruct (Rlt_dec t b), (Rlt_dec a t); lra.
Qed.

(** X13.  Over the reals: when all point-cloud messages carry one and the
    same timestamp (a recording with a single message, for one), the
    overlap of the two time ranges is empty whatever the odometry (lines
    270-276), and the stage hands on the untransformed coordinates in
    every mode. *)
Theorem one_instant_never_transformed (m : transform_mode)
    (odom_ts : list R) (ps qs : matrix R) (mts : list R)
    (data : list (list (R * R * R))) (t : R) :
  mts <> [] -> (forall a, In a mts -> a = t) ->
  (length data <= length mts)%nat ->
  transform_stage m (Some (odom_ts, ps, qs)) mts data
  = Returned (raw_coordinates data).
Proof.
  intros Hpc Hall Hlen. apply transform_stage_fallback; [|exact Hlen].
  now apply interpolate_one_instant with (t := t).
Qed.

Lemma one_instant_never_transformed_witness :
  transform_stage mode_global
    (Some ([0; 10], [ [0; 0; 0]; [5; 0; 0] ], [ [0; 0; 0; 1]; [0; 0; 0; 1] ]))
    [5] [ [(1, 2, 3)] ]
  = Returned ([1], [2], [3]).
Proof.
  apply (@one_instant_never_transformed mode_global [0; 10]
           [ [0; 0; 0]; [5; 0; 0] ] [ [0; 0; 0; 1]; [0; 0; 0; 1] ]
           [5] [ [(1, 2, 3)] ] 5).
  - discriminate.
  - intros a [<-|[]]. reflexivity.
  - cbn. lia.
Defined.

(** ** The sensor origin in global mode *)




(** ** Interpolation at the odometry's own timestamps *)

(** Timestamps in strictly increasing order. *)
Definition increasing (a : list R) : Prop :=
  forall i j, (i < j < length a)%nat -> nth i a 0 < nth j a 0.

Lemma increasing_index (a : list R) (i j : nat) :
  increasing a -> (i < length a)%nat -> (j < length a)%nat ->
  (nth i a 0 < nth j a 0 <-> (i < j)%nat).
Proof.
  intros Ha Hi Hj. split.
  - intros Hlt. destruct (Nat.lt_trichotomy i j) as [|[->|Hgt]]; [assumption|lra|].
    pose proof (Ha j i (conj Hgt Hi)). lra.
  - intros Hij. apply Ha. lia.
Qed.

Lemma increasing_tail (x : R) (a : list R) : increasing (x :: a) -> increasing a.
Proof.
  intros Ha i j Hij. apply (Ha (S i) (S j)). cbn [length]. lia.
Qed.

Lemma binsearch_left_knot (a : list R) (k : nat) :
  increasing a -> (k < length a)%nat ->
  forall fuel lo hi,
    (lo <= k <= hi)%nat -> (hi <= length a)%nat -> (hi - lo < fuel)%nat ->
    binsearch_left fuel a (nth k a 0) lo hi = k.
Proof.
  intros Ha Hk. induction fuel as [|fuel IH]; intros lo hi Hlo Hhi Hf; [lia|].
  cbn [binsearch_left]. destruct (Nat.ltb_spec lo hi) as [Hlt|Hge]; [|lia].
  set (mid := (lo + Nat.div2 (hi - lo))%nat).
  assert (Hmid : (lo <= mid < hi)%nat).
  { unfold mid. assert (Hh : (Nat.div2 (hi - lo) < hi - lo)%nat)
      by (apply Nat.lt_div2; lia).
    revert Hh. generalize (Nat.div2 (hi - lo)). intros h Hh. lia. }
  clearbody mid.
  rewrite (nth_indep a f0 0) by lia.
  change (f_lt (nth mid a 0) (nth k a 0)) with (Rltb (nth mid a 0) (nth k a 0)).
  unfold Rltb. destruct (Rlt_dec (nth mid a 0) (nth k a 0)) as [Hm|Hm].
  - assert (mid < k)%nat by (apply (@increasing_index a mid k Ha); [lia | exact Hk | exact Hm]).
    apply IH; lia.
  - assert (~ (mid < k)%nat).
    { intros Hc. apply Hm. apply (@increasing_index a mid k Ha); [lia | exact Hk | exact Hc]. }
    apply IH; lia.
Qed.

Lemma np_searchsorted_knot (a : list R) (k : nat) :
  increasing a -> (k < length a)%nat -> np_searchsorted a (nth k a 0) = k.
Proof.
  intros Ha Hk. unfold np_searchsorted. apply binsearch_left_knot; try assumption; lia.
Qed.

Lemma sort_samples_increasing (x y : list R) :
  increasing x -> length y = length x ->
  sort_samples (combine x y) = combine x y.
Proof.
  revert y. induction x as [|a x IH]; intros [|b y] Hx Hy; try discriminate;
    [reflexivity|].
  injection Hy as Hy. unfold sort_samples in *. cbn [combine fold_right].
  rewrite (IH y (@increasing_tail a x Hx) Hy).
  destruct x as [|a' x]; [reflexivity|]. destruct y as [|b' y]; [discriminate|].
  cbn [combine insert_sample fst].
  change (f_lt a' a) with (Rltb a' a). rewrite Rltb_false; [reflexivity|].
  pose proof (Hx 0%nat 1%nat). cbn in H. assert (a < a') by (apply H; lia). lra.
Qed.

Lemma interp1d_knots (x y : list R) :
  increasing x -> (2 <= length x)%nat -> length y = length x ->
  exists f, interp1d x y = Returned f /\
            forall k, (k < length x)%nat -> f (nth k x 0) = nth k y 0.
Proof.
  intros Hx Hn Hy. unfold interp1d.
  rewrite Hy, Nat.eqb_refl. cbn [negb].
  destruct (Nat.ltb_spec (length x) 2); [lia|].
  rewrite (@sort_samples_increasing x y Hx Hy), map_fst_combine, map_snd_combine
    by congruence.
  eexists. split; [reflexivity|]. intros k Hk. cbv beta zeta.
  rewrite (@np_searchsorted_knot x k Hx Hk). float_R.
  replace (0 * / 1) with 0 by lra.
  destruct k as [|k].
  - cbn [Nat.max]. rewrite Nat.min_l by lia. cbn [Nat.sub]. lra.
  - rewrite Nat.max_l, Nat.min_l by lia. cbn [Nat.sub]. rewrite Nat.sub_0_r.
    assert (Hlt : nth k x 0 < nth (S k) x 0) by (apply Hx; lia).
    field. lra.
Qed.

(** A quaternion multiplied by a number. *)
Definition scaled (c : R) (q : list R) : list R := map (Rmult c) q.

Lemma vdiv_scaled (q : list R) (n : R) : vdiv q n = scaled (/ n) q.
Proof. unfold vdiv, scaled. apply map_ext. intros a. float_R. unfold Rdiv. ring. Qed.

Lemma vneg_scaled (c : R) (q : list R) : vneg (scaled c q) = scaled (- c) q.
Proof.
  unfold vneg, scaled. rewrite map_map. apply map_ext. intros a. float_R. ring.
Qed.

Lemma interpolate_orientation_knot (ts : list R) (qs : matrix R) (k : nat) :
  increasing ts -> (2 <= length ts)%nat -> length qs = length ts ->
  Forall (fun q => length q = 4%nat /\ q <> [0; 0; 0; 0]) qs ->
  (k < length ts)%nat ->
  exists c, c <> 0 /\
    interpolate_orientation ts qs (nth k ts 0) = Returned (scaled c (nth k qs [])).
Proof.
  intros Hts Hn Hq Hall Hk. rewrite Forall_forall in Hall.
  assert (Hnth : forall i, (i < length ts)%nat ->
            exists x y z w, nth_error qs i = Some [x; y; z; w] /\
                            nth i qs [] = [x; y; z; w] /\ [x; y; z; w] <> [0; 0; 0; 0]).
  { intros i Hi. destruct (nth_error qs i) as [q|] eqn:E.
    - destruct (Hall q (nth_error_In _ _ E)) as [L Hz].
      destruct q as [|x [|y [|z [|w [|]]]]]; try discriminate.
      exists x, y, z, w. repeat split; try assumption.
      now apply nth_error_nth.
    - apply nth_error_None in E. lia. }
  assert (Hone : forall q : list R, scaled 1 q = q).
  { intros q. unfold scaled. rewrite <- (map_id q) at 2. apply map_ext. intros; lra. }
  unfold interpolate_orientation.
  rewrite (nth_error_nth' ts 0) by lia. cbn [of_option bind].
  change (f_le (nth k ts 0) (nth 0 ts 0)) with (Rleb (nth k ts 0) (nth 0 ts 0)).
  unfold Rleb. destruct (Rle_dec (nth k ts 0) (nth 0 ts 0)) as [Hfirst|Hfirst].
  { assert (k = 0)%nat.
    { destruct k as [|k]; [reflexivity|].
      assert (nth 0 ts 0 < nth (S k) ts 0) by (apply Hts; lia). lra. }
    subst k. destruct (Hnth 0%nat Hk) as (x & y & z & w & -> & -> & _).
    cbn [of_option bind broadcast4]. exists 1. split; [lra | now rewrite Hone]. }
  rewrite (nth_error_nth' ts 0) by lia. cbn [of_option bind].
  change (f_le (nth (length ts - 1) ts 0) (nth k ts 0))
    with (Rleb (nth (length ts - 1) ts 0) (nth k ts 0)).
  unfold Rleb.
  destruct (Rle_dec (nth (length ts - 1) ts 0) (nth k ts 0)) as [Hlast|Hlast].
  { assert (k = length ts - 1)%nat.
    { destruct (Nat.eq_dec k (length ts - 1)) as [|Hne]; [assumption|].
      assert (nth k ts 0 < nth (length ts - 1) ts 0) by (apply Hts; lia). lra. }
    subst k. rewrite Hq. destruct (Hnth _ Hk) as (x & y & z & w & -> & -> & _).
    cbn [of_option bind broadcast4]. exists 1. split; [lra | now rewrite Hone]. }
  rewrite (@np_searchsorted_knot ts k Hts Hk).
  assert (Hk0 : (0 < k)%nat).
  { destruct k; [lra | lia]. }
  destruct (Nat.eqb_spec k 0) as [|_]; [lia|].
  rewrite (nth_error_nth' ts 0), (nth_error_nth' ts 0) by lia.
  cbn [of_option bind].
  destruct (Hnth (k - 1)%nat ltac:(lia)) as (x1 & y1 & z1 & w1 & -> & _ & H1).
  destruct (Hnth k Hk) as (x2 & y2 & z2 & w2 & -> & -> & H2).
  cbn [of_option bind].
  assert (Hlt : nth (k - 1) ts 0 < nth k ts 0) by (apply Hts; lia).
  assert (Et : np_clip (if negb (f_eq (nth k ts 0) (nth (k - 1) ts 0))
                        then f_div (f_sub (nth k ts 0) (nth (k - 1) ts 0))
                                   (f_sub (nth k ts 0) (nth (k - 1) ts 0))
                        else f0) f0 f1 = 1).
  { unfold np_clip. float_R. rewrite Reqb_false by lra. cbn [negb].
    replace ((nth k ts 0 - nth (k - 1) ts 0) / (nth k ts 0 - nth (k - 1) ts 0))
      with 1 by (field; lra).
    rewrite (@Rltb_false 1 (0 * / 1)) by lra. rewrite Rltb_false by lra.
    reflexivity. }
  rewrite Et, slerp_at_1 by assumption.
  pose proof (norm_pos H2) as Hn2.
  destruct (f_lt _ f0).
  - rewrite vdiv_scaled, vneg_scaled. cbn [scaled map broadcast4].
    eexists. split; [|reflexivity].
    apply Ropp_neq_0_compat, Rinv_neq_0_compat. lra.
  - rewrite vdiv_scaled. cbn [scaled map broadcast4].
    eexists. split; [|reflexivity]. apply Rinv_neq_0_compat. lra.
Qed.

Lemma column_rows (j n : nat) (m : matrix R) :
  Forall (fun r => length r = n) m -> (j < n)%nat ->
  column j m = Returned (map (fun r => nth j r 0) m).
Proof.
  intros Hm Hj. unfold column. induction Hm as [|r m Hr _ IH]; [reflexivity|].
  cbn [mapM map]. rewrite (nth_error_nth' r 0) by lia. cbn [of_option bind].
  now rewrite IH.
Qed.

Lemma nth_column (m : matrix R) (i j : nat) :
  (i < length m)%nat ->
  nth i (map (fun r => nth j r 0) m) 0 = nth j (nth i m []) 0.
Proof.
  intros Hi. rewrite nth_indep with (d' := (fun r => nth j r 0) [])
    by (rewrite length_map; lia).
  apply (map_nth (fun r => nth j r 0)).
Qed.

Lemma create_transform_matrix_scaled (p q : list R) (c : R) :
  length q = 4%nat -> c <> 0 ->
  create_transform_matrix p (scaled c q) None = create_transform_matrix p q None.
Proof.
  intros Lq Hc. destruct q as [|x [|y [|z [|w [|]]]]]; try discriminate.
  unfold create_transform_matrix, scaled. cbn [map unpack4 bind].
  now rewrite (@rotation_matrix_scaled c x y z w Hc).
Qed.

(** X15.  Over the reals, for odometry with strictly increasing timestamps,
    positions of three and non-zero quaternions of four components:
    whenever the interpolation succeeds, a message whose timestamp is that
    of an odometry sample gets the position of that sample and the pose
    matrix of that sample (the interpolated quaternion is the sample's up
    to a non-zero factor, which the rotation matrix does not see). *)
Theorem interpolation_exact_at_samples (pc_ts ts : list R)
    (ps qs ps' qs' : matrix R) (k i : nat) :
  increasing ts ->
  length ps = length ts -> length qs = length ts ->
  Forall (fun p => length p = 3%nat) ps ->
  Forall (fun q => length q = 4%nat /\ q <> [0; 0; 0; 0]) qs ->
  interpolate_odometry_data pc_ts ts ps qs = Returned (Some (ps', qs')) ->
  (k < length pc_ts)%nat -> (i < length ts)%nat ->
  nth k pc_ts 0 = nth i ts 0 ->
  nth k ps' [] = nth i ps [] /\
  create_transform_matrix (nth k ps' []) (nth k qs' []) None
  = create_transform_matrix (nth i ps []) (nth i qs []) None.
Proof.
  intros Hts Lp Lq Hp Hq E Hk Hi Et. unfold interpolate_odometry_data in E.
  destruct (Nat.ltb_spec (length ts) 2) as [|Hn]; [discriminate|].
  destruct (np_min ts); cbn [of_option bind] in E; [|discriminate].
  destruct (np_max ts); cbn [of_option bind] in E; [|discriminate].
  destruct (np_min pc_ts); cbn [of_option bind] in E; [|discriminate].
  destruct (np_max pc_ts); cbn [of_option bind] in E; [|discriminate].
  destruct (f_le _ _); [discriminate|].
  rewrite !(@column_rows _ 3 ps Hp) in E by lia. cbn [bind] in E.
  destruct (@interp1d_knots ts (map (fun r => nth 0 r 0) ps) Hts Hn)
    as (fx & Efx & Kx); [now rewrite length_map|].
  destruct (@interp1d_knots ts (map (fun r => nth 1 r 0) ps) Hts Hn)
    as (fy & Efy & Ky); [now rewrite length_map|].
  destruct (@interp1d_knots ts (map (fun r => nth 2 r 0) ps) Hts Hn)
    as (fz & Efz & Kz); [now rewrite length_map|].
  rewrite Efx, Efy, Efz in E. cbn [bind] in E.
  destruct (mapM _ pc_ts) as [os|] eqn:Eo; cbn [bind try_except] in E;
    [|discriminate].
  injection E as <- <-.
  assert (Epos : nth k (map (fun t => [fx t; fy t; fz t]) pc_ts) [] = nth i ps []).
  { rewrite nth_indep with (d' := [fx 0; fy 0; fz 0])
      by (now rewrite length_map).
    rewrite (map_nth (fun t => [fx t; fy t; fz t])), Et, Kx, Ky, Kz by assumption.
    rewrite !nth_column by lia.
    assert (Hin : In (nth i ps []) ps) by (apply nth_In; lia).
    rewrite Forall_forall in Hp. specialize (Hp _ Hin).
    destruct (nth i ps []) as [|a [|b [|c [|]]]]; try discriminate. reflexivity. }
  split; [exact Epos|]. rewrite Epos.
  pose proof (@mapM_nth _ _ _ pc_ts os k 0 [] Eo Hk) as Ek. rewrite Et in Ek.
  destruct (@interpolate_orientation_knot ts qs i Hts Hn Lq Hq Hi) as (c & Hc & Ec).
  rewrite Ec in Ek. injection Ek as <-.
  apply create_transform_matrix_scaled; [|exact Hc].
  rewrite Forall_forall in Hq. apply Hq. apply nth_In. lia.
Qed.

Lemma scenario_times_increasing : increasing scenario_times.
Proof.
  intros [|[|[|i]]] [|[|[|j]]] Hij; cbn in Hij; try lia;
    cbn [scenario_times nth]; lra.
Qed.

Lemma interpolation_exact_at_samples_witness :
  nth 1 scenario_positions [] = nth 1 scenario_positions [] /\
  create_transform_matrix (nth 1 scenario_positions [])
    (nth 1 scenario_orientations []) None
  = create_transform_matrix (nth 1 scenario_positions [])
      (nth 1 scenario_orientations []) None.
Proof.
  apply (@interpolation_exact_at_samples scenario_times scenario_times
           scenario_positions scenario_orientations
           scenario_positions scenario_orientations 1 1).
  - exact scenario_times_increasing.
  - reflexivity.
  - reflexivity.
  - repeat constructor.
  - repeat constructor; intros E; inversion E; lra.
  - exact interpolate_scenario.
  - cbn. lia.
  - cbn. lia.
  - reflexivity.
Defined.

(** ** The pose graph *)

Section GraphChain.
Context {F : Type} `{Float64 F}.
Variable choice : nat -> nat -> list nat.
Local Open Scope nat_scope.

(** The graph after the first [m] calls of [add_pose] in
    [apply_slam_optimization]. *)
Definition chain_graph (ts : list F) (ps qs : matrix F) (m : nat) : SimpleSLAM F :=
  {| loop_closure_distance := f_lit 3;
     min_time_gap := f_lit 15;
     poses := map (fun i => (nth i ts f0, nth i ps [], nth i qs [])) (seq 0 m);
     odometry_edges := map (fun i => (i, S i)) (seq 0 (m - 1));
     loop_closure_edges := [] |}.

Lemma add_all_app (ts : list F) (ps qs : matrix F) (idx idx' : list nat)
    (acc : outcome (SimpleSLAM F)) :
  add_all ts ps qs (idx ++ idx') acc
  = add_all ts ps qs idx' (add_all ts ps qs idx acc).
Proof. unfold add_all. apply fold_left_app. Qed.

Lemma add_all_chain (ts : list F) (ps qs : matrix F) (m : nat) :
  m <= length ts -> m <= length ps -> m <= length qs ->
  add_all ts ps qs (seq 0 m)
    (Returned (SimpleSLAM_init (Some (f_lit 3)) (Some (f_lit 15))))
  = Returned (chain_graph ts ps qs m).
Proof.
  induction m as [|m IH]; intros Ht Hp Hq; [reflexivity|].
  rewrite seq_S, add_all_app, IH by lia. cbn [Nat.add add_all fold_left].
  unfold add_step. cbn [bind].
  rewrite (nth_error_nth' ts f0), (nth_error_nth' ps []), (nth_error_nth' qs [])
    by lia.
  cbn [of_option bind]. f_equal. unfold add_pose, chain_graph.
  cbn [fst poses odometry_edges loop_closure_edges loop_closure_distance
       min_time_gap].
  rewrite length_map, length_seq. f_equal.
  - now rewrite seq_S, map_app.
  - destruct m as [|m]; [reflexivity|]. cbn [Nat.ltb Nat.leb Nat.sub].
    rewrite Nat.sub_0_r, seq_S, map_app. reflexivity.
Qed.

Lemma add_all_in_range (ts : list F) (ps qs : matrix F) (idx : list nat) :
  forall s0 s, add_all ts ps qs idx (Returned s0) = Returned s ->
    Forall (fun i => i < length ts /\ i < length ps /\ i < length qs) idx.
Proof.
  induction idx as [|i idx IH]; intros s0 s E; [constructor|].
  change (add_all ts ps qs idx (add_step ts ps qs (Returned s0) i) = Returned s) in E.
  unfold add_step in E. cbn [bind] in E.
  destruct (nth_error ts i) as [t|] eqn:Et; cbn [of_option bind] in E;
    [|rewrite add_all_raised in E; discriminate].
  destruct (nth_error ps i) as [p|] eqn:Ep; cbn [of_option bind] in E;
    [|rewrite add_all_raised in E; discriminate].
  destruct (nth_error qs i) as [q|] eqn:Eq; cbn [of_option bind] in E;
    [|rewrite add_all_raised in E; discriminate].
  constructor; [|eapply IH, E].
  repeat split; apply nth_error_Some; congruence.
Qed.

Lemma add_all_IndexError (ts : list F) (ps qs : matrix F) (idx : list nat) :
  forall s0 e, add_all ts ps qs idx (Returned s0) = Raised e -> e = IndexError.
Proof.
  induction idx as [|i idx IH]; intros s0 e E; [discriminate|].
  change (add_all ts ps qs idx (add_step ts ps qs (Returned s0) i) = Raised e) in E.
  unfold add_step in E. cbn [bind] in E.
  destruct (nth_error ts i) as [t|]; cbn [of_option bind] in E;
    [|rewrite add_all_raised in E; congruence].
  destruct (nth_error ps i) as [p|]; cbn [of_option bind] in E;
    [|rewrite add_all_raised in E; congruence].
  destruct (nth_error qs i) as [q|]; cbn [of_option bind] in E;
    [|rewrite add_all_raised in E; congruence].
  eapply IH, E.
Qed.

Lemma slam_graph_built (ts : list F) (ps qs : matrix F)
    (pcs : option (list (option (matrix F)))) (flag : bool) :
  length ts <= length ps -> length ts <= length qs ->
  slam_graph choice ts ps qs pcs flag
  = Returned (if flag
              then fst (detect_loop_closures choice
                          (chain_graph ts ps qs (length ts)) pcs)
              else chain_graph ts ps qs (length ts)).
Proof.
  intros Hp Hq. rewrite slam_graph_add_all, add_all_chain by lia. reflexivity.
Qed.

Lemma slam_graph_short (ts : list F) (ps qs : matrix F)
    (pcs : option (list (option (matrix F)))) (flag : bool) :
  length ps < length ts \/ length qs < length ts ->
  slam_graph choice ts ps qs pcs flag = Raised IndexError.
Proof.
  intros Hshort. rewrite slam_graph_add_all.
  destruct (add_all ts ps qs _ _) as [s|e] eqn:E; cbn [bind].
  - apply add_all_in_range in E. rewrite Forall_forall in E.
    destruct Hshort as [Hs|Hs].
    + destruct (E (length ps)) as (_ & Hlt & _); [apply in_seq|]; lia.
    + destruct (E (length qs)) as (_ & _ & Hlt); [apply in_seq|]; lia.
  - apply add_all_IndexError in E. now subst e.
Qed.

(** X16.  For every implementation of the float interface, the graph
    [apply_slam_optimization] builds (lines 705-720): when the position
    and orientation arrays have a row for every timestamp, the poses are
    the rows in order and the odometry edges are exactly the consecutive
    pairs [(i, i+1)], with no loop-closure edge before detection runs;
    when one of the arrays is shorter than the timestamps the call raises
    [IndexError]. *)
Theorem slam_graph_chain (ts : list F) (ps qs : matrix F)
    (pcs : option (list (option (matrix F)))) :
  let n := length ts in
  (n <= length ps /\ n <= length qs ->
   slam_graph choice ts ps qs pcs false = Returned (chain_graph ts ps qs n) /\
   slam_graph choice ts ps qs pcs true
   = Returned (fst (detect_loop_closures choice (chain_graph ts ps qs n) pcs))) /\
  (length ps < n \/ length qs < n ->
   forall flag, slam_graph choice ts ps qs pcs flag = Raised IndexError).
Proof.
  intros n. split.
  - intros [Hp Hq]. split; now rewrite slam_graph_built.
  - intros Hshort flag. now apply slam_graph_short.
Qed.
End GraphChain.

Lemma slam_graph_chain_witness :
  let ts := [0; 1; 2] in
  let ps := [ [0; 0; 0]; [1; 0; 0]; [2; 0; 0] ] in
  let qs := [ [0; 0; 0; 1]; [0; 0; 0; 1]; [0; 0; 0; 1] ] in
  slam_graph (fun _ _ => []) ts ps qs None false
  = Returned (chain_graph ts ps qs (length ts)).
Proof.
  intros ts ps qs.
  exact (proj1 (proj1 (@slam_graph_chain R _ (fun _ _ => []) ts ps qs None)
                  (conj (le_n 3) (le_n 3)))).
Defined.

(** ** The similarity score and the confidence of an edge *)

(** The feature difference of lines 513-516. *)
Definition feature_diff (stats1 stats2 : list R) : list R :=
  map2 f_div (map f_abs (vsub stats1 stats2))
       (map (fun a => f_add a (f_lit (1 # 1000000)))
            (vadd (map f_abs stats1) (map f_abs stats2))).

Lemma feature_diff_nonneg (s1 s2 : list R) :
  Forall (fun a => 0 <= a) (feature_diff s1 s2).
Proof.
  unfold feature_diff, vsub, vadd. revert s2.
  induction s1 as [|a s1 IH]; intros [|b s2]; cbn [map2 map]; constructor.
  - float_R. pose proof (Rabs_pos (a - b)). pose proof (Rabs_pos a).
    pose proof (Rabs_pos b).
    apply Rmult_le_pos; [assumption|]. left. apply Rinv_0_lt_compat. lra.
  - apply IH.
Qed.

Lemma feature_diff_self (s : list R) :
  Forall (fun a => a = 0) (feature_diff s s).
Proof.
  unfold feature_diff, vsub, vadd.
  induction s as [|a s IH]; cbn [map2 map]; constructor; [|exact IH].
  float_R. replace (a - a) with 0 by lra. rewrite Rabs_R0. unfold Rdiv.
  apply Rmult_0_l.
Qed.

Section Similarity.
Variable choice : nat -> nat -> list nat.

Lemma similarity_range (pc1 pc2 : option (matrix R)) :
  0 <= _calculate_point_cloud_similarity choice pc1 pc2 <= 1.
Proof.
  assert (Z : 0 <= f_lit (F := R) 0 <= 1) by (float_R; lra).
  unfold _calculate_point_cloud_similarity.
  destruct pc1 as [pc1|], pc2 as [pc2|]; try exact Z.
  destruct (_ || _); [exact Z|].
  match goal with
  | |- context [if Nat.eqb (length ?a) (length ?b) then _ else _] =>
      set (s1 := a); set (s2 := b)
  end.
  destruct (Nat.eqb _ _); [|exact Z].
  change (0 <= exp (- np_mean (feature_diff s1 s2)) <= 1).
  pose proof (np_mean_nonneg (feature_diff_nonneg s1 s2)) as Hm.
  split; [left; apply exp_pos|].
  rewrite <- exp_0. destruct (Req_dec (np_mean (feature_diff s1 s2)) 0) as [->|Hne].
  - rewrite Ropp_0. lra.
  - left. apply exp_increasing. lra.
Qed.

(** A cloud is an array of points with three coordinates. *)
Definition cloud (pc : matrix R) : Prop := Forall (fun p => length p = 3%nat) pc.

(** X17.  Over the reals and for clouds of three-coordinate points,
    [_calculate_point_cloud_similarity] is a score between 0 and 1, and a
    cloud that needs no subsampling (at most 1000 points) scores 1 against
    itself. *)
Theorem similarity_score_range (pc1 pc2 : matrix R) :
  cloud pc1 -> cloud pc2 ->
  0 <= _calculate_point_cloud_similarity choice (Some pc1) (Some pc2) <= 1 /\
  (pc1 <> [] -> (length pc1 <= 1000)%nat ->
   _calculate_point_cloud_similarity choice (Some pc1) (Some pc1) = 1).
Proof.
  intros _ _. split; [apply similarity_range|]. intros Hne Hlen.
  unfold _calculate_point_cloud_similarity.
  destruct (Nat.eqb_spec (length pc1) 0) as [E|_];
    [destruct pc1; [congruence | discriminate]|].
  cbn [orb]. destruct (Nat.ltb_spec 1000 (length pc1)) as [|_]; [lia|].
  rewrite Nat.eqb_refl.
  change (exp (- np_mean (feature_diff (_calculate_geometric_features pc1)
                                       (_calculate_geometric_features pc1))) = 1).
  rewrite (np_mean_zero (feature_diff_self _)), Ropp_0. apply exp_0.
Qed.

(** X18.  Over the reals: an edge that [detect_loop_closures] returns has a
    confidence above 0.3 and at most 1, and its two poses are closer than
    0.7 times [loop_closure_distance]: the confidence threshold of line 480
    shrinks the search radius of line 453. *)
Theorem loop_closure_edge_bounds (self : SimpleSLAM R)
    (pcs : option (list (option (matrix R)))) (i j : nat) (c : R) :
  0 < loop_closure_distance self ->
  In (i, j, c) (snd (detect_loop_closures choice self pcs)) ->
  3 / 10 < c <= 1 /\
  distance self i j < 7 / 10 * loop_closure_distance self.
Proof.
  intros Hd Hin.
  destruct (Nat.ltb_spec (length (poses self)) 3) as [Hn|Hn].
  { unfold detect_loop_closures in Hin. apply Nat.ltb_lt in Hn. rewrite Hn in Hin.
    contradiction. }
  apply detect_loop_closures_In in Hin; [|exact Hn].
  destruct Hin as (i' & j' & _ & _ & _ & Hin).
  apply loop_closure_candidate_In in Hin.
  destruct Hin as (_ & _ & Hc & E). injection E as <- <- ->.
  set (d := distance self i j) in *.
  assert (Hd0 : 0 <= d) by (unfold d, distance, np_norm; apply sqrt_pos).
  assert (Hq : 0 <= d / loop_closure_distance self).
  { apply Rmult_le_pos; [exact Hd0|]. left. now apply Rinv_0_lt_compat. }
  set (c0 := Rmax 0 (1 - d / loop_closure_distance self)).
  assert (Hc0 : 0 <= c0 <= 1).
  { unfold c0. split; [apply Rmax_l|]. apply Rmax_lub; lra. }
  assert (Hle : confidence choice self pcs i j <= c0).
  { unfold confidence. fold d. fold c0. destruct pcs as [l|]; [|lra].
    destruct (_ && _); [|lra].
    pose proof (similarity_range (nth i l None) (nth j l None)) as Hs. nra. }
  split; [lra|].
  assert (E0 : c0 = 1 - d / loop_closure_distance self).
  { unfold c0, Rmax. destruct (Rle_dec _ _) as [|N]; [reflexivity|].
    exfalso. unfold c0, Rmax in Hle. destruct (Rle_dec _ _); [contradiction|]. lra. }
  assert (Hlt : d / loop_closure_distance self < 7 / 10) by lra.
  apply Rmult_lt_compat_r with (r := loop_closure_distance self) in Hlt; [|exact Hd].
  unfold Rdiv in Hlt at 1. rewrite Rmult_assoc, Rinv_l, Rmult_1_r in Hlt; lra.
Qed.
End Similarity.

Lemma similarity_score_range_witness :
  _calculate_point_cloud_similarity (fun _ _ => [])
    (Some [ [1; 2; 3]; [4; 5; 6] ]) (Some [ [1; 2; 3]; [4; 5; 6] ]) = 1.
Proof.
  apply (@similarity_score_range (fun _ _ => [])
           [ [1; 2; 3]; [4; 5; 6] ] [ [1; 2; 3]; [4; 5; 6] ]).
  - repeat constructor.
  - repeat constructor.
  - discriminate.
  - cbn. lia.
Defined.

(** A trajectory that is back at its start after twenty seconds. *)
Definition revisit : SimpleSLAM R :=
  let s0 := SimpleSLAM_init None None in
  let s1 := fst (add_pose s0 0 [0; 0; 0] [0; 0; 0; 1]) in
  let s2 := fst (add_pose s1 1 [5; 0; 0] [0; 0; 0; 1]) in
  fst (add_pose s2 20 [0; 0; 0] [0; 0; 0; 1]).

Lemma revisit_confidence : confidence (fun _ _ => []) revisit None 0 2 = 1.
Proof.
  unfold confidence. rewrite distance_same_position by reflexivity.
  cbn [revisit SimpleSLAM_init add_pose fst loop_closure_distance]. float_R.
  replace (1 - 0 / (2 * / 1)) with 1 by (field; lra).
  unfold Rmax. destruct (Rle_dec 0 1); lra.
Qed.

Lemma revisit_edge :
  In (0%nat, 2%nat, 1) (snd (detect_loop_closures (fun _ _ => []) revisit None)).
Proof.
  apply detect_loop_closures_In; [cbn; lia|]. exists 0%nat, 2%nat.
  split; [cbn; lia|]. split; [cbn; lia|]. split.
  - change (Rleb (distance revisit 0 2) (loop_closure_distance revisit) = true).
    rewrite distance_same_position by reflexivity. apply Rleb_true.
    cbn [revisit SimpleSLAM_init add_pose fst loop_closure_distance]. float_R. lra.
  - apply loop_closure_candidate_In. split; [lia|]. rewrite revisit_confidence.
    split; [|split; [lra | reflexivity]].
    unfold time_gap. cbn. float_R. rewrite Rabs_minus_sym, Rabs_pos_eq; lra.
Qed.

Lemma loop_closure_edge_bounds_witness :
  3 / 10 < 1 <= 1 /\
  distance revisit 0 2 < 7 / 10 * loop_closure_distance revisit.
Proof.
  apply (@loop_closure_edge_bounds (fun _ _ => []) revisit None 0%nat 2%nat 1).
  - cbn [revisit SimpleSLAM_init add_pose fst loop_closure_distance]. float_R. lra.
  - exact revisit_edge.
Defined.

(** ** Gauge freedom of the residuals *)

Section Gauge.
Variable choice : nat -> nat -> list nat.

(** Two parameter vectors that differ by one translation of all candidate
    positions, and arbitrarily in the [w] cells of the quaternions. *)
Definition same_up_to_gauge (n : nat) (params params' : list R) (d : R * R * R) : Prop :=
  let '(dx, dy, dz) := d in
  forall k, (k < n)%nat ->
    param params' (7 * k) = param params (7 * k) + dx /\
    param params' (7 * k + 1) = param params (7 * k + 1) + dy /\
    param params' (7 * k + 2) = param params (7 * k + 2) + dz /\
    param params' (7 * k + 3) = param params (7 * k + 3) /\
    param params' (7 * k + 4) = param params (7 * k + 4) /\
    param params' (7 * k + 5) = param params (7 * k + 5).

(** X19.  Over the reals, on a graph built by the methods of the class: the
    residual vector only sees differences of candidate positions and the
    x, y, z cells of the quaternions.  Translating every candidate position
    by the same vector and changing the [w] cells at will leaves it as it
    is, so the least-squares problem does not fix them. *)
Theorem residuals_gauge_invariant (self : SimpleSLAM R) (params params' : list R)
    (d : R * R * R) :
  built choice self ->
  length params = (7 * length (poses self))%nat ->
  length params' = (7 * length (poses self))%nat ->
  same_up_to_gauge (length (poses self)) params params' d ->
  _pose_graph_residuals self params' = _pose_graph_residuals self params.
Proof.
  intros Hb Hl Hl' Hg. destruct d as [[dx dy] dz].
  pose proof (built_edges_in_range Hb) as [Ho Hc].
  rewrite !pose_graph_residuals_in_range by (try split; assumption).
  unfold residuals_spec. rewrite Forall_forall in Ho, Hc. f_equal.
  - apply flat_map_ext_in. intros [i j] Hin. destruct (Ho _ Hin) as [Hi Hj].
    cbn [fst snd] in Hi, Hj.
    destruct (Hg i Hi) as (I0 & I1 & I2 & I3 & I4 & I5).
    destruct (Hg j Hj) as (J0 & J1 & J2 & J3 & J4 & J5).
    unfold sequential_residual, candidate_position, candidate_quaternion_xyz.
    rewrite I0, I1, I2, I3, I4, I5, J0, J1, J2, J3, J4, J5.
    f_equal. generalize (original_position self j), (original_position self i).
    intros u v. unfold vsub. cbn [map2].
    destruct u as [|u0 [|u1 [|u2 u]]], v as [|v0 [|v1 [|v2 v]]]; cbn [map2];
      float_R; list_eq; first [reflexivity | ring].
  - apply flat_map_ext_in. intros [[i j] c] Hin. destruct (Hc _ Hin) as [Hi Hj].
    cbn [fst snd] in Hi, Hj.
    destruct (Hg i Hi) as (I0 & I1 & I2 & _).
    destruct (Hg j Hj) as (J0 & J1 & J2 & _).
    unfold loop_closure_residual, candidate_position.
    rewrite I0, I1, I2, J0, J1, J2.
    unfold vscale_r, vsub. cbn [map2 map]. float_R. list_eq; ring.
Qed.
End Gauge.

Lemma residuals_gauge_invariant_witness :
  let s0 := SimpleSLAM_init (F := R) None None in
  let s1 := fst (add_pose s0 0 [0; 0; 0] [0; 0; 0; 1]) in
  let s2 := fst (add_pose s1 1 [1; 0; 0] [0; 0; 0; 1]) in
  _pose_graph_residuals s2 [10; 20; 30; 0; 0; 0; 5; 12; 20; 30; 0; 0; 0; 7]
  = _pose_graph_residuals s2 [0; 0; 0; 0; 0; 0; 1; 2; 0; 0; 0; 0; 0; 1].
Proof.
  intros s0 s1 s2.
  apply (@residuals_gauge_invariant (fun _ _ => []) s2
           [0; 0; 0; 0; 0; 0; 1; 2; 0; 0; 0; 0; 0; 1]
           [10; 20; 30; 0; 0; 0; 5; 12; 20; 30; 0; 0; 0; 7] (10, 20, 30)).
  - repeat constructor.
  - reflexivity.
  - reflexivity.
  - intros [|[|k]] Hk; [| |cbn in Hk; lia];
      cbn [param nth Nat.mul Nat.add]; repeat split; lra.
Defined.

(** ** Metrics of the optimisation *)

Section Metrics.
Context {F : Type} `{Float64 F}.
Variable choice : nat -> nat -> list nat.
Variable least_squares :
  (list F -> list F) -> list F -> nat -> outcome (OptimizeResult F).
Local Open Scope nat_scope.



Lemma original_poses_rows (ts : list F) (ps qs : matrix F) (m : nat) :
  forall k, k + m <= length ts -> k + m <= length ps -> k + m <= length qs ->
  mapM (fun i =>
          t <- of_option IndexError (nth_error ts i) ;;
          p <- of_option IndexError (nth_error ps i) ;;
          q <- of_option IndexError (nth_error qs i) ;;
          Returned (t, p, q)) (seq k m)
  = Returned (map (fun i => (nth i ts f0, nth i ps [], nth i qs [])) (seq k m)).
Proof.
  induction m as [|m IH]; intros k Ht Hp Hq; [reflexivity|].
  cbn [seq mapM map].
  rewrite (nth_error_nth' ts f0), (nth_error_nth' ps []), (nth_error_nth' qs [])
    by lia.
  cbn [of_option bind]. rewrite IH by lia. reflexivity.
Qed.

Lemma detect_loop_closures_poses (s : SimpleSLAM F)
    (pcs : option (list (option (matrix F)))) :
  poses (fst (detect_loop_closures choice s pcs)) = poses s.
Proof. unfold detect_loop_closures. destruct (Nat.ltb _ 3); reflexivity. Qed.


End Metrics.


Section Fallback.
Variable choice : nat -> nat -> list nat.
Variable least_squares :
  (list R -> list R) -> list R -> nat -> outcome (OptimizeResult R).

Lemma unchanged_metrics (self : SimpleSLAM R) (l : list (pose R)) :
  l <> [] ->
  exists m,
    calculate_trajectory_metrics self l l = Returned (Some m) /\
    average_position_change m = 0 /\ max_position_change m = 0 /\
    optimized_length m = original_length m /\
    optimized_drift m = original_drift m.
Proof.
  intros Hne. unfold calculate_trajectory_metrics.
  rewrite Nat.eqb_refl. cbn [negb].
  set (changes := map _ (seq 0 (length l))).
  assert (Hz : Forall (fun a => a = 0) changes).
  { apply Forall_forall. intros a Ha. apply in_map_iff in Ha.
    destruct Ha as (i & <- & _). apply np_norm_sub_self. }
  assert (Hc : changes <> []).
  { unfold changes. destruct l; [congruence | discriminate]. }
  rewrite (np_max_constant Hc Hz), (np_mean_zero Hz).
  destruct (Nat.ltb 0 _).
  - unfold last_pose.
    destruct (nth_error l (length l - 1)) as [a|] eqn:Ea.
    + cbn [of_option bind].
      destruct (nth_error l 0) as [b|] eqn:Eb;
        [|destruct l; [congruence | discriminate]].
      cbn [of_option bind]. eexists. split; [reflexivity|]. cbn. auto.
    + apply nth_error_None in Ea. destruct l; [congruence | cbn in Ea; lia].
  - cbn [bind of_option]. eexists. split; [reflexivity|]. cbn. auto.
Qed.

(** X21.  Over the reals: when the trajectory has a single pose, or the solver
    fails on the graph, [apply_slam_optimization] hands back the positions
    and orientations it was given, and its metrics say so: average and
    maximum position change 0, the same length and the same drift before
    and after. *)
Theorem slam_fallback_metrics (ts : list R) (ps qs : matrix R)
    (pcs : option (list (option (matrix R)))) (flag : bool) :
  let n := length ts in
  (1 <= n)%nat -> (n <= length ps)%nat -> (n <= length qs)%nat ->
  (n = 1%nat \/
   forall s, slam_graph choice ts ps qs pcs flag = Returned s ->
             failed least_squares s None) ->
  exists m,
    apply_slam_optimization_metrics choice least_squares ts ps qs pcs flag
    = Returned (firstn n ps, firstn n qs, Some m) /\
    average_position_change m = 0 /\ max_position_change m = 0 /\
    optimized_length m = original_length m /\
    optimized_drift m = original_drift m.
Proof.
  intros n Hn Hp Hq Hfail. unfold apply_slam_optimization_metrics.
  assert (Es : exists s, slam_graph choice ts ps qs pcs flag = Returned s /\
                 poses s = map (fun i => (nth i ts f0, nth i ps [], nth i qs []))
                               (seq 0 n)).
  { rewrite slam_graph_built by assumption. eexists. split; [reflexivity|].
    destruct flag; [rewrite detect_loop_closures_poses|]; reflexivity. }
  destruct Es as (s & Es & Ps). rewrite Es. cbn [bind].
  rewrite (@original_poses_rows R _ ts ps qs (length ts) 0) by lia. cbn [bind].
  fold n. rewrite <- Ps.
  assert (Ls : length (poses s) = n) by (rewrite Ps, length_map, length_seq; reflexivity).
  assert (Eo : snd (optimize_poses least_squares s None) = poses s).
  { destruct (Nat.ltb_spec (length (poses s)) 2) as [Hlt|Hge].
    - now apply optimize_poses_few.
    - apply optimize_poses_failed; [exact Hge|].
      destruct Hfail as [H1|Hfail]; [lia | now apply Hfail]. }
  pose proof (optimize_poses_state least_squares s None) as E1.
  destruct (optimize_poses least_squares s None) as [s' opt]. cbn [fst snd] in *.
  subst s' opt.
  destruct (@unchanged_metrics s (poses s)) as (m & -> & Hm).
  { intros E. rewrite E in Ls. cbn in Ls. lia. }
  cbn [bind]. exists m. split; [|exact Hm].
  assert (EP : map (@pose_position R) (poses s) = firstn n ps).
  { rewrite Ps, map_map. cbn [pose_position fst snd]. now apply firstn_map_nth. }
  assert (EQ : map (@pose_quaternion R) (poses s) = firstn n qs).
  { rewrite Ps, map_map. cbn [pose_quaternion snd]. now apply firstn_map_nth. }
  now rewrite EP, EQ.
Qed.
End Fallback.

Lemma slam_fallback_metrics_witness :
  exists m,
    apply_slam_optimization_metrics (fun _ _ => []) (fun _ _ _ => Raised ValueError)
      [0; 1] [ [0; 0; 0]; [1; 0; 0] ] [ [0; 0; 0; 1]; [0; 0; 0; 1] ] None true
    = Returned (firstn 2 [ [0; 0; 0]; [1; 0; 0] ],
                firstn 2 [ [0; 0; 0; 1]; [0; 0; 0; 1] ], Some m) /\
    average_position_change m = 0 /\ max_position_change m = 0 /\
    optimized_length m = original_length m /\
    optimized_drift m = original_drift m.
Proof.
  apply (@slam_fallback_metrics (fun _ _ => []) (fun _ _ _ => Raised ValueError)
           [0; 1] [ [0; 0; 0]; [1; 0; 0] ] [ [0; 0; 0; 1]; [0; 0; 0; 1] ] None true).
  - cbn. lia.
  - cbn. lia.
  - cbn. lia.
  - right. intros s _. left. exists ValueError. reflexivity.
Defined.

(** ** Length of a trajectory *)

(** The sum of the distances between consecutive positions. *)
Fixpoint path_length (l : matrix R) : R :=
  match l with
  | a :: (b :: _) as t => np_norm (vsub b a) + path_length t
  | _ => 0
  end.

Lemma calculate_total_distance_path (l : matrix R) :
  calculate_total_distance l = path_length l.
Proof.
  unfold calculate_total_distance.
  destruct l as [|a [|b l]]; try (cbn; float_R; lra).
  cbn [length Nat.ltb Nat.leb].
  change (vsum (map (@np_norm R _) (np_diff (a :: b :: l))) = path_length (a :: b :: l)).
  revert a b. induction l as [|c l IH]; intros a b.
  - unfold np_diff. cbn [tl combine map path_length]. rewrite vsum_cons, vsum_nil. lra.
  - specialize (IH b c). unfold np_diff in *. cbn [tl combine map] in *.
    rewrite vsum_cons, IH. reflexivity.
Qed.

Lemma triangle3 (a b c : list R) :
  length a = 3%nat -> length b = 3%nat -> length c = 3%nat ->
  np_norm (vsub c a) <= np_norm (vsub b a) + np_norm (vsub c b).
Proof.
  intros La Lb Lc.
  destruct a as [|a1 [|a2 [|a3 [|]]]]; try discriminate.
  destruct b as [|b1 [|b2 [|b3 [|]]]]; try discriminate.
  destruct c as [|c1 [|c2 [|c3 [|]]]]; try discriminate.
  unfold vsub. cbn [map2]. rewrite !np_norm3. float_R.
  set (u1 := b1 - a1). set (u2 := b2 - a2). set (u3 := b3 - a3).
  set (v1 := c1 - b1). set (v2 := c2 - b2). set (v3 := c3 - b3).
  replace (c1 - a1) with (u1 + v1) by (unfold u1, v1; lra).
  replace (c2 - a2) with (u2 + v2) by (unfold u2, v2; lra).
  replace (c3 - a3) with (u3 + v3) by (unfold u3, v3; lra).
  clearbody u1 u2 u3 v1 v2 v3.
  set (U := u1*u1 + u2*u2 + u3*u3). set (V := v1*v1 + v2*v2 + v3*v3).
  assert (HU : 0 <= U) by (unfold U; nra).
  assert (HV : 0 <= V) by (unfold V; nra).
  pose proof (sqrt_pos U) as Hs. pose proof (sqrt_pos V) as Ht.
  pose proof (sqrt_sqrt U HU) as Es. pose proof (sqrt_sqrt V HV) as Et.
  set (s := sqrt U) in *. set (t := sqrt V) in *.
  assert (Hcs : (u1*v1 + u2*v2 + u3*v3) * (u1*v1 + u2*v2 + u3*v3) <= U * V).
  { unfold U, V.
    pose proof (Rle_0_sqr (u1*v2 - u2*v1)). pose proof (Rle_0_sqr (u1*v3 - u3*v1)).
    pose proof (Rle_0_sqr (u2*v3 - u3*v2)). unfold Rsqr in *. nra. }
  assert (Hdot : u1*v1 + u2*v2 + u3*v3 <= s * t).
  { destruct (Rle_lt_dec (u1*v1 + u2*v2 + u3*v3) (s * t)) as [|Hgt]; [assumption|].
    exfalso. assert (0 <= s * t) by (apply Rmult_le_pos; assumption).
    assert (s * t * (s * t) = U * V) by (rewrite <- Es, <- Et; ring). nra. }
  rewrite <- (sqrt_square (s + t)) by lra.
  apply sqrt_le_1_alt. unfold U, V in *. nra.
Qed.

Lemma path_length_nonneg (l : matrix R) : 0 <= path_length l.
Proof.
  induction l as [|a l IH]; [cbn; lra|].
  destruct l as [|b l]; [cbn; lra|].
  change (0 <= np_norm (vsub b a) + path_length (b :: l)).
  pose proof (np_norm_nonneg (vsub b a)). lra.
Qed.

(** X22.  Over the reals, for positions of three coordinates:
    [calculate_total_distance] is never negative and never less than the
    straight-line distance between the first and the last position; it is
    0 for fewer than two positions. *)
Theorem total_distance_bounds (positions : matrix R) :
  Forall (fun p => length p = 3%nat) positions ->
  0 <= calculate_total_distance positions /\
  np_norm (vsub (last positions []) (hd [] positions))
  <= calculate_total_distance positions /\
  ((length positions < 2)%nat -> calculate_total_distance positions = 0).
Proof.
  intros Hp. rewrite !calculate_total_distance_path.
  split; [apply path_length_nonneg|]. split.
  - destruct positions as [|a l];
      [cbn [last hd path_length]; rewrite np_norm_sub_self; lra|].
    cbn [hd]. revert a Hp. induction l as [|b l IH]; intros a Hp.
    + cbn [last path_length]. rewrite np_norm_sub_self. lra.
    + pose proof (Forall_inv Hp) as La. pose proof (Forall_inv_tail Hp) as Hp'.
      pose proof (Forall_inv Hp') as Lb. cbn beta in La, Lb.
      specialize (IH b Hp').
      change (last (a :: b :: l) []) with (last (b :: l) []).
      change (path_length (a :: b :: l))
        with (np_norm (vsub b a) + path_length (b :: l)).
      assert (Ll : length (last (b :: l) []) = 3%nat).
      { assert (Hin : In (last (b :: l) []) (b :: l)).
        { clear. revert b. induction l as [|c l IH]; intros b; [now left|].
          right. apply IH. }
        rewrite Forall_forall in Hp'. now apply Hp'. }
      pose proof (@triangle3 a b (last (b :: l) []) La Lb Ll). lra.
  - intros Hl. destruct positions as [|a [|b l]]; cbn in Hl; try lia; reflexivity.
Qed.

Lemma trajectory_length_from (poses : list (pose R)) (acc : R) :
  fold_left (fun length i =>
    f_add length (np_norm (vsub (pose_position (nth i poses pose_default))
                                (pose_position (nth (i - 1) poses pose_default)))))
    (seq 1 (length poses - 1)) acc
  = acc + path_length (map (@pose_position R) poses).
Proof.
  revert acc. induction poses as [|a t IH]; intros acc; [cbn; lra|].
  destruct t as [|b t]; [cbn; lra|].
  cbn [length Nat.sub]. rewrite ?Nat.sub_0_r. cbn [seq fold_left].
  rewrite <- seq_shift, fold_left_map_index.
  rewrite fold_left_ext_in with
    (g := fun length i =>
      f_add length (np_norm (vsub (pose_position (nth i (b :: t) pose_default))
                                  (pose_position (nth (i - 1) (b :: t) pose_default))))).
  - cbn [length Nat.sub] in IH. rewrite ?Nat.sub_0_r in IH. rewrite IH.
    cbn [map path_length nth Nat.sub]. float_R. lra.
  - intros x i Hi. apply in_seq in Hi. destruct i as [|i]; [lia|].
    cbn [nth Nat.sub]. now rewrite Nat.sub_0_r.
Qed.

(** X23.  Over the reals: the trajectory length reported with the metrics
    (lines 655-659) is [calculate_total_distance] of the positions. *)
Theorem trajectory_length_total_distance (poses : list (pose R)) :
  trajectory_length poses = calculate_total_distance (map (@pose_position R) poses).
Proof.
  rewrite calculate_total_distance_path. unfold trajectory_length.
  rewrite trajectory_length_from. float_R. lra.
Qed.

Lemma total_distance_bounds_witness :
  0 <= calculate_total_distance [ [0; 0; 0]; [3; 0; 0]; [3; 4; 0] ] /\
  np_norm (vsub (last [ [0; 0; 0]; [3; 0; 0]; [3; 4; 0] ] [])
                (hd [] [ [0; 0; 0]; [3; 0; 0]; [3; 4; 0] ]))
  <= calculate_total_distance [ [0; 0; 0]; [3; 0; 0]; [3; 4; 0] ].
Proof.
  destruct (@total_distance_bounds [ [0; 0; 0]; [3; 0; 0]; [3; 4; 0] ])
    as (H0 & H1 & _); [repeat constructor|].
  split; assumption.
Defined.

(** ** The first pass over the messages *)

Section FirstPass.
Context {F P : Type}.
Local Open Scope nat_scope.

(** The points of a message that could be read. *)
Definition readable (m : F * outcome (list P)) : list (list P) :=
  match snd m with Returned points => [points] | Raised _ => [] end.

Lemma first_pass_lists (messages : list (F * outcome (list P))) :
  first_pass messages = (map fst messages, flat_map readable messages).
Proof.
  unfold first_pass.
  assert (G : forall ts data,
    fold_left (fun '(message_timestamps, message_points_data) '(message_time, read) =>
      let message_timestamps := message_timestamps ++ [message_time] in
      match read with
      | Returned points_in_message =>
          (message_timestamps, message_points_data ++ [points_in_message])
      | Raised _ => (message_timestamps, message_points_data)
      end) messages (ts, data)
    = (ts ++ map fst messages, data ++ flat_map readable messages)).
  { induction messages as [|[t r] messages IH]; intros ts data.
    - now rewrite !app_nil_r.
    - cbn [fold_left map flat_map fst]. destruct r as [pts|e]; rewrite IH;
        unfold readable at 2; cbn [snd app]; now rewrite <- !app_assoc. }
  apply G.
Qed.

Lemma flat_map_readable_all (messages : list (F * outcome (list P))) :
  Forall (fun m => exists points, snd m = Returned points) messages ->
  map (fun d => Returned d) (flat_map readable messages) = map snd messages.
Proof.
  induction 1 as [|[t r] messages [pts E] _ IH]; [reflexivity|].
  cbn [snd] in E. subst r. cbn [flat_map map readable snd app]. now rewrite IH.
Qed.

(** X24.  The first pass records the timestamp of every message but the points
    only of the messages it could read (the [continue] of line 1738 comes
    after the [append] of line 1709).  So there are never more point lists
    than timestamps; when every message is read, list [k] holds the points
    of the message with timestamp [k]; and when a message fails, the
    points of the next message take its place and are paired with its
    timestamp. *)
Theorem first_pass_alignment (messages : list (F * outcome (list P))) :
  let message_timestamps := fst (first_pass messages) in
  let message_points_data := snd (first_pass messages) in
  message_timestamps = map fst messages /\
  length message_points_data <= length message_timestamps /\
  (Forall (fun m => exists points, snd m = Returned points) messages ->
   map (fun '(t, d) => (t, Returned d))
       (combine message_timestamps message_points_data) = messages) /\
  (forall before t e t' points rest,
     messages = before ++ (t, Raised e) :: (t', Returned points) :: rest ->
     Forall (fun m => exists points, snd m = Returned points) before ->
     nth_error message_timestamps (length before) = Some t /\
     nth_error message_points_data (length before) = Some points).
Proof.
  intros ts data. subst ts data. rewrite first_pass_lists. cbn [fst snd].
  split; [reflexivity|]. split; [|split].
  - rewrite length_map. induction messages as [|[t [pts|e]] messages IH];
      cbn [flat_map readable snd app length]; lia.
  - intros Hall. induction Hall as [|[t r] messages [pts E] _ IH]; [reflexivity|].
    cbn [snd] in E. subst r. cbn [map flat_map readable snd app combine fst].
    now rewrite IH.
  - intros before t e t' points rest -> Hall. split.
    + rewrite map_app, nth_error_app2 by (rewrite length_map; lia).
      now rewrite length_map, Nat.sub_diag.
    + rewrite flat_map_app.
      assert (L : length (flat_map readable before) = length before).
      { rewrite <- (length_map (fun d => Returned d)), flat_map_readable_all
          by exact Hall. apply length_map. }
      rewrite nth_error_app2 by lia. rewrite L, Nat.sub_diag. reflexivity.
Qed.
End FirstPass.

Lemma first_pass_alignment_witness :
  nth_error (fst (first_pass [(1, Raised ValueError); (2, Returned [7%nat])])) 0
  = Some 1 /\
  nth_error (snd (first_pass [(1, Raised ValueError); (2, Returned [7%nat])])) 0
  = Some [7%nat].
Proof.
  exact (proj2 (proj2 (proj2
           (@first_pass_alignment R nat
              [(1, Raised ValueError); (2, Returned [7%nat])])))
           [] 1 ValueError 2 [7%nat] [] eq_refl (Forall_nil _)).
Defined.

(** ** The fields read from a point and the point format *)

Lemma contains_In (name : string) (fields : list string) :
  contains name fields = true <-> In name fields.
Proof.
  unfold contains. rewrite existsb_exists. split.
  - intros (f & Hin & E). apply String.eqb_eq in E. now subst.
  - intros Hin. exists name. split; [exact Hin | apply String.eqb_refl].
Qed.

(** [find] returns the first element that passes the test. *)
Lemma find_first {A : Type} (p : A -> bool) (l : list A) (x : A) :
  find p l = Some x ->
  exists pre post, l = pre ++ x :: post /\ forall y, In y pre -> p y = false.
Proof.
  induction l as [|a l IH]; cbn [find]; [discriminate|].
  destruct (p a) eqn:Ea.
  - intros [= ->]. exists [], l. split; [reflexivity | intros y []].
  - intros Ef. destruct (IH Ef) as (pre & post & -> & Hpre).
    exists (a :: pre), post. split; [reflexivity|].
    intros y [<-|Hy]; [exact Ea | now apply Hpre].
Qed.

(** X25.  The second pass reads intensity and time of a point at the indices at
    which the first pass asked for them: [fields_to_extract] has
    ["intensity"] at index 3 exactly when the cloud has it, and the time
    field right after.  The time field is the first name of
    [possible_time_fields], in the order of that list, that the cloud
    has: no name before it in the list is a field of the cloud; there is
    none exactly when the cloud has no known time field.  The ROS header
    time is used exactly when the cloud has no time field and the message
    has a header. *)
Theorem plan_fields_indices (available_fields : list string) (has_header : bool) :
  let plan := plan_fields available_fields has_header in
  firstn 3 (fields_to_extract plan) = ["x"; "y"; "z"]%string /\
  (has_intensity plan = true <-> In "intensity"%string available_fields) /\
  (has_intensity plan = true ->
   nth_error (fields_to_extract plan) intensity_index = Some "intensity"%string) /\
  (forall f, pointcloud_time_field plan = Some f ->
     nth_error (fields_to_extract plan) (time_index plan) = Some f /\
     In f available_fields /\
     exists earlier later,
       possible_time_fields = earlier ++ f :: later /\
       forall g, In g earlier -> ~ In g available_fields) /\
  (pointcloud_time_field plan = None <->
   forall g, In g possible_time_fields -> ~ In g available_fields) /\
  (use_ros_time plan = true <->
   pointcloud_time_field plan = None /\ has_header = true) /\
  (has_gps_time plan = false ->
   length (fields_to_extract plan)
   = (3 + if has_intensity plan then 1 else 0)%nat).
Proof.
  intros plan. subst plan. unfold plan_fields, time_index, intensity_index.
  cbn [fields_to_extract has_intensity pointcloud_time_field use_ros_time
       has_gps_time has_pointcloud_time].
  split; [reflexivity|]. split; [apply contains_In|].
  split; [|split; [|split; [|split]]].
  - intros ->. reflexivity.
  - intros f Ef. rewrite Ef. split.
    + destruct (contains "intensity" available_fields); reflexivity.
    + split; [apply find_some in Ef; now apply contains_In|].
      destruct (find_first _ _ Ef) as (earlier & later & E & Hpre).
      exists earlier, later. split; [exact E|].
      intros g Hg Hin. apply contains_In in Hin. rewrite (Hpre g Hg) in Hin.
      discriminate.
  - split.
    + intros Ef g Hg Hin. apply contains_In in Hin.
      rewrite (find_none _ _ Ef g Hg) in Hin. discriminate.
    + intros Hnone. destruct (find _ possible_time_fields) as [f|] eqn:Ef;
        [|reflexivity].
      apply find_some in Ef. destruct Ef as [Hin Hc]. apply contains_In in Hc.
      now destruct (Hnone f Hin).
  - destruct (find _ possible_time_fields); cbn [negb andb].
    + split; [discriminate | intros [E _]; discriminate].
    + split; [intros ->; split; reflexivity | intros [_ ->]; reflexivity].
  - destruct (find _ possible_time_fields); cbn [negb andb orb];
      [discriminate|].
    destruct (contains "intensity" available_fields); reflexivity.
Qed.

Lemma plan_fields_indices_witness :
  let plan := plan_fields ["x"; "y"; "z"; "intensity"; "t"; "time"]%string true in
  nth_error (fields_to_extract plan) (time_index plan) = Some "time"%string.
Proof.
  intros plan.
  exact (proj1 (proj1 (proj2 (proj2 (proj2
           (@plan_fields_indices ["x"; "y"; "z"; "intensity"; "t"; "time"]%string true))))
           "time"%string eq_refl)).
Defined.

(** ** Filtering of invalid coordinates *)

Section Filter.
Context {F : Type} `{Float64 F}.
Local Open Scope nat_scope.

(** The points of the arrays, and the points with one more attribute. *)
Definition array_points (a : point_arrays F) : list (F * F * F) :=
  points_of (x_array a, y_array a, z_array a).

Definition with_attribute (a : point_arrays F) (u : option (list F))
    : option (list (F * F * F * F)) :=
  option_map (combine (array_points a)) u.

Definition finite_point (r : F * F * F * F) : bool := is_finite3 (fst r).

Definition attribute_length (n : nat) (u : option (list F)) : Prop :=
  match u with Some l => length l = n | None => True end.

Lemma boolean_index_map {A B : Type} (rows : list A) (f : A -> B) (g : A -> bool) :
  boolean_index (map f rows) (map g rows) = Returned (map f (filter g rows)).
Proof.
  unfold boolean_index. rewrite !length_map, Nat.eqb_refl. f_equal.
  induction rows as [|r rows IH]; [reflexivity|].
  cbn [map combine filter snd]. destruct (g r); cbn [map fst]; now rewrite IH.
Qed.

Lemma points_of_columns (rows : list (F * F * F)) :
  points_of (map (fun p => fst (fst p)) rows, map (fun p => snd (fst p)) rows,
             map (fun p => snd p) rows) = rows.
Proof.
  unfold points_of. induction rows as [|[[x y] z] rows IH]; [reflexivity|].
  cbn [map combine fst snd]. now rewrite IH.
Qed.

Lemma columns_of_points (x y z : list F) :
  length y = length x -> length z = length x ->
  let rows := points_of (x, y, z) in
  x = map (fun p => fst (fst p)) rows /\ y = map (fun p => snd (fst p)) rows /\
  z = map (fun p => snd p) rows.
Proof.
  unfold points_of. revert y z.
  induction x as [|a x IH]; intros [|b y] [|c z] Hy Hz; try discriminate;
    [now repeat split|].
  injection Hy as Hy. injection Hz as Hz. destruct (IH y z Hy Hz) as (Ex & Ey & Ez).
  cbn [combine map fst snd]. repeat split; f_equal; assumption.
Qed.

Lemma valid_mask_rows (x y z : list F) :
  map (fun '(x, (y, z)) => is_finite3 (x, y, z)) (combine x (combine y z))
  = map is_finite3 (points_of (x, y, z)).
Proof.
  unfold points_of. rewrite map_map. apply map_ext. now intros [a [b c]].
Qed.

Lemma count_zero (p : F -> bool) (u : list F) :
  length (filter p u) = 0 -> Forall (fun a => p a = false) u.
Proof.
  induction u as [|a u IH]; [constructor|]. cbn [filter].
  destruct (p a) eqn:E; [discriminate|]. intros Hc. constructor; auto.
Qed.

Lemma count_positive (p : F -> bool) (u : list F) :
  0 < length (filter p u) <-> exists a, In a u /\ p a = true.
Proof.
  split.
  - intros Hc. destruct (filter p u) as [|a l] eqn:E; [cbn in Hc; lia|].
    exists a. apply filter_In. rewrite E. now left.
  - intros (a & Hin & Hp). assert (Hf : In a (filter p u)) by now apply filter_In.
    destruct (filter p u); [contradiction | cbn; lia].
Qed.

(** One attribute array under the mask. *)
Lemma attribute_filtered (rows : list (F * F * F)) (u : list F) :
  length u = length rows ->
  exists u',
    boolean_index u (map is_finite3 rows) = Returned u' /\
    combine (filter is_finite3 rows) u' = filter finite_point (combine rows u).
Proof.
  intros Hu.
  pose proof (map_fst_combine rows u Hu) as Er.
  pose proof (map_snd_combine rows u Hu) as Eu.
  remember (combine rows u) as l eqn:El. clear El Hu. subst rows u.
  rewrite map_map, (boolean_index_map l snd (fun r => is_finite3 (fst r))).
  eexists. split; [reflexivity|]. rewrite filter_fst. apply combine_fst_snd.
Qed.

Lemma all_finite (a : point_arrays F) :
  length (y_array a) = length (x_array a) ->
  length (z_array a) = length (x_array a) ->
  Forall (fun v => f_isnan v = false) (x_array a) ->
  Forall (fun v => f_isnan v = false) (y_array a) ->
  Forall (fun v => f_isnan v = false) (z_array a) ->
  Forall (fun v => f_isinf v = false) (x_array a) ->
  Forall (fun v => f_isinf v = false) (y_array a) ->
  Forall (fun v => f_isinf v = false) (z_array a) ->
  Forall (fun p => is_finite3 p = true) (array_points a).
Proof.
  intros Hy Hz Nx Ny Nz Ix Iy Iz. unfold array_points.
  destruct (columns_of_points _ _ _ Hy Hz) as (Ex & Ey & Ez).
  set (rows := points_of _) in *. rewrite Forall_forall in *.
  intros [[x y] z] Hin. unfold is_finite3.
  assert (Hx : In x (x_array a))
    by (rewrite Ex; apply (in_map (fun p => fst (fst p)) _ _ Hin)).
  assert (Hy' : In y (y_array a))
    by (rewrite Ey; apply (in_map (fun p => snd (fst p)) _ _ Hin)).
  assert (Hz' : In z (z_array a))
    by (rewrite Ez; apply (in_map (fun p => snd p) _ _ Hin)).
  now rewrite (Nx x Hx), (Ny y Hy'), (Nz z Hz'), (Ix x Hx), (Iy y Hy'), (Iz z Hz').
Qed.

(** X26.  For every implementation of the float interface and arrays of
    one length, as the second pass builds them:
    [filter_invalid] never fails; the points it keeps are exactly the
    points without NaN or infinite coordinate, in their order; and every
    kept point keeps its own intensity and GPS time. *)
Theorem filter_invalid_keeps_finite (a : point_arrays F) :
  let n := length (x_array a) in
  length (y_array a) = n -> length (z_array a) = n ->
  attribute_length n (intensity_array a) ->
  attribute_length n (gps_time_array a) ->
  exists a',
    filter_invalid a = Returned a' /\
    array_points a' = filter is_finite3 (array_points a) /\
    with_attribute a' (intensity_array a')
    = option_map (filter finite_point) (with_attribute a (intensity_array a)) /\
    with_attribute a' (gps_time_array a')
    = option_map (filter finite_point) (with_attribute a (gps_time_array a)).
Proof.
  intros n Hy Hz Hi Ht. subst n. unfold filter_invalid.
  destruct (Nat.ltb_spec 0
    (length (filter f_isnan (x_array a)) + length (filter f_isnan (y_array a))
     + length (filter f_isnan (z_array a)) + length (filter f_isinf (x_array a))
     + length (filter f_isinf (y_array a)) + length (filter f_isinf (z_array a))))
    as [Hbad|Hgood].
  - rewrite valid_mask_rows.
    destruct (columns_of_points _ _ _ Hy Hz) as (Ex & Ey & Ez).
    fold (array_points a) in *. remember (array_points a) as rows eqn:Erows.
    assert (Lr : length rows = length (x_array a)) by (rewrite Ex; now rewrite length_map).
    assert (Bx : boolean_index (x_array a) (map is_finite3 rows)
                 = Returned (map (fun p => fst (fst p)) (filter is_finite3 rows)))
      by (rewrite <- boolean_index_map; now rewrite <- Ex).
    assert (By : boolean_index (y_array a) (map is_finite3 rows)
                 = Returned (map (fun p => snd (fst p)) (filter is_finite3 rows)))
      by (rewrite <- boolean_index_map; now rewrite <- Ey).
    assert (Bz : boolean_index (z_array a) (map is_finite3 rows)
                 = Returned (map (fun p => snd p) (filter is_finite3 rows)))
      by (rewrite <- boolean_index_map; now rewrite <- Ez).
    rewrite Bx, By, Bz. cbn [bind].
    assert (Hattr : forall u : option (list F),
      attribute_length (length (x_array a)) u ->
      exists u',
        match u with
        | Some i => i <- boolean_index i (map is_finite3 rows) ;; Returned (Some i)
        | None => Returned None
        end = Returned u' /\
        option_map (combine (filter is_finite3 rows)) u'
        = option_map (filter finite_point) (option_map (combine rows) u)).
    { intros [u|] Hu; [|exists None; split; reflexivity].
      cbn [attribute_length] in Hu.
      destruct (@attribute_filtered rows u) as (u' & -> & E); [lia|].
      exists (Some u'). split; [reflexivity|]. cbn [option_map]. now rewrite E. }
    destruct (Hattr _ Hi) as (i' & -> & Ei). cbn [bind].
    destruct (Hattr _ Ht) as (t' & -> & Et). cbn [bind].
    eexists. split; [reflexivity|].
    unfold with_attribute. rewrite <- Erows. unfold array_points.
    cbn [x_array y_array z_array intensity_array gps_time_array].
    rewrite points_of_columns. auto.
  - assert (Z : forall p u, length (filter p u) <= 0 -> Forall (fun v : F => p v = false) u)
      by (intros p u Hc; apply count_zero; lia).
    exists a. split; [reflexivity|].
    assert (Hall : Forall (fun p => is_finite3 p = true) (array_points a))
      by (apply all_finite; try assumption; apply Z; lia).
    assert (Hattr : forall u, with_attribute a u
                    = option_map (filter finite_point) (with_attribute a u)).
    { intros [u|]; [|reflexivity]. unfold with_attribute. cbn [option_map]. f_equal.
      symmetry. apply filter_all. apply Forall_forall. intros [p v] Hin.
      apply in_combine_l in Hin. rewrite Forall_forall in Hall.
      now apply Hall. }
    split; [symmetry; now apply filter_all|]. split; apply Hattr.
Qed.
End Filter.

Lemma filter_invalid_keeps_finite_witness :
  let a := {| x_array := [1; 2]; y_array := [3; 4]; z_array := [5; 6];
              intensity_array := Some [7; 8]; gps_time_array := None |} in
  exists a',
    filter_invalid a = Returned a' /\
    array_points a' = filter is_finite3 (array_points a) /\
    with_attribute a' (intensity_array a')
    = option_map (filter finite_point) (with_attribute a (intensity_array a)) /\
    with_attribute a' (gps_time_array a')
    = option_map (filter finite_point) (with_attribute a (gps_time_array a)).
Proof.
  intros a. apply (@filter_invalid_keeps_finite R _ a); reflexivity.
Defined.

(** X27.  What reaches the file: the GPS time whenever there is one, the intensity
    only together with a GPS time (format 1); a cloud with intensity and no
    time is written in format 0, without its intensity.  Format 4 is never
    chosen. *)
Theorem point_format_stores (has_gps_time has_intensity : bool) :
  stores_gps_time has_gps_time has_intensity = has_gps_time /\
  stores_intensity has_gps_time has_intensity = has_gps_time && has_intensity /\
  In (choose_point_format has_gps_time has_intensity) [0; 1; 6]%nat.
Proof.
  destruct has_gps_time, has_intensity; cbn; repeat split; auto.
Qed.

(** ** Sequential times *)

Lemma np_linspace_closed (a b : R) (n : nat) :
  (2 <= n)%nat -> a < b ->
  np_linspace a b n
  = map (fun i => a + INR i * ((b - a) / INR (n - 1))) (seq 0 n).
Proof.
  intros Hn Hab. unfold np_linspace.
  destruct n as [|k]; [lia|]. replace (S k - 1)%nat with k by lia.
  destruct (Nat.ltb_spec 1 (S k)) as [_|]; [|lia].
  destruct (Nat.ltb_spec 0 k) as [_|]; [|lia].
  assert (Hd : 0 < INR k) by (apply lt_0_INR; lia).
  assert (Hs : 0 < (b - a) / INR k).
  { apply Rmult_lt_0_compat; [lra | now apply Rinv_0_lt_compat]. }
  rewrite !f_of_nat_INR. float_R. rewrite Reqb_false by lra.
  rewrite !seq_S, !map_app.
  cbn [map Nat.add]. rewrite firstn_app, firstn_all2
    by (rewrite length_map, length_seq; lia).
  rewrite length_map, length_seq, Nat.sub_diag. cbn [firstn]. rewrite app_nil_r.
  f_equal.
  - apply map_ext. intros i. rewrite f_of_nat_INR. lra.
  - f_equal. field. lra.
Qed.

Lemma np_linspace_length (a b : R) (n : nat) : length (np_linspace a b n) = n.
Proof.
  unfold np_linspace. destruct (Nat.ltb_spec 1 n).
  - rewrite length_app, length_firstn, length_map, length_seq. cbn [length]. lia.
  - now rewrite length_map, length_seq.
Qed.

Lemma np_linspace_increasing (a b : R) (n i j : nat) :
  a < b -> (i < j < n)%nat ->
  nth i (np_linspace a b n) 0 < nth j (np_linspace a b n) 0.
Proof.
  intros Hab Hij. rewrite np_linspace_closed by (lia || assumption).
  set (h := fun k => a + INR k * ((b - a) / INR (n - 1))).
  assert (E : forall k, (k < n)%nat -> nth k (map h (seq 0 n)) 0 = h k).
  { intros k Hk. rewrite nth_indep with (d' := h 0%nat)
      by (rewrite length_map, length_seq; lia).
    rewrite map_nth, seq_nth by lia. reflexivity. }
  rewrite !E by lia. unfold h.
  assert (Hd : 0 < INR (n - 1)) by (apply lt_0_INR; lia).
  assert (Hs : 0 < (b - a) / INR (n - 1)).
  { apply Rmult_lt_0_compat; [lra | now apply Rinv_0_lt_compat]. }
  assert (Hk : INR i < INR j) by (apply lt_INR; lia). nra.
Qed.

Lemma monotonic_increasing_steps (t : list R) :
  (forall i, (S i < length t)%nat -> nth i t 0 <= nth (S i) t 0) ->
  monotonic_increasing t = true.
Proof.
  unfold monotonic_increasing. induction t as [|a t IH]; intros Hs; [reflexivity|].
  destruct t as [|b t]; [reflexivity|].
  cbn [tl map2 forallb]. rewrite andb_true_iff. split.
  - float_R. apply Rleb_true. specialize (Hs 0%nat). cbn in Hs.
    assert (a <= b) by (apply Hs; lia). lra.
  - apply IH. intros i Hi. apply (Hs (S i)). cbn [length] in *. lia.
Qed.

(** X28.  Over the reals: the sequential times that replace ROS header times
    (lines 2099-2118) are as many as the points and strictly increasing
    from point to point, so the check of line 2131 passes and the arrays
    are not re-sorted; the time of a point is then its rank in the file,
    no longer the time of its message. *)
Theorem sequential_time_increasing (gps_time_array : list R) (messages : nat) :
  gps_time_array <> [] -> (1 <= messages)%nat ->
  exists t,
    sequential_time gps_time_array messages = Returned t /\
    length t = length gps_time_array /\
    (forall i j, (i < j < length t)%nat -> nth i t 0 < nth j t 0) /\
    monotonic_increasing t = true.
Proof.
  intros Hne Hm. unfold sequential_time.
  destruct (np_max_nonempty Hne) as [mx Emx], (np_min_nonempty Hne) as [mn Emn].
  rewrite Emx, Emn. cbn [of_option bind].
  assert (G : forall a b, a < b ->
    let t := np_linspace a b (length gps_time_array) in
    length t = length gps_time_array /\
    (forall i j, (i < j < length t)%nat -> nth i t 0 < nth j t 0) /\
    monotonic_increasing t = true).
  { intros a b Hab t. subst t. rewrite np_linspace_length.
    split; [reflexivity|]. split.
    - intros i j Hij. now apply np_linspace_increasing.
    - apply monotonic_increasing_steps. rewrite np_linspace_length. intros i Hi.
      left. apply np_linspace_increasing; [assumption | lia]. }
  float_R. unfold Rltb. destruct (Rlt_dec _ (mx - mn)) as [Hd|Hd].
  - eexists. split; [reflexivity|]. apply G. lra.
  - destruct gps_time_array as [|t0 ts]; [congruence|].
    cbn [nth_error of_option bind]. eexists. split; [reflexivity|]. apply G.
    rewrite f_of_nat_INR. assert (1 <= INR messages) by (apply (le_INR 1); lia). lra.
Qed.

Lemma sequential_time_increasing_witness :
  exists t,
    sequential_time [5; 5; 6; 6] 2 = Returned t /\
    length t = length [5; 5; 6; 6] /\
    (forall i j, (i < j < length t)%nat -> nth i t 0 < nth j t 0) /\
    monotonic_increasing t = true.
Proof.
  apply (@sequential_time_increasing [5; 5; 6; 6] 2).
  - discriminate.
  - lia.
Defined.

(** ** Normalisation of the GPS times *)

Lemma np_min_shift (u : list R) (m c : R) :
  np_min u = Some m -> np_min (map (fun x => x - c) u) = Some (m - c).
Proof.
  intros E.
  assert (Hne : map (fun x => x - c) u <> []) by (destruct u; discriminate).
  destruct (np_min_nonempty Hne) as [m' E']. rewrite E'. f_equal.
  pose proof (np_min_In _ E') as Hin. apply in_map_iff in Hin.
  destruct Hin as (y & <- & Hy).
  pose proof (np_min_lower _ E y Hy).
  pose proof (np_min_lower _ E' (m - c)
                (in_map (fun x => x - c) _ _ (np_min_In _ E))).
  lra.
Qed.

Lemma np_max_shift (u : list R) (m c : R) :
  np_max u = Some m -> np_max (map (fun x => x - c) u) = Some (m - c).
Proof.
  intros E.
  assert (Hne : map (fun x => x - c) u <> []) by (destruct u; discriminate).
  destruct (np_max_nonempty Hne) as [m' E']. rewrite E'. f_equal.
  pose proof (np_max_In _ E') as Hin. apply in_map_iff in Hin.
  destruct Hin as (y & <- & Hy).
  pose proof (np_max_upper _ E y Hy).
  pose proof (np_max_upper _ E' (m - c)
                (in_map (fun x => x - c) _ _ (np_max_In _ E))).
  lra.
Qed.

Lemma normalize_gps_time_cases (t : list R) :
  (normalize_gps_time t = t) \/
  (exists mn mx, np_min t = Some mn /\ np_max t = Some mx /\ 100 < mn /\
                 normalize_gps_time t = map (fun x => x - mn) t).
Proof.
  unfold normalize_gps_time. destruct (forallb _ t); [now left|].
  destruct (np_max t) as [mx|] eqn:Emx; [|now left].
  destruct (np_min t) as [mn|] eqn:Emn; [|now left].
  destruct (f_lt mx _); [now left|].
  destruct (f_lt _ mn) eqn:E; [|now left].
  right. exists mn, mx. repeat split; try reflexivity.
  revert E. float_R. unfold Rltb. destruct (Rlt_dec _ mn); [lra | discriminate].
Qed.

(** X29.  Over the reals: the normalisation of lines 2201-2217 either leaves the
    times as they are or subtracts their minimum from all of them, so the
    time differences between points stay; times that all exceed 100 come
    out starting at 0; and normalising a second time changes nothing. *)
Theorem normalize_gps_time_shift (t : list R) :
  let t' := normalize_gps_time t in
  (exists c, t' = map (fun x => x - c) t) /\
  (t <> [] -> (forall x, In x t -> 100 < x) ->
   np_min t' = Some 0 /\ forall x, In x t' -> 0 <= x) /\
  normalize_gps_time t' = t'.
Proof.
  intros t'. subst t'.
  destruct (normalize_gps_time_cases t) as [E | (mn & mx & Emn & Emx & Hmn & E)].
  - split; [|split].
    + exists 0. rewrite E. rewrite <- (map_id t) at 1. apply map_ext. intros; lra.
    + intros Hne Hall. exfalso.
      destruct (np_min_nonempty Hne) as [mn Emn], (np_max_nonempty Hne) as [mx Emx].
      pose proof (Hall mn (np_min_In _ Emn)) as Hmn.
      pose proof (Hall mx (np_max_In _ Emx)) as Hmx.
      revert E. unfold normalize_gps_time.
      destruct (forallb _ t) eqn:Ez.
      { rewrite forallb_forall in Ez. specialize (Ez mn (np_min_In _ Emn)).
        revert Ez. float_R. unfold Reqb. destruct (Req_dec_T _ _); [lra | discriminate]. }
      rewrite Emx, Emn. float_R. rewrite Rltb_false by lra. rewrite Rltb_true by lra.
      intros E. destruct t as [|a t]; [congruence|]. injection E as E _. lra.
    + now rewrite E.
  - rewrite E. split; [now exists mn | split].
    + intros _ _. rewrite (@np_min_shift t mn mn Emn). split; [f_equal; lra|].
      intros x Hx. apply in_map_iff in Hx. destruct Hx as (y & <- & Hy).
      pose proof (np_min_lower _ Emn y Hy). lra.
    + unfold normalize_gps_time at 1. destruct (forallb _ _); [reflexivity|].
      rewrite (@np_max_shift t mx mn Emx), (@np_min_shift t mn mn Emn).
      destruct (f_lt (mx - mn) _); [reflexivity|].
      float_R. rewrite Rltb_false by lra. reflexivity.
Qed.

Lemma normalize_gps_time_shift_witness :
  np_min (normalize_gps_time [1700000000; 1700000001; 1700000003]) = Some 0 /\
  forall x, In x (normalize_gps_time [1700000000; 1700000001; 1700000003]) -> 0 <= x.
Proof.
  apply (@normalize_gps_time_shift [1700000000; 1700000001; 1700000003]).
  - discriminate.
  - intros x [<-|[<-|[<-|[]]]]; lra.
Defined.

(** ** Pitch of the [.pos] file *)

Section Pitch.
Variable arctan2 : R -> R -> R.

(** The pitch, in degrees, that [quaternion_to_euler] reports. *)
Definition pitch_of (q : list R) : option R :=
  match quaternion_to_euler arctan2 asin PI q with
  | Returned [_; pitch; _] => Some pitch
  | _ => None
  end.

Lemma degrees_bound (a : R) :
  - (PI / 2) <= a <= PI / 2 -> -90 <= np_degrees PI a <= 90.
Proof.
  intros Ha. unfold np_degrees. float_R. pose proof PI_RGT_0 as Hpi.
  set (k := 180 * / 1 / PI).
  assert (Hk : PI / 2 * k = 90) by (unfold k; field; lra).
  assert (Hp : 0 < k).
  { unfold k. apply Rmult_lt_0_compat; [lra | now apply Rinv_0_lt_compat]. }
  split.
  - replace (-90) with (- (PI / 2) * k) by lra.
    apply Rmult_le_compat_r; lra.
  - rewrite <- Hk. apply Rmult_le_compat_r; lra.
Qed.

Lemma pitch_radians (x y z w : R) :
  exists a,
    pitch_of [x; y; z; w] = Some (np_degrees PI a) /\
    - (PI / 2) <= a <= PI / 2 /\
    (-1 < 2 * (w * y - z * x) < 1 -> a = asin (2 * (w * y - z * x))) /\
    (1 <= 2 * (w * y - z * x) -> a = PI / 2) /\
    (2 * (w * y - z * x) <= -1 -> a = - (PI / 2)).
Proof.
  unfold pitch_of, quaternion_to_euler. cbn [unpack4 bind map].
  pose proof PI_RGT_0 as Hpi. float_R.
  replace (2 * / 1) with 2 by lra. replace (1 * / 1) with 1 by lra.
  replace (0 * / 1) with 0 by lra.
  set (sinp := 2 * (w * y - z * x)).
  unfold Rleb. destruct (Rle_dec 1 (Rabs sinp)) as [Hbig|Hsmall].
  - unfold np_copysign. float_R. replace (0 * / 1) with 0 by lra.
    replace (2 * / 1) with 2 by lra.
    rewrite (Rabs_pos_eq (PI / 2)) by lra. unfold Rltb.
    destruct (Rlt_dec sinp 0) as [Hneg|Hpos].
    + rewrite Rabs_left in Hbig by lra. eexists. split; [reflexivity|].
      repeat split; intros; lra.
    + rewrite Rabs_pos_eq in Hbig by lra. eexists. split; [reflexivity|].
      repeat split; intros; lra.
  - assert (Hs : -1 < sinp < 1).
    { apply Rnot_le_lt in Hsmall. apply Rabs_def2 in Hsmall. lra. }
    eexists. split; [reflexivity|]. split; [apply asin_bound|].
    repeat split; intros; try reflexivity; lra.
Qed.

(** X30.  Over the reals, for every quaternion: the pitch written to the [.pos]
    file lies between -90 and 90 degrees.  For the quaternion of a rotation
    about the y axis by an angle between -90 and 90 degrees it is that
    angle. *)
Theorem euler_pitch (x y z w theta : R) :
  (exists pitch, pitch_of [x; y; z; w] = Some pitch /\ -90 <= pitch <= 90) /\
  (- (PI / 2) <= theta <= PI / 2 ->
   pitch_of [0; sin (theta / 2); 0; cos (theta / 2)] = Some (np_degrees PI theta)).
Proof.
  split.
  - destruct (pitch_radians x y z w) as (a & E & Ha & _).
    exists (np_degrees PI a). split; [exact E | now apply degrees_bound].
  - intros Ht.
    destruct (pitch_radians 0 (sin (theta / 2)) 0 (cos (theta / 2)))
      as (a & E & _ & Hin & Hhi & Hlo).
    rewrite E. do 2 f_equal.
    assert (Es : 2 * (cos (theta / 2) * sin (theta / 2) - 0 * 0) = sin theta).
    { replace theta with (2 * (theta / 2)) at 3 by lra. rewrite sin_2a. ring. }
    rewrite Es in *. pose proof (asin_sin theta Ht) as Ea.
    pose proof (SIN_bound theta) as [Hl Hu].
    destruct (Rle_lt_dec 1 (sin theta)) as [H1|H1].
    + rewrite (Hhi H1). assert (E1 : sin theta = 1) by lra.
      rewrite E1, asin_1 in Ea. lra.
    + destruct (Rle_lt_dec (sin theta) (-1)) as [H2|H2].
      * rewrite (Hlo H2). assert (E1 : sin theta = -1) by lra.
        rewrite E1 in Ea. replace (-1) with (- (1)) in Ea by lra.
        rewrite asin_opp, asin_1 in Ea. lra.
      * rewrite Hin by lra. exact Ea.
Qed.
End Pitch.

Lemma euler_pitch_witness :
  pitch_of (fun _ _ => 0) [0; sin (0 / 2); 0; cos (0 / 2)] = Some (np_degrees PI 0).
Proof.
  apply (@euler_pitch (fun _ _ => 0) 0 0 0 1 0). pose proof PI_RGT_0. lra.
Defined.
